(** * The EmitC C++ emitter of MLIR: a shallow embedding and its properties

    The development follows mlir/lib/Target/Cpp/TranslateToCpp.cpp.  The
    emitter is a single-threaded recursive walk over an operation tree that
    mutates one [CppEmitter] object: an output stream, two scoped hash
    tables (value names, block labels) and two counter stacks.  It is
    embedded as a state-passing monad over a record holding exactly these
    members.  A computation that runs into an assertion or into undefined
    behaviour of the C++ code (inserting into a scoped table while no scope
    is active, [top()] of an empty stack, stepping an iterator past the end)
    has no result. *)

From stdpp Require Import base gmap list strings pretty.

Set Default Proof Using "Type".

(** Induction over the operation tree goes through the lists, options and
    blocks it nests in. *)
Scheme All for list.
Scheme All for option.

(** ** 1. The IR as the emitter sees it

    The classes of the IR (operations, values, blocks, types, attributes)
    are declared outside the emitter's file.  They are given here by what
    the emitter reads from them, under the names of the accessors it
    calls. *)

(** [mlir::LogicalResult] with [success(bool)], [failure()] and [failed]. *)
Inductive LogicalResult := Success | Failure.

Definition success (isSuccess : bool) : LogicalResult :=
  if isSuccess then Success else Failure.
Definition failure : LogicalResult := Failure.
Definition failed (r : LogicalResult) : bool :=
  match r with Failure => true | Success => false end.

Inductive SignednessSemantics := Signless | Signed | Unsigned.

(** [ShapedType::kDynamic], the extent of a dynamic dimension. *)
Definition kDynamic : Z := (- 2 ^ 63)%Z.

(** The types [emitType] tells apart; every other type is [OtherType]. *)
Inductive Type_ :=
| IntegerType (width : N) (signedness : SignednessSemantics)
| FloatType (width : N)
| IndexType
| RankedTensorType (shape : list Z) (elementType : Type_)
| UnrankedTensorType (elementType : Type_)
| TupleType (types : list Type_)
| OpaqueType (value : string)
| PointerType (pointee : Type_)
| OtherType (mnemonic : string).

Definition hasStaticShape (shape : list Z) : bool :=
  forallb (fun d => negb (d =? kDynamic)%Z) shape.

(** [llvm::APInt]: a bit width and the bits, read as an unsigned number. *)
Record APInt := { getBitWidth : N; getZExtValue : Z }.

Definition getSExtValue (val : APInt) : Z :=
  let w := Z.of_N (getBitWidth val) in
  let u := (getZExtValue val mod 2 ^ w)%Z in
  if (w =? 0)%Z then 0%Z
  else if (2 ^ (w - 1) <=? u)%Z then (u - 2 ^ w)%Z else u.

Definition getBoolValue (val : APInt) : bool :=
  negb (getZExtValue val =? 0)%Z.

(** Modelled from the spec: [APInt::toString] lives in LLVM's support
    library, outside the emitter's file.  The emitter calls it with radix 10
    and no C-literal prefix; the spec has integers "print in decimal,
    honoring signedness". *)
Definition APInt_toString (val : APInt) (isSigned : bool) : string :=
  if isSigned then pretty (getSExtValue val)
  else pretty (getZExtValue val mod 2 ^ Z.of_N (getBitWidth val))%Z.

Inductive fltCategory := fcInfinity | fcNaN | fcNormal | fcZero.

Inductive Semantics :=
| S_IEEEhalf | S_BFloat | S_IEEEsingle | S_IEEEdouble | S_IEEEquad
| S_PPCDoubleDouble | S_Float8E5M2 | S_Float8E4M3FN | S_FloatTF32
| S_x87DoubleExtended.

(** Modelled from the spec: [llvm::APFloat] is LLVM's arbitrary-precision
    float, outside the emitter's file.  The emitter only asks for its
    category, its sign, its semantics and its decimal rendering
    [toString(Str, FormatPrecision, FormatMaxPadding, TruncateZero)]; the
    rendering is kept as a method of the value. *)
Record APFloat := {
  category : fltCategory;
  isNegative : bool;
  getSemantics : Semantics;
  toString : N -> N -> bool -> string
}.

Definition isFinite (val : APFloat) : bool :=
  match category val with fcNormal | fcZero => true | _ => false end.
Definition isNaN (val : APFloat) : bool :=
  match category val with fcNaN => true | _ => false end.
Definition isInfinity (val : APFloat) : bool :=
  match category val with fcInfinity => true | _ => false end.

(** The attributes [emitAttribute] tells apart.  A dense integer attribute
    carries its own type, [dense.getType()]: a shaped type, which for a
    dense attribute is a tensor type or a vector type (the latter an
    [OtherType] here). *)
Inductive Attribute :=
| FloatAttr (value : APFloat)
| DenseFPElementsAttr (values : list APFloat)
| IntegerAttr (type : Type_) (value : APInt)
| DenseIntElementsAttr (type : Type_) (values : list APInt)
| OpaqueAttr (value : string)
| SymbolRefAttr (rootReference : string) (nestedReferences : list string)
| TypeAttr (value : Type_)
| OtherAttr (mnemonic : string).

Record NamedAttribute := { attrName : string; attrValue : Attribute }.

(** An [mlir::Value] is a pointer to its definition.  [valueImpl] stands for
    the pointer; [definingLiteral] is what
    [dyn_cast_if_present<emitc::LiteralOp>(val.getDefiningOp())] finds: the
    text of the literal operation defining the value, if there is one (block
    arguments have no defining operation). *)
Record Value := { valueImpl : nat; definingLiteral : option string }.

#[global] Instance Value_eq_dec : EqDecision Value.
Proof. solve_decision. Defined.

#[global] Instance Value_countable : Countable Value.
Proof.
  refine (inj_countable' (fun v => (valueImpl v, definingLiteral v))
            (fun p => {| valueImpl := p.1; definingLiteral := p.2 |}) _).
  by intros [].
Defined.

(** Types are read at definition sites only (operation results and block
    arguments), so they are kept there. *)
Record OpResult := { resultValue : Value; resultType : Type_ }.
Record BlockArgument :=
  { argValue : Value; argType : Type_; getArgNumber : N }.

(** A branch target as the branch emitters use it: the block's identity and
    the values of its arguments. *)
Record Successor := { successorBlock : nat; successorArguments : list Value }.

Inductive CmpPredicate := eq_ | ne | lt | le | gt | ge | three_way.

(** A block: identity (the [Block*]), arguments, operations, and the blocks
    that branch to it. *)
Record Block_ (Op : Type) := mkBlock {
  blockId : nat;
  getArguments : list BlockArgument;
  getOperations : list Op;
  getPredecessors : list nat
}.
Scheme All for Block_.
Arguments mkBlock {Op}.
Arguments blockId {Op}.
Arguments getArguments {Op}.
Arguments getOperations {Op}.
Arguments getPredecessors {Op}.

(** One constructor per operation class of the dispatcher in
    [emitOperation], with the parts its printer reads; [OtherOp] is every
    operation the dispatcher has no case for (among them [emitc.yield]).
    The single-block regions of [emitc.for] and [emitc.if] are given by the
    operations of their block. *)
Inductive Operation :=
| ModuleOp (body : list Operation)
| cf_BranchOp (operands : list Value) (successor : Successor)
| cf_CondBranchOp (condition : Value)
    (trueOperands falseOperands : list Value) (trueDest falseDest : Successor)
| emitc_AddOp (result : OpResult) (lhs rhs : Value)
| emitc_ApplyOp (applicableOperator : string) (result : OpResult)
    (operand : Value)
| emitc_AssignOp (var value : Value)
| emitc_CallOp (callee : string) (args templateArgs : option (list Attribute))
    (results : list OpResult) (operands : list Value)
| emitc_CastOp (result : OpResult) (operand : Value)
| emitc_CmpOp (predicate : CmpPredicate) (result : OpResult) (lhs rhs : Value)
| emitc_ConstantOp (result : OpResult) (value : Attribute)
| emitc_DivOp (result : OpResult) (lhs rhs : Value)
| emitc_ForOp (lowerBound upperBound step : Value)
    (inductionVar : BlockArgument) (region : list Operation)
| emitc_IfOp (condition : Value) (thenRegion : list Operation)
    (elseRegion : option (list Operation))
| emitc_IncludeOp (include : string) (isStandardInclude : bool)
| emitc_LiteralOp (result : OpResult) (value : string)
| emitc_MulOp (result : OpResult) (lhs rhs : Value)
| emitc_RemOp (result : OpResult) (lhs rhs : Value)
| emitc_SubOp (result : OpResult) (lhs rhs : Value)
| emitc_VariableOp (result : OpResult) (value : Attribute)
| func_CallOp (callee : string) (results : list OpResult)
    (operands : list Value)
| func_ConstantOp (result : OpResult) (value : Attribute)
| func_FuncOp (name : string) (resultTypes : list Type_)
    (blocks : list (Block_ Operation))
| func_ReturnOp (operands : list Value) (attrs : list NamedAttribute)
| arith_ConstantOp (result : OpResult) (value : Attribute)
| OtherOp (name : string) (results : list OpResult)
    (regions : list (list (Block_ Operation))).

Abbreviation Block := (Block_ Operation).

Definition hasNoPredecessors (block : Block) : bool :=
  match getPredecessors block with [] => true | _ => false end.

(** [Operation::getResults]. *)
Definition getResults (op : Operation) : list OpResult :=
  match op with
  | emitc_AddOp r _ _ | emitc_ApplyOp _ r _ | emitc_CastOp r _
  | emitc_CmpOp _ r _ _ | emitc_ConstantOp r _ | emitc_DivOp r _ _
  | emitc_LiteralOp r _ | emitc_MulOp r _ _ | emitc_RemOp r _ _
  | emitc_SubOp r _ _ | emitc_VariableOp r _ | func_ConstantOp r _
  | arith_ConstantOp r _ => [r]
  | emitc_CallOp _ _ _ rs _ | func_CallOp _ rs _ | OtherOp _ rs _ => rs
  | _ => []
  end.

(** [Operation::getOperands]. *)
Definition getOperands (op : Operation) : list Value :=
  match op with
  | cf_BranchOp os _ | emitc_CallOp _ _ _ _ os | func_CallOp _ _ os
  | func_ReturnOp os _ => os
  | cf_CondBranchOp c ts fs _ _ => c :: ts ++ fs
  | emitc_AddOp _ l r | emitc_CmpOp _ _ l r | emitc_DivOp _ l r
  | emitc_MulOp _ l r | emitc_RemOp _ l r | emitc_SubOp _ l r => [l; r]
  | emitc_ApplyOp _ _ o | emitc_CastOp _ o => [o]
  | emitc_AssignOp v x => [v; x]
  | emitc_ForOp lb ub st _ _ => [lb; ub; st]
  | emitc_IfOp c _ _ => [c]
  | _ => []
  end.

(** Modelled from the spec: [Operation::walk<WalkOrder::PreOrder>] belongs
    to the IR library.  It visits the operation, then the operations nested
    in its regions, in program order ("declare every operation-result ...
    variable up front", nested regions included). *)
Fixpoint walkPreOrder (op : Operation) : list Operation :=
  let walkOps := flat_map walkPreOrder in
  let walkBlocks := flat_map (fun b : Block => walkOps (getOperations b)) in
  op ::
  match op with
  | ModuleOp body => walkOps body
  | emitc_ForOp _ _ _ _ region => walkOps region
  | emitc_IfOp _ thenRegion elseRegion =>
      walkOps thenRegion ++
      match elseRegion with Some ops => walkOps ops | None => [] end
  | func_FuncOp _ _ blocks => walkBlocks blocks
  | OtherOp _ _ regions => flat_map walkBlocks regions
  | _ => []
  end.

(** ** 2. The emitter object and its monad *)

(** What the emitter does to its [raw_indented_ostream], in order: [os << s],
    [os.indent()], [os.unindent()], and [os.getOStream() << s], which
    bypasses the indentation. *)
Inductive StreamOp :=
| OsWrite (s : string)
| OsIndent
| OsUnindent
| OsDirect (s : string).

(** The line feed of the C++ string literals. *)
Definition nl : string := String (Ascii.ascii_of_nat 10) EmptyString.

(** The double quote of the C++ string literals. *)
Definition dquote : string := String (Ascii.ascii_of_nat 34) EmptyString.

(** The characters handed to the stream, indentation left aside. *)
Definition streamText (ops : list StreamOp) : string :=
  foldr (fun o acc =>
           match o with
           | OsWrite s | OsDirect s => s +:+ acc
           | _ => acc
           end) EmptyString ops.

(** [struct CppEmitter].  A [llvm::ScopedHashTable] is its stack of open
    scopes, innermost first, each holding the entries inserted while it was
    the current scope.  [diagnostics] collects the messages of [emitError]
    and [emitOpError] (in C++ they go to the context's diagnostic engine;
    the location and the printed form of a type or attribute streamed into
    a message are left out). *)
Record CppEmitter := mkCppEmitter {
  os : list StreamOp;
  declareVariablesAtTop : bool;
  valueMapper : list (gmap Value string);
  blockMapper : list (gmap nat string);
  valueInScopeCount : list Z;
  labelInScopeCount : list Z;
  diagnostics : list string
}.

(** [CppEmitter::CppEmitter]. *)
Definition CppEmitter_new (os : list StreamOp) (declareVariablesAtTop : bool)
  : CppEmitter :=
  {| os := os; declareVariablesAtTop := declareVariablesAtTop;
     valueMapper := []; blockMapper := [];
     valueInScopeCount := [0%Z]; labelInScopeCount := [0%Z];
     diagnostics := [] |}.

Definition M (A : Type) : Type := CppEmitter -> option (A * CppEmitter).

Definition ret {A} (a : A) : M A := fun st => Some (a, st).
Definition bind {A B} (m : M A) (f : A -> M B) : M B :=
  fun st => match m st with Some (a, st') => f a st' | None => None end.
(** An assertion failure or undefined behaviour: no result. *)
Definition abort {A} : M A := fun _ => None.

#[global] Instance M_ret : MRet M := @ret.
#[global] Instance M_bind : MBind M := fun A B f m => bind m f.

(** [if (failed(m)) return failure(); k]. *)
Definition andThen (m : M LogicalResult) (k : M LogicalResult)
  : M LogicalResult :=
  r ← m; if failed r then ret failure else k.

Notation "m >>? k" := (andThen m k)
  (at level 100, k at level 200, right associativity).

Definition get {A} (f : CppEmitter -> A) : M A := fun st => Some (f st, st).

Definition streamOp (o : StreamOp) : M unit := fun st =>
  Some (tt, mkCppEmitter (os st ++ [o]) (declareVariablesAtTop st)
              (valueMapper st) (blockMapper st) (valueInScopeCount st)
              (labelInScopeCount st) (diagnostics st)).

Definition write (s : string) : M unit := streamOp (OsWrite s).
Definition indent : M unit := streamOp OsIndent.
Definition unindent : M unit := streamOp OsUnindent.
Definition writeDirect (s : string) : M unit := streamOp (OsDirect s).

(** [emitError(loc, msg)] and [op.emitOpError(msg)], converted to a failed
    [LogicalResult]. *)
Definition emitError (msg : string) : M LogicalResult := fun st =>
  Some (failure,
        mkCppEmitter (os st) (declareVariablesAtTop st) (valueMapper st)
          (blockMapper st) (valueInScopeCount st) (labelInScopeCount st)
          (diagnostics st ++ [msg])).

Definition shouldDeclareVariablesAtTop : M bool := get declareVariablesAtTop.

(** *** Scoped hash tables *)

(** Modelled from the spec: [llvm::ScopedHashTable] belongs to LLVM's ADT
    library.  The spec has "an explicit stack of mapping frames": a lookup
    finds the innermost entry, an insertion goes to the current scope, and
    closing a scope drops the entries made in it. *)
Section ScopedHashTable.
Context `{Countable K}.

(** [begin(key)]: the innermost entry for the key. *)
Fixpoint ScopedHashTable_begin (key : K) (t : list (gmap K string))
  : option string :=
  match t with
  | [] => None
  | scope :: outer =>
      match scope !! key with
      | Some name => Some name
      | None => ScopedHashTable_begin key outer
      end
  end.

Definition ScopedHashTable_count (key : K) (t : list (gmap K string))
  : bool :=
  bool_decide (is_Some (ScopedHashTable_begin key t)).

(** [insert(key, val)] asserts that a scope is active. *)
Definition ScopedHashTable_insert (key : K) (val : string)
    (t : list (gmap K string)) : option (list (gmap K string)) :=
  match t with
  | [] => None
  | scope :: outer => Some (<[key := val]> scope :: outer)
  end.
End ScopedHashTable.

(** [bool CppEmitter::hasValueInScope(Value val)]. *)
Definition hasValueInScope (val : Value) : M bool :=
  get (fun st => ScopedHashTable_count val (valueMapper st)).

(** [bool CppEmitter::hasBlockLabel(Block &block)]. *)
Definition hasBlockLabel (block : nat) : M bool :=
  get (fun st => ScopedHashTable_count block (blockMapper st)).

(** [valueMapper.insert(val, formatv("v{0}", ++valueInScopeCount.top()))].
    The counters are [int64_t]; a translation cannot hand out the 2^63
    names it would take to overflow one, so they are unbounded integers
    here. *)
Definition insertValueName (val : Value) : M unit := fun st =>
  match valueInScopeCount st with
  | [] => None
  | top :: below =>
      match ScopedHashTable_insert val ("v" +:+ pretty (top + 1)%Z)
              (valueMapper st) with
      | None => None
      | Some vm =>
          Some (tt, mkCppEmitter (os st) (declareVariablesAtTop st) vm
                      (blockMapper st) ((top + 1)%Z :: below)
                      (labelInScopeCount st) (diagnostics st))
      end
  end.

(** [blockMapper.insert(&block,
    formatv("label{0}", ++labelInScopeCount.top()))]. *)
Definition insertBlockLabel (block : nat) : M unit := fun st =>
  match labelInScopeCount st with
  | [] => None
  | top :: below =>
      match ScopedHashTable_insert block ("label" +:+ pretty (top + 1)%Z)
              (blockMapper st) with
      | None => None
      | Some bm =>
          Some (tt, mkCppEmitter (os st) (declareVariablesAtTop st)
                      (valueMapper st) bm (valueInScopeCount st)
                      ((top + 1)%Z :: below) (diagnostics st))
      end
  end.

(** [StringRef CppEmitter::getOrCreateName(Value val)]. *)
Definition getOrCreateName (val : Value) : M string :=
  match definingLiteral val with
  | Some literal => ret literal
  | None =>
      bound ← hasValueInScope val;
      (if negb bound then insertValueName val else ret tt);;
      name ← get (fun st => ScopedHashTable_begin val (valueMapper st));
      match name with Some n => ret n | None => abort end
  end.

(** [StringRef CppEmitter::getOrCreateName(Block &block)]. *)
Definition getOrCreateLabel (block : nat) : M string :=
  bound ← hasBlockLabel block;
  (if negb bound then insertBlockLabel block else ret tt);;
  name ← get (fun st => ScopedHashTable_begin block (blockMapper st));
  match name with Some n => ret n | None => abort end.

(** [CppEmitter::Scope::Scope]: open a scope in both tables, then push a
    copy of the top of both counter stacks. *)
Definition enterScope : M unit := fun st =>
  match valueInScopeCount st, labelInScopeCount st with
  | v :: vs, l :: ls =>
      Some (tt, mkCppEmitter (os st) (declareVariablesAtTop st)
                  (∅ :: valueMapper st) (∅ :: blockMapper st)
                  (v :: v :: vs) (l :: l :: ls) (diagnostics st))
  | _, _ => None
  end.

(** [CppEmitter::Scope::~Scope]: pop both counter stacks, then close the
    scope of both tables. *)
Definition exitScope : M unit := fun st =>
  match valueInScopeCount st, labelInScopeCount st,
        valueMapper st, blockMapper st with
  | _ :: vs, _ :: ls, _ :: vm, _ :: bm =>
      Some (tt, mkCppEmitter (os st) (declareVariablesAtTop st) vm bm vs ls
                  (diagnostics st))
  | _, _, _, _ => None
  end.

(** [CppEmitter::Scope scope(emitter);] followed by the rest of the C++
    function body: the destructor runs on every return path. *)
Definition withScope {A} (body : M A) : M A :=
  enterScope;; r ← body; exitScope;; ret r.

(** *** Loops *)

Section Loops.
Context {A : Type}.

(** [for (x : l) f(x);] *)
Fixpoint forEach (f : A -> M unit) (l : list A) : M unit :=
  match l with
  | [] => ret tt
  | x :: rest => f x;; forEach f rest
  end.

(** [for (x : l) if (failed(f(x))) return failure();] *)
Fixpoint forEachWithError (f : A -> M LogicalResult) (l : list A)
  : M LogicalResult :=
  match l with
  | [] => ret (success true)
  | x :: rest => f x >>? forEachWithError f rest
  end.

(** [for (it = begin; std::next(it) != end; ++it) ...]: every element but
    the last; on an empty range [std::next(end)] is undefined. *)
Fixpoint forAllExceptLast (f : A -> M LogicalResult) (l : list A)
  : M LogicalResult :=
  match l with
  | [] => abort
  | [_] => ret (success true)
  | x :: rest => f x >>? forAllExceptLast f rest
  end.

(** The loop of [interleaveWithError] after the first element. *)
Fixpoint interleaveRestWithError (eachFn : A -> M LogicalResult)
    (betweenFn : M unit) (l : list A) : M LogicalResult :=
  match l with
  | [] => ret (success true)
  | x :: rest =>
      betweenFn;; (eachFn x >>? interleaveRestWithError eachFn betweenFn rest)
  end.

Definition interleaveWithError (eachFn : A -> M LogicalResult)
    (betweenFn : M unit) (l : list A) : M LogicalResult :=
  match l with
  | [] => ret (success true)
  | x :: rest => eachFn x >>? interleaveRestWithError eachFn betweenFn rest
  end.

Definition interleaveCommaWithError (l : list A)
    (eachFn : A -> M LogicalResult) : M LogicalResult :=
  interleaveWithError eachFn (write ", ") l.

(** [llvm::interleaveComma] of STLExtras. *)
Definition interleaveComma (l : list A) (eachFn : A -> M unit) : M unit :=
  match l with
  | [] => ret tt
  | x :: rest => eachFn x;; forEach (fun y => write ", ";; eachFn y) rest
  end.
End Loops.

(** ** 3. Types and attributes *)

(** [bool CppEmitter::shouldMapToUnsigned(IntegerType::SignednessSemantics)]. *)
Definition shouldMapToUnsigned (val : SignednessSemantics) : bool :=
  match val with
  | Signless => false
  | Signed => false
  | Unsigned => true
  end.

(** The body of [CppEmitter::emitTupleType], over the [emitType] it calls. *)
Definition emitTupleTypeWith (emitType : Type_ -> M LogicalResult)
    (types : list Type_) : M LogicalResult :=
  write "std::tuple<";;
  (interleaveCommaWithError types emitType >>?
   (write ">";; ret (success true))).

(** [LogicalResult CppEmitter::emitType(Location loc, Type type)]. *)
Fixpoint emitType (type : Type_) : M LogicalResult :=
  match type with
  | IntegerType width signedness =>
      if (width =? 1)%N then write "bool";; ret (success true)
      else if ((width =? 8) || (width =? 16) || (width =? 32)
               || (width =? 64))%N then
        if shouldMapToUnsigned signedness
        then write "uint";; write (pretty width);; write "_t";;
             ret (success true)
        else write "int";; write (pretty width);; write "_t";;
             ret (success true)
      else emitError "cannot emit integer type "
  | FloatType width =>
      if (width =? 32)%N then write "float";; ret (success true)
      else if (width =? 64)%N then write "double";; ret (success true)
      else emitError "cannot emit float type "
  | IndexType => write "size_t";; ret (success true)
  | UnrankedTensorType _ => emitError "cannot emit unranked tensor type"
  | RankedTensorType shape elementType =>
      if negb (hasStaticShape shape)
      then emitError "cannot emit tensor type with non static shape"
      else
        write "Tensor<";;
        (emitType elementType >>?
         (forEach (fun dimSize : Z => write ", ";; write (pretty dimSize))
            shape;;
          write ">";; ret (success true)))
  | TupleType types => emitTupleTypeWith emitType types
  | OpaqueType value => write value;; ret (success true)
  | PointerType pointee =>
      emitType pointee >>? (write "*";; ret (success true))
  | OtherType _ => emitError "cannot emit type "
  end.

(** [LogicalResult CppEmitter::emitTupleType(Location, ArrayRef<Type>)]. *)
Definition emitTupleType (types : list Type_) : M LogicalResult :=
  emitTupleTypeWith emitType types.

(** [LogicalResult CppEmitter::emitTypes(Location, ArrayRef<Type>)]. *)
Definition emitTypes (types : list Type_) : M LogicalResult :=
  match types with
  | [] => write "void";; ret (success true)
  | [type] => emitType type
  | _ => emitTupleType types
  end.

(** [cast<TensorType>(type).getElementType()]: the cast asserts that the
    type is a ranked or unranked tensor type, and is undefined for any other
    type when assertions are compiled out; [None] stands for both. *)
Definition castTensorElementType (type : Type_) : option Type_ :=
  match type with
  | RankedTensorType _ elementType | UnrankedTensorType elementType =>
      Some elementType
  | _ => None
  end.

(** The lambda [printInt] of [emitAttribute]. *)
Definition printInt (val : APInt) (isUnsigned : bool) : M unit :=
  if (getBitWidth val =? 1)%N then
    if getBoolValue val then write "true" else write "false"
  else write (APInt_toString val (negb isUnsigned)).

(** The lambda [printFloat] of [emitAttribute]. *)
Definition printFloat (val : APFloat) : M unit :=
  if isFinite val then
    match getSemantics val with
    | S_IEEEsingle => write "(float)"
    | S_IEEEdouble => write "(double)"
    | _ => ret tt
    end;;
    write (toString val 0%N 0%N false)
  else if isNaN val then write "NAN"
  else if isInfinity val then
    (if isNegative val then write "-" else ret tt);;
    write "INFINITY"
  else ret tt.

(** [LogicalResult CppEmitter::emitAttribute(Location loc, Attribute attr)]. *)
Definition emitAttribute (attr : Attribute) : M LogicalResult :=
  match attr with
  | FloatAttr value => printFloat value;; ret (success true)
  | DenseFPElementsAttr values =>
      write "{";; interleaveComma values printFloat;; write "}";;
      ret (success true)
  | IntegerAttr (IntegerType _ signedness) value =>
      printInt value (shouldMapToUnsigned signedness);; ret (success true)
  | IntegerAttr IndexType value => printInt value false;; ret (success true)
  | DenseIntElementsAttr type values =>
      match castTensorElementType type with
      | None => abort
      | Some (IntegerType _ signedness) =>
          write "{";;
          interleaveComma values
            (fun val => printInt val (shouldMapToUnsigned signedness));;
          write "}";; ret (success true)
      | Some IndexType =>
          write "{";;
          interleaveComma values (fun val => printInt val false);;
          write "}";; ret (success true)
      | Some _ => emitError "cannot emit attribute: "
      end
  | OpaqueAttr value => write value;; ret (success true)
  | SymbolRefAttr rootReference nestedReferences =>
      if bool_decide (1 < length nestedReferences)
      then emitError "attribute has more than 1 nested reference"
      else write rootReference;; ret (success true)
  | TypeAttr value => emitType value
  | _ => emitError "cannot emit attribute: "
  end.

(** ** 4. Names, declarations and operands *)

(** [os << emitter.getOrCreateName(val)]. *)
Definition writeName (val : Value) : M unit :=
  name ← getOrCreateName val; write name.

(** [LogicalResult CppEmitter::emitOperands(Operation &op)]. *)
Definition emitOperands (operands : list Value) : M LogicalResult :=
  interleaveCommaWithError operands (fun result =>
    bound ← hasValueInScope result;
    if negb (bool_decide (is_Some (definingLiteral result))) && negb bound
    then emitError "operand value not in scope"
    else writeName result;; ret (success true)).

Definition is_contained (exclude : list string) (name : string) : bool :=
  bool_decide (name ∈ exclude).

(** [LogicalResult CppEmitter::emitOperandsAndAttributes(Operation &op,
    ArrayRef<StringRef> exclude)]. *)
Definition emitOperandsAndAttributes (operands : list Value)
    (attrs : list NamedAttribute) (exclude : list string) : M LogicalResult :=
  emitOperands operands >>?
  ((if bool_decide (0 < length operands)
       && existsb (fun attr => negb (is_contained exclude (attrName attr)))
            attrs
    then write ", " else ret tt);;
   interleaveCommaWithError attrs (fun attr =>
     if is_contained exclude (attrName attr) then ret (success true)
     else
       write "/* ";; write (attrName attr);; write " */";;
       (emitAttribute (attrValue attr) >>? ret (success true)))).

(** [LogicalResult CppEmitter::emitVariableAssignment(OpResult result)]. *)
Definition emitVariableAssignment (result : Value) : M LogicalResult :=
  bound ← hasValueInScope result;
  if negb bound
  then emitError "result variable for the operation has not been declared"
  else writeName result;; write " = ";; ret (success true).

(** [LogicalResult CppEmitter::emitVariableDeclaration(OpResult result,
    bool trailingSemicolon)]. *)
Definition emitVariableDeclaration (result : OpResult)
    (trailingSemicolon : bool) : M LogicalResult :=
  bound ← hasValueInScope (resultValue result);
  if bound : bool
  then emitError "result variable for the operation already declared"
  else
    emitType (resultType result) >>?
    (write " ";; writeName (resultValue result);;
     (if trailingSemicolon then write (";" +:+ nl) else ret tt);;
     ret (success true)).

(** [LogicalResult CppEmitter::emitAssignPrefix(Operation &op)]. *)
Definition emitAssignPrefix (results : list OpResult) : M LogicalResult :=
  match results with
  | [] => ret (success true)
  | [result] =>
      declareAtTop ← shouldDeclareVariablesAtTop;
      if declareAtTop : bool
      then emitVariableAssignment (resultValue result) >>? ret (success true)
      else
        emitVariableDeclaration result false >>?
        (write " = ";; ret (success true))
  | _ =>
      declareAtTop ← shouldDeclareVariablesAtTop;
      (if negb declareAtTop
       then forEachWithError
              (fun result => emitVariableDeclaration result true) results
       else ret (success true)) >>?
      (write "std::tie(";;
       interleaveComma results (fun result => writeName (resultValue result));;
       write ") = ";; ret (success true))
  end.

(** [LogicalResult CppEmitter::emitLabel(Block &block)]. *)
Definition emitLabel (block : nat) : M LogicalResult :=
  labelled ← hasBlockLabel block;
  if negb labelled then emitError "label for block not found"
  else
    label ← getOrCreateLabel block;
    writeDirect label;; writeDirect (":" +:+ nl);; ret (success true).

(** ** 5. The printers of the operations *)

(** [dyn_cast<emitc::OpaqueAttr>(value)] succeeds and
    [oAttr.getValue().empty()]. *)
Definition isEmptyOpaqueAttr (value : Attribute) : bool :=
  match value with
  | OpaqueAttr EmptyString => true
  | _ => false
  end.

(** [static LogicalResult printConstantOp(CppEmitter &, Operation *,
    Attribute value)]. *)
Definition printConstantOp (result : OpResult) (value : Attribute)
  : M LogicalResult :=
  declareAtTop ← shouldDeclareVariablesAtTop;
  if declareAtTop : bool then
    if isEmptyOpaqueAttr value then ret (success true)
    else emitVariableAssignment (resultValue result) >>? emitAttribute value
  else
    if isEmptyOpaqueAttr value then emitVariableDeclaration result false
    else emitAssignPrefix [result] >>? emitAttribute value.

(** [printOperation(CppEmitter &, emitc::AssignOp)]: the result of the
    variable operation defining [var] is [var] itself. *)
Definition printOperation_AssignOp (var value : Value) : M LogicalResult :=
  emitVariableAssignment var >>? (writeName value;; ret (success true)).

(** [static LogicalResult printBinaryOperation(CppEmitter &, Operation *,
    StringRef binaryOperator)]. *)
Definition printBinaryOperation (results : list OpResult) (lhs rhs : Value)
    (binaryOperator : string) : M LogicalResult :=
  emitAssignPrefix results >>?
  (writeName lhs;;
   write " ";; write binaryOperator;;
   write " ";; writeName rhs;;
   ret (success true)).

(** The predicate table of [printOperation(CppEmitter &, emitc::CmpOp)]. *)
Definition cmpOperator (predicate : CmpPredicate) : string :=
  match predicate with
  | eq_ => "=="
  | ne => "!="
  | lt => "<"
  | le => "<="
  | gt => ">"
  | ge => ">="
  | three_way => "<=>"
  end.

(** The loop over [llvm::zip(operands, successor.getArguments())] of the
    branch printers. *)
Definition assignSuccessorArguments (operands arguments : list Value)
  : M unit :=
  forEach (fun pair : Value * Value =>
             writeName pair.2;; write " = ";; writeName pair.1;;
             write (";" +:+ nl))
    (zip operands arguments).

(** [printOperation(CppEmitter &, cf::BranchOp)]. *)
Definition printOperation_BranchOp (operands : list Value)
    (successor : Successor) : M LogicalResult :=
  assignSuccessorArguments operands (successorArguments successor);;
  write "goto ";;
  labelled ← hasBlockLabel (successorBlock successor);
  if negb labelled
  then emitError "unable to find label for successor block"
  else
    label ← getOrCreateLabel (successorBlock successor);
    write label;; ret (success true).

(** [printOperation(CppEmitter &, cf::CondBranchOp)]. *)
Definition printOperation_CondBranchOp (condition : Value)
    (trueOperands falseOperands : list Value)
    (trueSuccessor falseSuccessor : Successor) : M LogicalResult :=
  write "if (";; writeName condition;; write (") {" +:+ nl);;
  indent;;
  assignSuccessorArguments trueOperands (successorArguments trueSuccessor);;
  write "goto ";;
  labelled ← hasBlockLabel (successorBlock trueSuccessor);
  if negb labelled
  then emitError "unable to find label for successor block"
  else
    label ← getOrCreateLabel (successorBlock trueSuccessor);
    write label;; write (";" +:+ nl);;
    unindent;; write ("} else {" +:+ nl);;
    indent;;
    assignSuccessorArguments falseOperands
      (successorArguments falseSuccessor);;
    write "goto ";;
    labelled ← hasBlockLabel (successorBlock falseSuccessor);
    if negb labelled
    then emitError "unable to find label for successor block"
    else
      label ← getOrCreateLabel (successorBlock falseSuccessor);
      write label;; write (";" +:+ nl);;
      unindent;; write "}";; ret (success true).

(** [printOperation(CppEmitter &, func::CallOp)]. *)
Definition printOperation_func_CallOp (callee : string)
    (results : list OpResult) (operands : list Value) : M LogicalResult :=
  emitAssignPrefix results >>?
  (write callee;; write "(";;
   (emitOperands operands >>? (write ")";; ret (success true)))).

(** The lambda [emitArgs] of [printOperation(CppEmitter &, emitc::CallOp)]. *)
Definition emitArgs (operands : list Value) (attr : Attribute)
  : M LogicalResult :=
  match attr with
  | IntegerAttr IndexType t =>
      let idx := getSExtValue t in
      if ((idx <? 0) || (Z.of_nat (length operands) <=? idx))%Z
      then emitError "invalid operand index"
      else
        match operands !! Z.to_nat idx with
        | None => abort
        | Some operand =>
            bound ← hasValueInScope operand;
            if negb bound
            then emitError ("operand " +:+ pretty idx
                            +:+ "'s value not defined in scope")
            else writeName operand;; ret (success true)
        end
  | _ => emitAttribute attr >>? ret (success true)
  end.

(** [printOperation(CppEmitter &, emitc::CallOp)]. *)
Definition printOperation_emitc_CallOp (callee : string)
    (args templateArgs : option (list Attribute)) (results : list OpResult)
    (operands : list Value) : M LogicalResult :=
  emitAssignPrefix results >>?
  (write callee;;
   (match templateArgs with
    | Some attrs =>
        write "<";;
        (interleaveCommaWithError attrs (emitArgs operands) >>?
         (write ">";; ret (success true)))
    | None => ret (success true)
    end >>?
    (write "(";;
     (match args with
      | Some attrs => interleaveCommaWithError attrs (emitArgs operands)
      | None => emitOperands operands
      end >>?
      (write ")";; ret (success true)))))).

(** [printOperation(CppEmitter &, emitc::ApplyOp)]. *)
Definition printOperation_ApplyOp (applicableOperator : string)
    (result : OpResult) (operand : Value) : M LogicalResult :=
  emitAssignPrefix [result] >>?
  (write applicableOperator;; writeName operand;; ret (success true)).

(** [printOperation(CppEmitter &, emitc::CastOp)]. *)
Definition printOperation_CastOp (result : OpResult) (operand : Value)
  : M LogicalResult :=
  emitAssignPrefix [result] >>?
  (write "(";;
   (emitType (resultType result) >>?
    (write ") ";; writeName operand;; ret (success true)))).

(** [printOperation(CppEmitter &, emitc::IncludeOp)]. *)
Definition printOperation_IncludeOp (include : string)
    (isStandardInclude : bool) : M LogicalResult :=
  write "#include ";;
  (if isStandardInclude
   then write "<";; write include;; write ">"
   else write dquote;; write include;; write dquote);;
  ret (success true).

(** [printOperation(CppEmitter &, func::ReturnOp)]. *)
Definition printOperation_ReturnOp (operands : list Value)
    (attrs : list NamedAttribute) : M LogicalResult :=
  write "return";;
  match operands with
  | [] => ret (success true)
  | [operand] =>
      write " ";; writeName operand;;
      bound ← hasValueInScope operand;
      ret (success bound)
  | _ =>
      write " std::make_tuple(";;
      (emitOperandsAndAttributes operands attrs [] >>?
       (write ")";; ret (success true)))
  end.

(** [isa<cf::CondBranchOp, emitc::ForOp, emitc::IfOp, emitc::LiteralOp>(op)]. *)
Definition isBracedOrLiteral (op : Operation) : bool :=
  match op with
  | cf_CondBranchOp _ _ _ _ _ | emitc_ForOp _ _ _ _ _ | emitc_IfOp _ _ _
  | emitc_LiteralOp _ _ => true
  | _ => false
  end.

Definition isLiteralOp (op : Operation) : bool :=
  match op with emitc_LiteralOp _ _ => true | _ => false end.

(** [functionOp.getArguments()]: the arguments of the entry block, none for
    a function without body. *)
Definition getFunctionArguments (blocks : list Block) : list BlockArgument :=
  match blocks with
  | [] => []
  | entry :: _ => getArguments entry
  end.

(** The printers that emit nested operations, over the [emitOperation] they
    call back into. *)
Section NestedPrinters.
Variable emitOperation : Operation -> bool -> M LogicalResult.

(** [printOperation(CppEmitter &, emitc::ForOp)]. *)
Definition printOperation_ForOp (lowerBound upperBound step : Value)
    (inductionVar : BlockArgument) (region : list Operation)
  : M LogicalResult :=
  write "for (";;
  (emitType (argType inductionVar) >>?
   (write " ";;
    writeName (argValue inductionVar);;
    write " = ";;
    writeName lowerBound;;
    write "; ";;
    writeName (argValue inductionVar);;
    write " < ";;
    writeName upperBound;;
    write "; ";;
    writeName (argValue inductionVar);;
    write " += ";;
    writeName step;;
    write (") {" +:+ nl);;
    indent;;
    (forAllExceptLast (fun op => emitOperation op true) region >>?
     (unindent;; write "}";; ret (success true))))).

(** [printOperation(CppEmitter &, emitc::IfOp)]; the assertion that the
    last operation of a region is a yield is compiled out of release
    builds and is not modelled. *)
Definition printOperation_IfOp (condition : Value)
    (thenRegion : list Operation) (elseRegion : option (list Operation))
  : M LogicalResult :=
  let emitAllExceptLast :=
    forAllExceptLast (fun op => emitOperation op true) in
  write "if (";;
  (emitOperands [condition] >>?
   (write (") {" +:+ nl);;
    indent;;
    (emitAllExceptLast thenRegion >>?
     (unindent;; write "}";;
      match elseRegion with
      | Some ops =>
          write (" else {" +:+ nl);;
          indent;;
          (emitAllExceptLast ops >>?
           (unindent;; write "}";; ret (success true)))
      | None => ret (success true)
      end)))).

(** [printOperation(CppEmitter &, ModuleOp)]. *)
Definition printOperation_ModuleOp (body : list Operation)
  : M LogicalResult :=
  withScope (forEachWithError (fun op => emitOperation op false) body).

(** The callback of the walk that declares every result at the top of a
    function. *)
Definition declareResultsOf (op : Operation) : M LogicalResult :=
  if isLiteralOp op then ret (success true)
  else
    forEachWithError (fun result =>
      r ← emitVariableDeclaration result true;
      if failed r
      then emitError "unable to declare result variable for op"
      else ret (success true))
      (getResults op).

(** [for (Block &block : blocks) emitter.getOrCreateName(block);] *)
Definition createLabels (blocks : list Block) : M unit :=
  forEach (fun block : Block => getOrCreateLabel (blockId block);; ret tt)
    blocks.

(** The loop declaring variables for the arguments of every block but the
    entry block. *)
Definition declareBlockArguments (blocks : list Block) : M LogicalResult :=
  forEachWithError (fun block : Block =>
    forEachWithError (fun arg : BlockArgument =>
      bound ← hasValueInScope (argValue arg);
      if bound : bool
      then emitError (" block argument #" +:+ pretty (getArgNumber arg)
                      +:+ " is out of scope")
      else
        emitType (argType arg) >>?
        (write " ";; writeName (argValue arg);; write (";" +:+ nl);;
         ret (success true)))
      (getArguments block))
    (drop 1 blocks).

(** The label step of the block loop: only print a label if the block has
    predecessors. *)
Definition emitBlockLabel (block : Block) : M LogicalResult :=
  if negb (hasNoPredecessors block) then emitLabel (blockId block)
  else ret (success true).

(** The loop over the blocks of a function body. *)
Definition emitBlocks (blocks : list Block) : M LogicalResult :=
  forEachWithError (fun block : Block =>
    emitBlockLabel block >>?
    forEachWithError (fun op =>
      emitOperation op (negb (isBracedOrLiteral op)))
      (getOperations block))
    blocks.

(** The part of [printOperation(CppEmitter &, func::FuncOp)] that prints
    the return type, the name and the parameter list. *)
Definition emitFunctionSignature (name : string)
    (resultTypes : list Type_) (blocks : list Block) : M LogicalResult :=
  emitTypes resultTypes >>?
  (write " ";; write name;;
   write "(";;
   (interleaveCommaWithError (getFunctionArguments blocks) (fun arg =>
      emitType (argType arg) >>?
      (write " ";; writeName (argValue arg);; ret (success true))) >>?
    (write (") {" +:+ nl);; ret (success true)))).

(** The walk declaring all variables that hold operation results,
    including those from nested regions. *)
Definition declareVariablesOfFunction (name : string)
    (resultTypes : list Type_) (blocks : list Block) : M LogicalResult :=
  declareAtTop ← shouldDeclareVariablesAtTop;
  if declareAtTop : bool
  then forEachWithError declareResultsOf
         (walkPreOrder (func_FuncOp name resultTypes blocks))
  else ret (success true).

(** [printOperation(CppEmitter &, func::FuncOp)] from the construction of
    its [Scope] on. *)
Definition printFunctionDefinition (name : string)
    (resultTypes : list Type_) (blocks : list Block) : M LogicalResult :=
  withScope
    (emitFunctionSignature name resultTypes blocks >>?
     (indent;;
      (declareVariablesOfFunction name resultTypes blocks >>?
       (createLabels blocks;;
        (declareBlockArguments blocks >>?
         (emitBlocks blocks >>?
          (unindent;; write ("}" +:+ nl);; ret (success true)))))))).

(** [printOperation(CppEmitter &, func::FuncOp)]. *)
Definition printOperation_FuncOp (name : string) (resultTypes : list Type_)
    (blocks : list Block) : M LogicalResult :=
  declareAtTop ← shouldDeclareVariablesAtTop;
  if negb declareAtTop && bool_decide (1 < length blocks)
  then emitError "with multiple blocks needs variables declared at top"
  else printFunctionDefinition name resultTypes blocks.
End NestedPrinters.

(** [LogicalResult CppEmitter::emitOperation(Operation &op,
    bool trailingSemicolon)]. *)
Fixpoint emitOperation (op : Operation) (trailingSemicolon : bool)
  : M LogicalResult :=
  match op with
  | ModuleOp body => printOperation_ModuleOp emitOperation body
  | cf_BranchOp operands successor =>
      printOperation_BranchOp operands successor
  | cf_CondBranchOp condition trueOperands falseOperands trueDest falseDest =>
      printOperation_CondBranchOp condition trueOperands falseOperands
        trueDest falseDest
  | emitc_AddOp _ lhs rhs => printBinaryOperation (getResults op) lhs rhs "+"
  | emitc_ApplyOp applicableOperator result operand =>
      printOperation_ApplyOp applicableOperator result operand
  | emitc_AssignOp var value => printOperation_AssignOp var value
  | emitc_CallOp callee args templateArgs results operands =>
      printOperation_emitc_CallOp callee args templateArgs results operands
  | emitc_CastOp result operand => printOperation_CastOp result operand
  | emitc_CmpOp predicate _ lhs rhs =>
      printBinaryOperation (getResults op) lhs rhs (cmpOperator predicate)
  | emitc_ConstantOp result value => printConstantOp result value
  | emitc_DivOp _ lhs rhs => printBinaryOperation (getResults op) lhs rhs "/"
  | emitc_ForOp lowerBound upperBound step inductionVar region =>
      printOperation_ForOp emitOperation lowerBound upperBound step
        inductionVar region
  | emitc_IfOp condition thenRegion elseRegion =>
      printOperation_IfOp emitOperation condition thenRegion elseRegion
  | emitc_IncludeOp include isStandardInclude =>
      printOperation_IncludeOp include isStandardInclude
  | emitc_MulOp _ lhs rhs => printBinaryOperation (getResults op) lhs rhs "*"
  | emitc_RemOp _ lhs rhs => printBinaryOperation (getResults op) lhs rhs "%"
  | emitc_SubOp _ lhs rhs => printBinaryOperation (getResults op) lhs rhs "-"
  | emitc_VariableOp result value => printConstantOp result value
  | func_CallOp callee results operands =>
      printOperation_func_CallOp callee results operands
  | func_ConstantOp result value => printConstantOp result value
  | func_FuncOp name resultTypes blocks =>
      printOperation_FuncOp emitOperation name resultTypes blocks
  | func_ReturnOp operands attrs => printOperation_ReturnOp operands attrs
  | arith_ConstantOp result value => printConstantOp result value
  | emitc_LiteralOp _ _ => ret (success true)
  | OtherOp _ _ _ => emitError "unable to find printer for op"
  end >>?
  (if isLiteralOp op then ret (success true)
   else
     write (if trailingSemicolon then ";" +:+ nl else nl);;
     ret (success true)).

(** [LogicalResult emitc::translateToCpp(Operation *op, raw_ostream &os,
    bool declareVariablesAtTop)]: the result together with the emitter as it
    is when the translation returns. *)
Definition translateToCpp (op : Operation) (os : list StreamOp)
    (declareVariablesAtTop : bool) : option (LogicalResult * CppEmitter) :=
  emitOperation op false (CppEmitter_new os declareVariablesAtTop).

(** ** 6. Vocabulary of the statements *)

(** The emitter after more stream operations. *)
Definition emitted (st : CppEmitter) (ops : list StreamOp) : CppEmitter :=
  mkCppEmitter (os st ++ ops) (declareVariablesAtTop st) (valueMapper st)
    (blockMapper st) (valueInScopeCount st) (labelInScopeCount st)
    (diagnostics st).

(** The emitter after one more diagnostic. *)
Definition diagnosed (st : CppEmitter) (msg : string) : CppEmitter :=
  mkCppEmitter (os st) (declareVariablesAtTop st) (valueMapper st)
    (blockMapper st) (valueInScopeCount st) (labelInScopeCount st)
    (diagnostics st ++ [msg]).

(** The casts [printFloat] puts before the digits of a finite value. *)
Definition widthCast (sem : Semantics) : list StreamOp :=
  match sem with
  | S_IEEEsingle => [OsWrite "(float)"]
  | S_IEEEdouble => [OsWrite "(double)"]
  | _ => []
  end.

(** The emitter after printing: more stream operations and more
    diagnostics, the name tables and counters as they were. *)
Definition printed (st : CppEmitter) (ops : list StreamOp)
    (msgs : list string) : CppEmitter :=
  mkCppEmitter (os st ++ ops) (declareVariablesAtTop st) (valueMapper st)
    (blockMapper st) (valueInScopeCount st) (labelInScopeCount st)
    (diagnostics st ++ msgs).

(** A computation that always returns and only prints. *)
Definition printer {A} (m : M A) : Prop :=
  forall st, exists a ops msgs, m st = Some (a, printed st ops msgs).

(** A relation between the emitter before and after a computation. *)
Definition guarantees (G : CppEmitter -> CppEmitter -> Prop) {A} (m : M A)
  : Prop :=
  forall st a st', m st = Some (a, st') -> G st st'.

(** The emitter writing to a stream that already holds [pre]. *)
Definition prepend (pre : list StreamOp) (st : CppEmitter) : CppEmitter :=
  mkCppEmitter (pre ++ os st) (declareVariablesAtTop st) (valueMapper st)
    (blockMapper st) (valueInScopeCount st) (labelInScopeCount st)
    (diagnostics st).

(** A computation that never looks at what the stream already holds. *)
Definition osFrame {A} (m : M A) : Prop :=
  forall pre st,
    m (prepend pre st) =
    (fun p : A * CppEmitter => (p.1, prepend pre p.2)) <$> m st.

(** The open scopes of a table are kept: the enclosing scopes are
    untouched and every key with a name still has that name. *)
Definition scopesKept `{Countable K} (t t' : list (gmap K string)) : Prop :=
  match t, t' with
  | [], [] => True
  | _ :: outer, _ :: outer' =>
      outer' = outer
      /\ forall key name, ScopedHashTable_begin key t = Some name ->
                          ScopedHashTable_begin key t' = Some name
  | _, _ => False
  end.

(** The counters are kept: the enclosing counters are untouched and the
    current counter has not decreased. *)
Definition countersKept (c c' : list Z) : Prop :=
  match c, c' with
  | [], [] => True
  | top :: below, top' :: below' => (top <= top')%Z /\ below' = below
  | _, _ => False
  end.

(** What a computation running inside the current scope does to the name
    tables and counters. *)
Definition nested (st st' : CppEmitter) : Prop :=
  scopesKept (valueMapper st) (valueMapper st')
  /\ scopesKept (blockMapper st) (blockMapper st')
  /\ countersKept (valueInScopeCount st) (valueInScopeCount st')
  /\ countersKept (labelInScopeCount st) (labelInScopeCount st').

(** The name tables and counters are exactly what they were. *)
Definition restored (st st' : CppEmitter) : Prop :=
  valueMapper st' = valueMapper st
  /\ blockMapper st' = blockMapper st
  /\ valueInScopeCount st' = valueInScopeCount st
  /\ labelInScopeCount st' = labelInScopeCount st.

(** The names in the open scopes of a table against its counter stack: the
    names of a scope are the prefix followed by a number above the counter
    of the enclosing scope and up to the scope's own counter, and no two
    keys of a scope share a name. *)
Fixpoint scopesConsistent `{Countable K} (prefix : string)
    (scopes : list (gmap K string)) (counters : list Z) : Prop :=
  match scopes, counters with
  | [], [_] => True
  | scope :: outer, top :: below =>
      match below with
      | base :: _ =>
          (base <= top)%Z
          /\ (forall key name, scope !! key = Some name ->
                exists n, name = prefix +:+ pretty n /\ (base < n <= top)%Z)
          /\ (forall key1 key2 name,
                scope !! key1 = Some name -> scope !! key2 = Some name ->
                key1 = key2)
          /\ scopesConsistent prefix outer below
      | [] => False
      end
  | _, _ => False
  end.

Definition namesConsistent (st : CppEmitter) : Prop :=
  scopesConsistent "v" (valueMapper st) (valueInScopeCount st)
  /\ scopesConsistent "label" (blockMapper st) (labelInScopeCount st).

(** No value defined by a literal operation has a name in the table. *)
Definition noLiteralBound (st : CppEmitter) : Prop :=
  forall val, is_Some (definingLiteral val) ->
    ScopedHashTable_begin val (valueMapper st) = None.

(** A property of the emitter that a computation keeps. *)
Definition preserves (P : CppEmitter -> Prop) {A} (m : M A) : Prop :=
  guarantees (fun st st' => P st -> P st') m.

(** A property of computations that holds of the methods of [CppEmitter]
    touching its members and is kept by sequencing. *)
Record EmitterClosed (Phi : forall A : Type, M A -> Prop) : Prop := {
  closed_ret : forall A (a : A), Phi A (ret a);
  closed_bind : forall A B (m : M A) (f : A -> M B),
    Phi A m -> (forall a, Phi B (f a)) -> Phi B (m ≫= f);
  closed_abort : forall A, Phi A abort;
  closed_streamOp : forall o, Phi unit (streamOp o);
  closed_emitError : forall msg, Phi LogicalResult (emitError msg);
  closed_shouldDeclareVariablesAtTop : Phi bool shouldDeclareVariablesAtTop;
  closed_hasValueInScope : forall val, Phi bool (hasValueInScope val);
  closed_hasBlockLabel : forall block, Phi bool (hasBlockLabel block);
  closed_getOrCreateName : forall val, Phi string (getOrCreateName val);
  closed_getOrCreateLabel : forall block, Phi string (getOrCreateLabel block);
  closed_withScope : forall A (m : M A), Phi A m -> Phi A (withScope m)
}.

(** *** Spellings

    What the printers write, as text: the pure functions the statements of
    section 18 compare the printers with. *)

(** The elements of a list separated by [", "]. *)
Fixpoint commaJoin (l : list string) : string :=
  match l with
  | [] => EmptyString
  | [x] => x
  | x :: rest => x +:+ ", " +:+ commaJoin rest
  end.

(** The text [emitType] writes for a type it can print. *)
Fixpoint typeSpelling (type : Type_) : option string :=
  match type with
  | IntegerType width signedness =>
      if (width =? 1)%N then Some "bool"
      else if ((width =? 8) || (width =? 16) || (width =? 32)
               || (width =? 64))%N
      then Some ((if shouldMapToUnsigned signedness then "uint" else "int")
                 +:+ pretty width +:+ "_t")
      else None
  | FloatType width =>
      if (width =? 32)%N then Some "float"
      else if (width =? 64)%N then Some "double"
      else None
  | IndexType => Some "size_t"
  | RankedTensorType shape elementType =>
      if hasStaticShape shape then
        element ← typeSpelling elementType;
        Some ("Tensor<" +:+ element
              +:+ foldr (fun dimSize rest => ", " +:+ pretty dimSize +:+ rest)
                    ">" shape)
      else None
  | UnrankedTensorType _ => None
  | TupleType types =>
      elements ← mapM typeSpelling types;
      Some ("std::tuple<" +:+ commaJoin elements +:+ ">")
  | OpaqueType value => Some value
  | PointerType pointee =>
      spelling ← typeSpelling pointee; Some (spelling +:+ "*")
  | OtherType _ => None
  end.

(** A printer against its spelling: where there is one, the printer
    succeeds, writes exactly that text and reports nothing; where there is
    none, it fails and reports one diagnostic, one of [diags].  Either way
    the name tables and counters are as before. *)
Definition prints (diags : list string) (m : M LogicalResult)
    (spelling : option string) (st : CppEmitter) : Prop :=
  match spelling with
  | Some text =>
      exists ops, m st = Some (Success, printed st ops [])
                  /\ streamText ops = text
  | None =>
      exists ops msg,
        msg ∈ diags /\ m st = Some (Failure, printed st ops [msg])
  end.

(** The diagnostics of [emitType]. *)
Definition typeDiagnostics : list string :=
  ["cannot emit integer type "; "cannot emit float type ";
   "cannot emit unranked tensor type";
   "cannot emit tensor type with non static shape"; "cannot emit type "].

(** The diagnostics of [emitAttribute]. *)
Definition attributeDiagnostics : list string :=
  "attribute has more than 1 nested reference" :: "cannot emit attribute: "
  :: typeDiagnostics.

(** A step that cannot fail against its text: it writes exactly that text
    and leaves everything else as it was. *)
Definition writes (m : M unit) (text : string) (st : CppEmitter) : Prop :=
  exists ops, m st = Some (tt, printed st ops []) /\ streamText ops = text.

(** The text [printInt] writes. *)
Definition intSpelling (val : APInt) (isUnsigned : bool) : string :=
  if (getBitWidth val =? 1)%N
  then (if getBoolValue val then "true" else "false")
  else APInt_toString val (negb isUnsigned).

(** The text [printFloat] writes. *)
Definition floatSpelling (val : APFloat) : string :=
  match category val with
  | fcNormal | fcZero =>
      match getSemantics val with
      | S_IEEEsingle => "(float)"
      | S_IEEEdouble => "(double)"
      | _ => EmptyString
      end +:+ toString val 0%N 0%N false
  | fcNaN => "NAN"
  | fcInfinity =>
      (if isNegative val then "-" else EmptyString) +:+ "INFINITY"
  end.

(** The attribute passes the casts of [emitAttribute]: it is not a dense
    integer attribute of a type that is no tensor type. *)
Definition castsToTensor (attr : Attribute) : bool :=
  match attr with
  | DenseIntElementsAttr type _ =>
      bool_decide (is_Some (castTensorElementType type))
  | _ => true
  end.

(** The text [emitAttribute] writes for an attribute it can print. *)
Definition attributeSpelling (attr : Attribute) : option string :=
  match attr with
  | FloatAttr value => Some (floatSpelling value)
  | DenseFPElementsAttr values =>
      Some ("{" +:+ commaJoin (map floatSpelling values) +:+ "}")
  | IntegerAttr (IntegerType _ signedness) value =>
      Some (intSpelling value (shouldMapToUnsigned signedness))
  | IntegerAttr IndexType value => Some (intSpelling value false)
  | DenseIntElementsAttr type values =>
      match castTensorElementType type with
      | Some (IntegerType _ signedness) =>
          Some ("{"
                +:+ commaJoin
                      (map (fun val =>
                              intSpelling val (shouldMapToUnsigned signedness))
                         values)
                +:+ "}")
      | Some IndexType =>
          Some ("{"
                +:+ commaJoin (map (fun val => intSpelling val false) values)
                +:+ "}")
      | _ => None
      end
  | OpaqueAttr value => Some value
  | SymbolRefAttr rootReference nestedReferences =>
      if bool_decide (1 < length nestedReferences) then None
      else Some rootReference
  | TypeAttr value => typeSpelling value
  | _ => None
  end.

(** The name [getOrCreateName] returns for a value without creating one:
    the text of its literal, or the name it has in the table. *)
Definition visibleName (vm : list (gmap Value string)) (val : Value)
  : option string :=
  match definingLiteral val with
  | Some literal => Some literal
  | None => ScopedHashTable_begin val vm
  end.

(** The labels are kept: the table of block labels and its counter are
    what they were. *)
Definition labelsKept (st st' : CppEmitter) : Prop :=
  blockMapper st' = blockMapper st
  /\ labelInScopeCount st' = labelInScopeCount st.

(** The output is kept: the stream and the diagnostics have only been
    appended to, and the declaration policy is what it was. *)
Definition outputKept (st st' : CppEmitter) : Prop :=
  (exists ops, os st' = os st ++ ops)
  /\ (exists msgs, diagnostics st' = diagnostics st ++ msgs)
  /\ declareVariablesAtTop st' = declareVariablesAtTop st.

(** A computation that reports no diagnostic. *)
Definition silent {A} (m : M A) : Prop :=
  guarantees (fun st st' => diagnostics st' = diagnostics st) m.

(** A computation that reports no diagnostic unless it fails. *)
Definition quiet (m : M LogicalResult) : Prop :=
  forall st r st',
    m st = Some (r, st') -> r = Success -> diagnostics st' = diagnostics st.

(** The text [emitOperandsAndAttributes] writes for a named attribute: none
    for an excluded one, else the name in a comment before the value. *)
Definition namedAttributeSpelling (exclude : list string)
    (attr : NamedAttribute) : option string :=
  if is_contained exclude (attrName attr) then Some EmptyString
  else (fun text => "/* " +:+ attrName attr +:+ " */" +:+ text)
         <$> attributeSpelling (attrValue attr).

(** The text [emitOperandsAndAttributes] writes: the operands, a separator
    when there are operands and an attribute that is not excluded, the
    attributes. *)
Definition operandsAndAttributesSpelling (vm : list (gmap Value string))
    (operands : list Value) (attrs : list NamedAttribute)
    (exclude : list string) : option string :=
  operandsText ← commaJoin <$> mapM (visibleName vm) operands;
  attrsText ← commaJoin <$> mapM (namedAttributeSpelling exclude) attrs;
  Some (operandsText
        +:+ (if bool_decide (0 < length operands)
                && existsb
                     (fun attr => negb (is_contained exclude (attrName attr)))
                     attrs
             then ", " else EmptyString)
        +:+ attrsText).

(** The attributes that [emitOperandsAndAttributes] hands to
    [emitAttribute], those that are not excluded, pass its casts. *)
Definition namedAttributesCast (exclude : list string)
    (attrs : list NamedAttribute) : bool :=
  forallb (fun attr => is_contained exclude (attrName attr)
                       || castsToTensor (attrValue attr)) attrs.

(** The arguments of a call, if it has any, pass the casts of
    [emitAttribute]. *)
Definition argumentsCast (attrs : option (list Attribute)) : bool :=
  match attrs with
  | Some arguments => forallb castsToTensor arguments
  | None => true
  end.

(** The diagnostics of [emitOperandsAndAttributes]. *)
Definition operandDiagnostics : list string :=
  "operand value not in scope" :: attributeDiagnostics.

(** A step that only names values and writes, inside a scope: it appends
    [ops] to the stream, reports nothing, keeps the policy and the outer
    scopes. *)
Definition namesAndWrites (st st' : CppEmitter) (ops : list StreamOp)
    (outer : list (gmap Value string)) (below : list Z) : Prop :=
  os st' = os st ++ ops
  /\ diagnostics st' = diagnostics st
  /\ declareVariablesAtTop st' = declareVariablesAtTop st
  /\ nested st st'
  /\ exists scope' top',
       valueMapper st' = scope' :: outer
       /\ valueInScopeCount st' = top' :: below.

(** The text [emitArgs] writes for an argument of a call: for an index, the
    visible name of the operand it selects when that operand has a name in
    scope; for any other attribute, its spelling. *)
Definition argSpelling (vm : list (gmap Value string))
    (operands : list Value) (attr : Attribute) : option string :=
  match attr with
  | IntegerAttr IndexType t =>
      let idx := getSExtValue t in
      if ((idx <? 0) || (Z.of_nat (length operands) <=? idx))%Z then None
      else
        operand ← operands !! Z.to_nat idx;
        if ScopedHashTable_count operand vm then visibleName vm operand
        else None
  | _ => attributeSpelling attr
  end.

(** The diagnostics of [emitArgs] for a call with these operands. *)
Definition argDiagnostics (operands : list Value) : list string :=
  "invalid operand index"
  :: ((fun i : nat =>
         "operand " +:+ pretty (Z.of_nat i)
         +:+ "'s value not defined in scope")
        <$> seq 0 (length operands))
  ++ operandDiagnostics.

(** The text of a call that assigns no result: the callee, the template
    arguments in angle brackets if there are any, and in parentheses the
    arguments, or the operands when no arguments are given. *)
Definition callSpelling (vm : list (gmap Value string)) (callee : string)
    (args templateArgs : option (list Attribute)) (operands : list Value)
  : option string :=
  template ← match templateArgs with
             | Some attrs =>
                 (fun text => "<" +:+ text +:+ ">")
                   <$> (commaJoin <$> mapM (argSpelling vm operands) attrs)
             | None => Some EmptyString
             end;
  arguments ← match args with
              | Some attrs => commaJoin <$> mapM (argSpelling vm operands) attrs
              | None => commaJoin <$> mapM (visibleName vm) operands
              end;
  Some (callee +:+ template +:+ "(" +:+ arguments +:+ ")").

(** The operations on which the emitter relies for a result: every region
    of a [for] or an [if] among them has at least one operation (its
    terminator), as the verifier of the dialect has it, and no attribute
    that a call, a return or a constant among them hands to [emitAttribute]
    is a dense integer attribute of a vector type, which the verifier
    admits and the cast of [emitAttribute] does not. *)
Fixpoint emittable (op : Operation) : bool :=
  let nonEmpty (region : list Operation) :=
    match region with [] => false | _ => true end in
  match op with
  | ModuleOp body => forallb emittable body
  | emitc_ForOp _ _ _ _ region =>
      nonEmpty region && forallb emittable region
  | emitc_IfOp _ thenRegion elseRegion =>
      nonEmpty thenRegion && forallb emittable thenRegion
      && match elseRegion with
         | Some ops => nonEmpty ops && forallb emittable ops
         | None => true
         end
  | func_FuncOp _ _ blocks =>
      forallb (fun block : Block =>
                 forallb emittable (getOperations block)) blocks
  | emitc_CallOp _ args templateArgs _ _ =>
      argumentsCast args && argumentsCast templateArgs
  | func_ReturnOp _ attrs => namedAttributesCast [] attrs
  | emitc_ConstantOp _ value | emitc_VariableOp _ value
  | func_ConstantOp _ value | arith_ConstantOp _ value =>
      castsToTensor value
  | _ => true
  end.

(** The counter stacks have a top. *)
Definition counted (st : CppEmitter) : Prop :=
  valueInScopeCount st <> [] /\ labelInScopeCount st <> [].

(** The emitter is inside a scope. *)
Definition inScope (st : CppEmitter) : Prop :=
  valueMapper st <> [] /\ blockMapper st <> [] /\ counted st.

(** A computation that returns whenever it starts inside a scope: it
    neither fails an assertion nor runs into undefined behaviour. *)
Definition returns {A} (m : M A) : Prop :=
  forall st, inScope st -> is_Some (m st).

(** A computation that leaves the enclosing scopes and counters alone. *)
Definition keepsScopes (A : Type) (m : M A) : Prop := guarantees nested m.

(** *** Labels of a function body *)

(** The part of the function printer in front of the label pass: the
    signature and, under the declare-at-top policy, the declarations of the
    results. *)
Definition functionPrologue (name : string) (resultTypes : list Type_)
    (blocks : list Block) : M LogicalResult :=
  emitFunctionSignature name resultTypes blocks >>?
  (indent;; declareVariablesOfFunction name resultTypes blocks).

(** Every block of the body has a label. *)
Definition allLabelled (body : list Block) (st : CppEmitter) : bool :=
  forallb (fun block : Block =>
             ScopedHashTable_count (blockId block) (blockMapper st)) body.

(** [emitOperation], started only where every block of the body has its
    label: anywhere else it has no result. *)
Definition emitOperationLabelled (body : list Block) (op : Operation)
    (trailingSemicolon : bool) : M LogicalResult := fun st =>
  if allLabelled body st then emitOperation op trailingSemicolon st
  else None.

(** The label line of a block as the specification has it: the label of
    the block and a colon, past the indentation, for a block with a
    predecessor, and nothing for a block without; it never fails, and has
    no result for a block without label. *)
Definition labelLine (block : Block) : M LogicalResult := fun st =>
  match ScopedHashTable_begin (blockId block) (blockMapper st) with
  | Some label =>
      Some (Success,
            if hasNoPredecessors block then st
            else emitted st [OsDirect label; OsDirect (":" +:+ nl)])
  | None => None
  end.

(** The block loop as the specification has it: for each block its label
    line, then its operations, each started with every block of the body
    labelled. *)
Definition emitLabelledBlocks (body blocks : list Block) : M LogicalResult :=
  forEachWithError (fun block : Block =>
    labelLine block >>?
    forEachWithError (fun op =>
      emitOperationLabelled body op (negb (isBracedOrLiteral op)))
      (getOperations block))
    blocks.

(** ** 7. Running the monad *)

Lemma run_bind {A B} (m : M A) (f : A -> M B) st :
  (m ≫= f) st = match m st with Some (a, st') => f a st' | None => None end.
Proof. reflexivity. Qed.

Lemma run_ret {A} (a : A) st : ret a st = Some (a, st).
Proof. reflexivity. Qed.

Lemma run_andThen m k st :
  (m >>? k) st =
  match m st with
  | Some (Success, st') => k st'
  | Some (Failure, st') => Some (Failure, st')
  | None => None
  end.
Proof.
  unfold andThen. rewrite run_bind.
  destruct (m st) as [[[] ?]|]; reflexivity.
Qed.

Lemma run_write s st : write s st = Some (tt, emitted st [OsWrite s]).
Proof. reflexivity. Qed.

Lemma run_writeDirect s st :
  writeDirect s st = Some (tt, emitted st [OsDirect s]).
Proof. reflexivity. Qed.

Lemma run_emitError msg st :
  emitError msg st = Some (Failure, diagnosed st msg).
Proof. reflexivity. Qed.

Lemma emitted_nil st : emitted st [] = st.
Proof. destruct st. unfold emitted. simpl. by rewrite app_nil_r. Qed.

Lemma emitted_app st a b : emitted (emitted st a) b = emitted st (a ++ b).
Proof. unfold emitted. simpl. by rewrite app_assoc. Qed.

Lemma string_app_assoc (s1 s2 s3 : string) :
  (s1 +:+ s2) +:+ s3 = s1 +:+ (s2 +:+ s3).
Proof.
  induction s1 as [|c s1 IH]; [reflexivity|].
  change (String c ((s1 +:+ s2) +:+ s3) = String c (s1 +:+ (s2 +:+ s3))).
  by rewrite IH.
Qed.

Lemma streamText_app a b : streamText (a ++ b) = streamText a +:+ streamText b.
Proof.
  induction a as [|o a IH]; [reflexivity|].
  destruct o; simpl; rewrite IH; try reflexivity;
    symmetry; apply string_app_assoc.
Qed.

(** Evaluate a straight-line monadic program on a symbolic state. *)
Ltac run :=
  repeat first
    [ rewrite run_andThen | rewrite run_bind | rewrite run_ret
    | rewrite run_write | rewrite run_writeDirect | rewrite run_emitError
    | rewrite emitted_app | progress simpl app ].

(** ** 8. The type printer *)

(** C6: a 1-bit integer prints [bool]; a width of 8, 16, 32 or 64 prints
    [uint<W>_t] exactly when the type is marked unsigned and [int<W>_t] when
    it is signed or signless; every other width fails with the diagnostic
    for integer types and prints nothing. *)
Theorem emitType_IntegerType (width : N) (signedness : SignednessSemantics)
    (st : CppEmitter) :
  emitType (IntegerType width signedness) st =
  if decide (width = 1%N)
  then Some (Success, emitted st [OsWrite "bool"])
  else if decide (width ∈ [8; 16; 32; 64]%N)
  then Some (Success,
             emitted st
               [OsWrite match signedness with
                        | Unsigned => "uint"
                        | Signed | Signless => "int"
                        end;
                OsWrite (pretty width); OsWrite "_t"])
  else Some (Failure, diagnosed st "cannot emit integer type ").
Proof.
  cbn [emitType].
  destruct (decide (width = 1%N)) as [->|H1]; [reflexivity|].
  rewrite (proj2 (N.eqb_neq _ _) H1).
  destruct (decide (width ∈ [8; 16; 32; 64]%N)) as [Hin|Hout].
  - assert (((width =? 8) || (width =? 16) || (width =? 32)
             || (width =? 64))%N = true) as ->.
    { set_unfold. destruct Hin as [->|[->|[->|[->|[]]]]]; reflexivity. }
    destruct signedness; simpl; run; reflexivity.
  - assert (((width =? 8) || (width =? 16) || (width =? 32)
             || (width =? 64))%N = false) as ->; [|reflexivity].
    rewrite !orb_false_iff, !N.eqb_neq. set_solver.
Qed.

Lemma printed_nil st : printed st [] [] = st.
Proof. destruct st. unfold printed. simpl. by rewrite !app_nil_r. Qed.

Lemma printed_printed st o1 m1 o2 m2 :
  printed (printed st o1 m1) o2 m2 = printed st (o1 ++ o2) (m1 ++ m2).
Proof. unfold printed. simpl. by rewrite !(assoc_L (++)). Qed.

Lemma emitted_printed st ops : emitted st ops = printed st ops [].
Proof. unfold emitted, printed. by rewrite app_nil_r. Qed.

Lemma diagnosed_printed st msg : diagnosed st msg = printed st [] [msg].
Proof. unfold diagnosed, printed. by rewrite app_nil_r. Qed.

Lemma printer_ret {A} (a : A) : printer (ret a).
Proof. intros st. exists a, [], []. by rewrite printed_nil. Qed.

Lemma printer_bind {A B} (m : M A) (f : A -> M B) :
  printer m -> (forall a, printer (f a)) -> printer (m ≫= f).
Proof.
  intros Hm Hf st. destruct (Hm st) as (a & o1 & m1 & E1).
  destruct (Hf a (printed st o1 m1)) as (b & o2 & m2 & E2).
  exists b, (o1 ++ o2), (m1 ++ m2).
  by rewrite run_bind, E1, E2, printed_printed.
Qed.

Lemma printer_andThen m k : printer m -> printer k -> printer (m >>? k).
Proof.
  intros Hm Hk. apply printer_bind; [done|].
  intros []; [done|apply printer_ret].
Qed.

Lemma printer_streamOp o : printer (streamOp o).
Proof.
  intros st. exists tt, [o], []. unfold printed. by rewrite app_nil_r.
Qed.

Lemma printer_emitError msg : printer (emitError msg).
Proof.
  intros st. exists Failure, [], [msg]. unfold printed. by rewrite app_nil_r.
Qed.

Lemma printer_forEach {A} (f : A -> M unit) l :
  (forall x, printer (f x)) -> printer (forEach f l).
Proof.
  intros Hf. induction l as [|x l IH]; simpl.
  - apply printer_ret.
  - apply printer_bind; auto.
Qed.

Lemma printer_interleaveRest {A} (eachFn : A -> M LogicalResult) between l :
  list_all A (fun x => printer (eachFn x)) l -> printer between ->
  printer (interleaveRestWithError eachFn between l).
Proof.
  intros Hl Hb. induction Hl as [|x Hx l Hl IH]; simpl.
  - apply printer_ret.
  - apply printer_bind; [done|]. intros _. by apply printer_andThen.
Qed.

Lemma printer_interleaveCommaWithError {A} (eachFn : A -> M LogicalResult) l :
  list_all A (fun x => printer (eachFn x)) l ->
  printer (interleaveCommaWithError l eachFn).
Proof.
  intros Hl. destruct Hl as [|x Hx l Hl]; simpl.
  - apply printer_ret.
  - apply printer_andThen; [done|].
    apply printer_interleaveRest; [done|apply printer_streamOp].
Qed.

Create HintDb printer.
#[global] Hint Resolve printer_ret printer_streamOp printer_emitError
  printer_andThen : printer.

(** The type printer always returns and only prints. *)
Lemma printer_emitType type : printer (emitType type).
Proof.
  induction type as [width s|width| |shape elt IH|elt IH|types IH|v|p IH|m];
    cbn [emitType]; unfold write.
  - repeat case_match; eauto 10 using @printer_bind with printer.
  - repeat case_match; eauto 10 using @printer_bind with printer.
  - eauto 10 using @printer_bind with printer.
  - case_match; [auto with printer|].
    apply printer_bind; [auto with printer|]. intros _.
    apply printer_andThen; [done|].
    apply printer_bind.
    + apply printer_forEach. intros d.
      eauto 10 using @printer_bind with printer.
    + eauto 10 using @printer_bind with printer.
  - auto with printer.
  - unfold emitTupleTypeWith, write.
    apply printer_bind; [auto with printer|]. intros _.
    apply printer_andThen.
    + by apply printer_interleaveCommaWithError.
    + eauto 10 using @printer_bind with printer.
  - eauto 10 using @printer_bind with printer.
  - apply printer_andThen; [done|].
    eauto 10 using @printer_bind with printer.
  - auto with printer.
Qed.

Lemma list_all_intro {A} (P : A -> Prop) l : (forall x, P x) -> list_all A P l.
Proof. intros HP. induction l; constructor; auto. Qed.


(** ** 9. The attribute printer *)

(** C7: a finite value prints the digits [toString] gives for precision 0,
    padding 0 and no truncation of zeros, after the cast [(float)] or
    [(double)] when its semantics are IEEE single or double; a NaN prints
    exactly [NAN]; an infinity prints [INFINITY], after [-] exactly when it
    is negative; printing a float attribute always succeeds. *)
Theorem emitAttribute_FloatAttr (val : APFloat) (st : CppEmitter) :
  emitAttribute (FloatAttr val) st =
  Some (Success,
        emitted st
          match category val with
          | fcNormal | fcZero =>
              widthCast (getSemantics val)
              ++ [OsWrite (toString val 0%N 0%N false)]
          | fcNaN => [OsWrite "NAN"]
          | fcInfinity =>
              (if isNegative val then [OsWrite "-"] else [])
              ++ [OsWrite "INFINITY"]
          end).
Proof.
  unfold emitAttribute, printFloat, isFinite, isNaN, isInfinity, widthCast.
  destruct (category val); simpl.
  - destruct (isNegative val); by run.
  - by run.
  - destruct (getSemantics val); run; by rewrite ?emitted_nil.
  - destruct (getSemantics val); run; by rewrite ?emitted_nil.
Qed.

(** ** 10. An induction principle for the emitter

    Every computation of the emitter is put together from the methods of
    [CppEmitter] that touch its members: stream operations, diagnostics,
    the policy flag, the two lookups, the two name allocators and the scope
    guard.  A property of computations that holds of these and is kept by
    sequencing therefore holds of [emitOperation]. *)

Lemma list_all_impl {A} (P Q : A -> Prop) l :
  (forall x, P x -> Q x) -> list_all A P l -> list_all A Q l.
Proof. intros HPQ Hl. induction Hl; constructor; auto. Qed.

Section EmitterInduction.
Variable Phi : forall A : Type, M A -> Prop.
Hypothesis HPhi : EmitterClosed Phi.

Lemma Phi_ret A (a : A) : Phi A (ret a).
Proof using All. apply (closed_ret Phi HPhi). Qed.

Lemma Phi_bind A B (m : M A) (f : A -> M B) :
  Phi A m -> (forall a, Phi B (f a)) -> Phi B (m ≫= f).
Proof using All. apply (closed_bind Phi HPhi). Qed.

Lemma Phi_abort A : Phi A abort.
Proof using All. apply (closed_abort Phi HPhi). Qed.

Lemma Phi_streamOp o : Phi unit (streamOp o).
Proof using All. apply (closed_streamOp Phi HPhi). Qed.

Lemma Phi_emitError msg : Phi LogicalResult (emitError msg).
Proof using All. apply (closed_emitError Phi HPhi). Qed.

Lemma Phi_shouldDeclareVariablesAtTop : Phi bool shouldDeclareVariablesAtTop.
Proof using All. apply (closed_shouldDeclareVariablesAtTop Phi HPhi). Qed.

Lemma Phi_hasValueInScope val : Phi bool (hasValueInScope val).
Proof using All. apply (closed_hasValueInScope Phi HPhi). Qed.

Lemma Phi_hasBlockLabel block : Phi bool (hasBlockLabel block).
Proof using All. apply (closed_hasBlockLabel Phi HPhi). Qed.

Lemma Phi_getOrCreateName val : Phi string (getOrCreateName val).
Proof using All. apply (closed_getOrCreateName Phi HPhi). Qed.

Lemma Phi_getOrCreateLabel block : Phi string (getOrCreateLabel block).
Proof using All. apply (closed_getOrCreateLabel Phi HPhi). Qed.

Lemma Phi_withScope A (m : M A) : Phi A m -> Phi A (withScope m).
Proof using All. apply (closed_withScope Phi HPhi). Qed.

Lemma Phi_andThen m k :
  Phi _ m -> Phi _ k -> Phi _ (m >>? k).
Proof using All.
  intros Hm Hk. apply Phi_bind; [done|]. intros []; [done|apply Phi_ret].
Qed.

Lemma Phi_forEach {A} (f : A -> M unit) l :
  (forall x, Phi _ (f x)) -> Phi _ (forEach f l).
Proof using All.
  intros Hf. induction l; simpl; [apply Phi_ret|apply Phi_bind; auto].
Qed.

Lemma Phi_forEachWithError {A} (f : A -> M LogicalResult) l :
  list_all A (fun x => Phi _ (f x)) l -> Phi _ (forEachWithError f l).
Proof using All.
  intros Hl. induction Hl; simpl; [apply Phi_ret|by apply Phi_andThen].
Qed.

Lemma Phi_forAllExceptLast {A} (f : A -> M LogicalResult) l :
  list_all A (fun x => Phi _ (f x)) l -> Phi _ (forAllExceptLast f l).
Proof using All.
  intros Hl. induction Hl as [|x Hx l Hl IH]; simpl; [apply Phi_abort|].
  destruct l; [apply Phi_ret|by apply Phi_andThen].
Qed.

Lemma Phi_interleaveCommaWithError {A} (eachFn : A -> M LogicalResult) l :
  list_all A (fun x => Phi _ (eachFn x)) l ->
  Phi _ (interleaveCommaWithError l eachFn).
Proof using All.
  intros Hl. destruct Hl as [|x Hx l Hl]; simpl; [apply Phi_ret|].
  apply Phi_andThen; [done|].
  induction Hl; simpl; [apply Phi_ret|].
  apply Phi_bind; [apply Phi_streamOp|]. intros _. by apply Phi_andThen.
Qed.

Lemma Phi_interleaveComma {A} (eachFn : A -> M unit) l :
  (forall x, Phi _ (eachFn x)) -> Phi _ (interleaveComma l eachFn).
Proof using All.
  intros Hf. destruct l; simpl; [apply Phi_ret|].
  apply Phi_bind; [done|]. intros _. apply Phi_forEach. intros y.
  apply Phi_bind; [apply Phi_streamOp|done].
Qed.

(** Take a computation apart along its sequencing and its case
    distinctions. *)
Ltac phi_step :=
  lazymatch goal with
  | H : Phi _ ?m |- Phi _ ?m => exact H
  | |- Phi _ (ret _) => apply Phi_ret
  | |- Phi _ abort => apply Phi_abort
  | |- Phi _ (streamOp _) => apply Phi_streamOp
  | |- Phi _ (write _) => apply Phi_streamOp
  | |- Phi _ (writeDirect _) => apply Phi_streamOp
  | |- Phi _ indent => apply Phi_streamOp
  | |- Phi _ unindent => apply Phi_streamOp
  | |- Phi _ (emitError _) => apply Phi_emitError
  | |- Phi _ shouldDeclareVariablesAtTop =>
      apply Phi_shouldDeclareVariablesAtTop
  | |- Phi _ (hasValueInScope _) => apply Phi_hasValueInScope
  | |- Phi _ (hasBlockLabel _) => apply Phi_hasBlockLabel
  | |- Phi _ (getOrCreateName _) => apply Phi_getOrCreateName
  | |- Phi _ (getOrCreateLabel _) => apply Phi_getOrCreateLabel
  | |- Phi _ (withScope _) => apply Phi_withScope
  | |- Phi _ (andThen _ _) => apply Phi_andThen
  | |- Phi _ (mbind _ _) => apply Phi_bind; [|intros ?]
  | |- Phi _ (forEach _ _) => apply Phi_forEach; intros ?
  | |- Phi _ (interleaveComma _ _) => apply Phi_interleaveComma; intros ?
  | |- Phi _ (interleaveCommaWithError _ _) =>
      apply Phi_interleaveCommaWithError;
      first [eassumption | apply list_all_intro; intros ?]
  | |- Phi _ (forEachWithError _ _) =>
      apply Phi_forEachWithError;
      first [eassumption | apply list_all_intro; intros ?]
  | |- Phi _ (forAllExceptLast _ _) =>
      apply Phi_forAllExceptLast;
      first [eassumption | apply list_all_intro; intros ?]
  | |- Phi _ (match ?x with _ => _ end) => destruct x
  | |- Phi _ _ => solve [auto 2]
  end.

Ltac phi := repeat phi_step.

Lemma Phi_emitType type : Phi _ (emitType type).
Proof using All.
  induction type as [width s|width| |shape elt IH|elt IH|types IH|v|p IH|m];
    cbn [emitType]; try solve [phi].
  unfold emitTupleTypeWith. phi.
Qed.

Lemma Phi_emitAttribute attr : Phi _ (emitAttribute attr).
Proof using All.
  pose proof Phi_emitType.
  unfold emitAttribute, printFloat, printInt. phi.
Qed.

Lemma Phi_writeName val : Phi _ (writeName val).
Proof using All. unfold writeName. phi. Qed.

Lemma Phi_emitOperands operands : Phi _ (emitOperands operands).
Proof using All.
  pose proof Phi_writeName. unfold emitOperands. phi.
Qed.

Lemma Phi_emitOperandsAndAttributes operands attrs exclude :
  Phi _ (emitOperandsAndAttributes operands attrs exclude).
Proof using All.
  pose proof Phi_emitOperands. pose proof Phi_emitAttribute.
  unfold emitOperandsAndAttributes. phi.
Qed.

Lemma Phi_emitVariableAssignment result :
  Phi _ (emitVariableAssignment result).
Proof using All.
  pose proof Phi_writeName. unfold emitVariableAssignment. phi.
Qed.

Lemma Phi_emitVariableDeclaration result trailingSemicolon :
  Phi _ (emitVariableDeclaration result trailingSemicolon).
Proof using All.
  pose proof Phi_writeName. pose proof Phi_emitType.
  unfold emitVariableDeclaration. phi.
Qed.

Lemma Phi_emitAssignPrefix results : Phi _ (emitAssignPrefix results).
Proof using All.
  pose proof Phi_writeName. pose proof Phi_emitVariableAssignment.
  pose proof Phi_emitVariableDeclaration.
  unfold emitAssignPrefix. phi.
Qed.

Lemma Phi_emitLabel block : Phi _ (emitLabel block).
Proof using All. unfold emitLabel. phi. Qed.

Lemma Phi_printConstantOp result value :
  Phi _ (printConstantOp result value).
Proof using All.
  pose proof Phi_emitVariableAssignment. pose proof Phi_emitAttribute.
  pose proof Phi_emitVariableDeclaration. pose proof Phi_emitAssignPrefix.
  unfold printConstantOp. phi.
Qed.

Lemma Phi_printBinaryOperation results lhs rhs binaryOperator :
  Phi _ (printBinaryOperation results lhs rhs binaryOperator).
Proof using All.
  pose proof Phi_writeName. pose proof Phi_emitAssignPrefix.
  unfold printBinaryOperation. phi.
Qed.

Lemma Phi_assignSuccessorArguments operands arguments :
  Phi _ (assignSuccessorArguments operands arguments).
Proof using All.
  pose proof Phi_writeName. unfold assignSuccessorArguments. phi.
Qed.

Lemma Phi_emitArgs operands attr : Phi _ (emitArgs operands attr).
Proof using All.
  pose proof Phi_writeName. pose proof Phi_emitAttribute.
  unfold emitArgs. phi.
Qed.

(** The printers of the operations without nested operations. *)
Lemma Phi_leaf_printers :
  (forall operands successor,
     Phi _ (printOperation_BranchOp operands successor))
  /\ (forall c ts fs t f, Phi _ (printOperation_CondBranchOp c ts fs t f))
  /\ (forall o r v, Phi _ (printOperation_ApplyOp o r v))
  /\ (forall var value, Phi _ (printOperation_AssignOp var value))
  /\ (forall c a t rs os, Phi _ (printOperation_emitc_CallOp c a t rs os))
  /\ (forall r v, Phi _ (printOperation_CastOp r v))
  /\ (forall i s, Phi _ (printOperation_IncludeOp i s))
  /\ (forall c rs os, Phi _ (printOperation_func_CallOp c rs os))
  /\ (forall os attrs, Phi _ (printOperation_ReturnOp os attrs)).
Proof using All.
  pose proof Phi_writeName. pose proof Phi_emitAssignPrefix.
  pose proof Phi_assignSuccessorArguments. pose proof Phi_emitArgs.
  pose proof Phi_emitOperands. pose proof Phi_emitType.
  pose proof Phi_emitVariableAssignment.
  pose proof Phi_emitOperandsAndAttributes.
  repeat split; intros;
    unfold printOperation_BranchOp, printOperation_CondBranchOp,
      printOperation_ApplyOp, printOperation_AssignOp,
      printOperation_emitc_CallOp, printOperation_CastOp,
      printOperation_IncludeOp, printOperation_func_CallOp,
      printOperation_ReturnOp;
    phi.
Qed.

Lemma Phi_createLabels blocks : Phi _ (createLabels blocks).
Proof using All. unfold createLabels. phi. Qed.

Lemma Phi_declareBlockArguments blocks :
  Phi _ (declareBlockArguments blocks).
Proof using All.
  pose proof Phi_writeName. pose proof Phi_emitType.
  unfold declareBlockArguments. phi.
Qed.

Section Nested.
Variable emitOp : Operation -> bool -> M LogicalResult.
Lemma Phi_emitOp_at ts ops :
  list_all Operation (fun op => forall ts, Phi _ (emitOp op ts)) ops ->
  list_all Operation (fun op => Phi _ (emitOp op ts)) ops.
Proof using All. apply list_all_impl. intros op Hop. apply Hop. Qed.

Lemma Phi_printOperation_ForOp lb ub step iv region :
  list_all Operation (fun op => forall ts, Phi _ (emitOp op ts)) region ->
  Phi _ (printOperation_ForOp emitOp lb ub step iv region).
Proof using All.
  intros Hall%(Phi_emitOp_at true).
  pose proof Phi_writeName. pose proof Phi_emitType.
  unfold printOperation_ForOp. phi.
Qed.

Lemma Phi_printOperation_IfOp condition thenRegion elseRegion :
  list_all Operation (fun op => forall ts, Phi _ (emitOp op ts)) thenRegion ->
  option_all (list Operation)
    (list_all Operation (fun op => forall ts, Phi _ (emitOp op ts)))
    elseRegion ->
  Phi _ (printOperation_IfOp emitOp condition thenRegion elseRegion).
Proof using All.
  intros Hthen%(Phi_emitOp_at true) Helse.
  pose proof Phi_emitOperands.
  unfold printOperation_IfOp.
  destruct Helse as [ops Hops%(Phi_emitOp_at true)|]; phi.
Qed.

Lemma Phi_printOperation_ModuleOp body :
  list_all Operation (fun op => forall ts, Phi _ (emitOp op ts)) body ->
  Phi _ (printOperation_ModuleOp emitOp body).
Proof using All.
  intros Hall%(Phi_emitOp_at false). unfold printOperation_ModuleOp. phi.
Qed.

Lemma Phi_emitBlocks blocks :
  list_all Block
    (Block__all Operation (fun op => forall ts, Phi _ (emitOp op ts)))
    blocks ->
  Phi _ (emitBlocks emitOp blocks).
Proof using All.
  intros Hall. pose proof Phi_emitLabel.
  unfold emitBlocks, emitBlockLabel. apply Phi_forEachWithError.
  induction Hall as [|block [id arguments ops Hops preds] blocks Hall IH];
    constructor; [|done].
  apply (list_all_impl _
           (fun op => Phi _ (emitOp op (negb (isBracedOrLiteral op)))))
    in Hops; [|intros op Hop; apply Hop].
  simpl. phi.
Qed.

Lemma Phi_printOperation_FuncOp name resultTypes blocks :
  list_all Block
    (Block__all Operation (fun op => forall ts, Phi _ (emitOp op ts)))
    blocks ->
  Phi _ (printOperation_FuncOp emitOp name resultTypes blocks).
Proof using All.
  intros Hall%Phi_emitBlocks.
  pose proof Phi_writeName. pose proof Phi_emitType.
  pose proof Phi_emitVariableDeclaration.
  assert (forall types, Phi _ (emitTypes types)).
  { intros types. unfold emitTypes, emitTupleType, emitTupleTypeWith. phi. }
  pose proof Phi_createLabels. pose proof Phi_declareBlockArguments.
  unfold printOperation_FuncOp, printFunctionDefinition,
    emitFunctionSignature, declareVariablesOfFunction, declareResultsOf.
  phi.
Qed.
End Nested.

(** The induction principle: what holds of the emitter's primitives and is
    kept by sequencing holds of [emitOperation]. *)
Lemma Phi_emitOperation op ts : Phi _ (emitOperation op ts).
Proof using All.
  revert ts.
  destruct Phi_leaf_printers as (? & ? & ? & ? & ? & ? & ? & ? & ?).
  pose proof Phi_printConstantOp. pose proof Phi_printBinaryOperation.
  induction op; intros ts; cbn [emitOperation];
    (apply Phi_andThen; [|phi]); try solve [phi].
  - by apply Phi_printOperation_ModuleOp.
  - by apply Phi_printOperation_ForOp.
  - by apply Phi_printOperation_IfOp.
  - by apply Phi_printOperation_FuncOp.
Qed.
End EmitterInduction.
(** ** 11. What the emitter keeps *)

Lemma run_get {A} (f : CppEmitter -> A) st : get f st = Some (f st, st).
Proof. reflexivity. Qed.

Lemma bind_Some {A B} (m : M A) (f : A -> M B) st b st' :
  (m ≫= f) st = Some (b, st') ->
  exists a st1, m st = Some (a, st1) /\ f a st1 = Some (b, st').
Proof.
  rewrite run_bind. destruct (m st) as [[a st1]|]; [|done]. eauto.
Qed.

(** What every pre-order kept by the emitter's primitives relates, the
    emitter keeps. *)
Lemma guarantees_closed (G : CppEmitter -> CppEmitter -> Prop) :
  PreOrder G ->
  (forall o, guarantees G (streamOp o)) ->
  (forall msg, guarantees G (emitError msg)) ->
  (forall val, guarantees G (getOrCreateName val)) ->
  (forall block, guarantees G (getOrCreateLabel block)) ->
  (forall A (m : M A), guarantees G m -> guarantees G (withScope m)) ->
  EmitterClosed (fun A m => guarantees G m).
Proof.
  intros HG Hos Herr Hname Hlabel Hscope.
  split.
  - intros A a st a' st' [= <- <-]. reflexivity.
  - intros A B m f Hm Hf st b st' (a & st1 & E1 & E2)%bind_Some.
    etrans; [by eapply Hm|by eapply Hf].
  - intros A st a st' [=].
  - exact Hos.
  - exact Herr.
  - intros st a st' [= <- <-]. reflexivity.
  - intros val st a st' [= <- <-]. reflexivity.
  - intros block st a st' [= <- <-]. reflexivity.
  - exact Hname.
  - exact Hlabel.
  - exact Hscope.
Qed.

Lemma osFrame_ret {A} (a : A) : osFrame (ret a).
Proof. intros pre st. reflexivity. Qed.

Lemma osFrame_bind {A B} (m : M A) (f : A -> M B) :
  osFrame m -> (forall a, osFrame (f a)) -> osFrame (m ≫= f).
Proof.
  intros Hm Hf pre st. rewrite !run_bind, Hm.
  destruct (m st) as [[a st1]|]; simpl; [apply Hf|done].
Qed.

Lemma osFrame_streamOp o : osFrame (streamOp o).
Proof.
  intros pre st. unfold streamOp, prepend. simpl.
  by rewrite (assoc_L (++)).
Qed.

Lemma osFrame_getOrCreateName val : osFrame (getOrCreateName val).
Proof.
  unfold getOrCreateName. destruct (definingLiteral val); [apply osFrame_ret|].
  apply osFrame_bind; [by intros ??|]. intros bound.
  apply osFrame_bind.
  - destruct bound; simpl; [apply osFrame_ret|].
    intros pre st. unfold insertValueName, prepend. simpl.
    destruct (valueInScopeCount st); [done|].
    by destruct (ScopedHashTable_insert _ _ _).
  - intros _. apply osFrame_bind; [by intros ??|].
    intros [n|]; [apply osFrame_ret|by intros ??].
Qed.

Lemma osFrame_getOrCreateLabel block : osFrame (getOrCreateLabel block).
Proof.
  unfold getOrCreateLabel.
  apply osFrame_bind; [by intros ??|]. intros bound.
  apply osFrame_bind.
  - destruct bound; simpl; [apply osFrame_ret|].
    intros pre st. unfold insertBlockLabel, prepend. simpl.
    destruct (labelInScopeCount st); [done|].
    by destruct (ScopedHashTable_insert _ _ _).
  - intros _. apply osFrame_bind; [by intros ??|].
    intros [n|]; [apply osFrame_ret|by intros ??].
Qed.

Lemma osFrame_withScope {A} (m : M A) : osFrame m -> osFrame (withScope m).
Proof.
  intros Hm. unfold withScope.
  apply osFrame_bind.
  { intros pre st. unfold enterScope, prepend. simpl.
    by destruct (valueInScopeCount st), (labelInScopeCount st). }
  intros _. apply osFrame_bind; [done|]. intros a.
  apply osFrame_bind; [|intros _; apply osFrame_ret].
  intros pre st. unfold exitScope, prepend. simpl.
  by destruct (valueInScopeCount st), (labelInScopeCount st),
    (valueMapper st), (blockMapper st).
Qed.

(** The emitter never looks at what its stream already holds. *)
Lemma osFrame_closed : EmitterClosed (fun A m => osFrame m).
Proof.
  split.
  - intros; apply osFrame_ret.
  - intros; by apply osFrame_bind.
  - by intros ???.
  - apply osFrame_streamOp.
  - by intros ???.
  - by intros ??.
  - by intros ???.
  - by intros ???.
  - apply osFrame_getOrCreateName.
  - apply osFrame_getOrCreateLabel.
  - intros; by apply osFrame_withScope.
Qed.

Lemma osFrame_emitOperation op ts : osFrame (emitOperation op ts).
Proof. apply (Phi_emitOperation _ osFrame_closed). Qed.

(** C9: the result of a translation, the text it appends to its stream and
    the diagnostics it reports are the same whatever the stream held
    before: they depend on the operation and the declaration policy only,
    and two translations of one module agree on all three (or both run into
    undefined behaviour). *)
Theorem translateToCpp_deterministic (op : Operation)
    (declareVariablesAtTop : bool) (os1 os2 : list StreamOp) :
  match translateToCpp op os1 declareVariablesAtTop,
        translateToCpp op os2 declareVariablesAtTop with
  | Some (r1, st1), Some (r2, st2) =>
      r1 = r2 /\ diagnostics st1 = diagnostics st2
      /\ exists out, os st1 = os1 ++ out /\ os st2 = os2 ++ out
  | None, None => True
  | _, _ => False
  end.
Proof.
  assert (forall pre,
            translateToCpp op pre declareVariablesAtTop =
            (fun p => (p.1, prepend pre p.2)) <$>
              translateToCpp op [] declareVariablesAtTop) as Hframe.
  { intros pre. unfold translateToCpp.
    rewrite <-osFrame_emitOperation. f_equal.
    unfold prepend, CppEmitter_new. simpl. by rewrite app_nil_r. }
  rewrite (Hframe os1), (Hframe os2).
  destruct (translateToCpp op [] declareVariablesAtTop) as [[r st]|];
    simpl; [|done].
  split; [done|]. split; [done|]. by exists (os st).
Qed.
(** *** The name tables *)

Section ScopedHashTableFacts.
Context `{Countable K}.
Implicit Types (t : list (gmap K string)) (key : K).

Lemma count_true key t :
  ScopedHashTable_count key t = true <-> is_Some (ScopedHashTable_begin key t).
Proof. unfold ScopedHashTable_count. apply bool_decide_eq_true. Qed.

Lemma count_false key t :
  ScopedHashTable_count key t = false <-> ScopedHashTable_begin key t = None.
Proof.
  unfold ScopedHashTable_count. rewrite bool_decide_eq_false.
  by rewrite eq_None_not_Some.
Qed.

Lemma begin_cons key scope outer :
  ScopedHashTable_begin key (scope :: outer) =
  match scope !! key with
  | Some name => Some name
  | None => ScopedHashTable_begin key outer
  end.
Proof. reflexivity. Qed.

Lemma begin_enter key t :
  ScopedHashTable_begin key (∅ :: t) = ScopedHashTable_begin key t.
Proof. by rewrite begin_cons, lookup_empty. Qed.

Lemma begin_insert key key' name scope outer :
  ScopedHashTable_begin key' (<[key := name]> scope :: outer) =
  if decide (key = key') then Some name
  else ScopedHashTable_begin key' (scope :: outer).
Proof.
  rewrite !begin_cons, lookup_insert. by destruct (decide (key = key')).
Qed.

#[global] Instance scopesKept_preorder : PreOrder (scopesKept (K := K)).
Proof.
  split.
  - intros [|scope outer]; simpl; done.
  - intros [|s1 o1] [|s2 o2] [|s3 o3]; simpl; try done.
    intros [-> H12] [-> H23]. split; [done|]. intros key name E.
    apply H23, H12, E.
Qed.

Lemma scopesKept_begin key name t t' :
  scopesKept t t' ->
  ScopedHashTable_begin key t = Some name ->
  ScopedHashTable_begin key t' = Some name.
Proof.
  destruct t as [|scope outer], t' as [|scope' outer']; simpl; try done.
  intros [_ Hkept]. apply Hkept.
Qed.

Lemma scopesKept_insert key name scope outer :
  ScopedHashTable_begin key (scope :: outer) = None ->
  scopesKept (scope :: outer) (<[key := name]> scope :: outer).
Proof.
  intros Hfresh. split; [done|]. intros key' name' E.
  rewrite begin_insert. destruct (decide (key = key')) as [->|]; [|done].
  congruence.
Qed.
End ScopedHashTableFacts.

#[global] Instance countersKept_preorder : PreOrder countersKept.
Proof.
  split.
  - intros [|top below]; simpl; done.
  - intros [|t1 b1] [|t2 b2] [|t3 b3]; simpl; try done.
    intros [? ->] [? ->]. split; [lia|done].
Qed.

#[global] Instance nested_preorder : PreOrder nested.
Proof.
  split.
  - intros st. repeat split; reflexivity.
  - intros st1 st2 st3 (? & ? & ? & ?) (? & ? & ? & ?).
    repeat split; by etrans.
Qed.

Lemma restored_nested st st' : restored st st' -> nested st st'.
Proof.
  intros (Ev & Eb & Evc & Elc). unfold nested.
  rewrite Ev, Eb, Evc, Elc. repeat split; reflexivity.
Qed.

(** The three ways [getOrCreateName] returns: the text of a literal, the
    name the value already has, or a fresh name entered into the current
    scope. *)
Lemma getOrCreateName_inv val st name st' :
  getOrCreateName val st = Some (name, st') ->
  (definingLiteral val = Some name /\ st' = st)
  \/ (definingLiteral val = None
      /\ ScopedHashTable_begin val (valueMapper st) = Some name /\ st' = st)
  \/ (definingLiteral val = None
      /\ ScopedHashTable_begin val (valueMapper st) = None
      /\ exists scope outer top below,
          valueMapper st = scope :: outer
          /\ valueInScopeCount st = top :: below
          /\ name = "v" +:+ pretty (top + 1)%Z
          /\ st' = mkCppEmitter (os st) (declareVariablesAtTop st)
                     (<[val := name]> scope :: outer) (blockMapper st)
                     ((top + 1)%Z :: below) (labelInScopeCount st)
                     (diagnostics st)).
Proof.
  unfold getOrCreateName. destruct (definingLiteral val) as [literal|].
  { intros [= <- <-]. by left. }
  intros Hrun. right. revert Hrun.
  rewrite run_bind. unfold hasValueInScope at 1. rewrite run_get.
  destruct (ScopedHashTable_count val (valueMapper st)) eqn:Ecount; simpl.
  - apply count_true in Ecount as [n En]. run. rewrite run_get, En.
    intros [= <- <-]. by left.
  - apply count_false in Ecount. intros Hrun. right. revert Hrun.
    rewrite run_bind. unfold insertValueName.
    destruct (valueInScopeCount st) as [|top below] eqn:Ec; [done|].
    destruct (valueMapper st) as [|scope outer] eqn:Ev; [done|]. simpl.
    rewrite run_bind, run_get. simpl.
    rewrite lookup_insert_eq. intros [= <- <-].
    split; [done|]. split; [done|]. by exists scope, outer, top, below.
Qed.

(** The two ways [getOrCreateName] returns for a block: the label the block
    already has, or a fresh label entered into the current scope. *)
Lemma getOrCreateLabel_inv block st label st' :
  getOrCreateLabel block st = Some (label, st') ->
  (ScopedHashTable_begin block (blockMapper st) = Some label /\ st' = st)
  \/ (ScopedHashTable_begin block (blockMapper st) = None
      /\ exists scope outer top below,
          blockMapper st = scope :: outer
          /\ labelInScopeCount st = top :: below
          /\ label = "label" +:+ pretty (top + 1)%Z
          /\ st' = mkCppEmitter (os st) (declareVariablesAtTop st)
                     (valueMapper st) (<[block := label]> scope :: outer)
                     (valueInScopeCount st) ((top + 1)%Z :: below)
                     (diagnostics st)).
Proof.
  unfold getOrCreateLabel.
  rewrite run_bind. unfold hasBlockLabel at 1. rewrite run_get.
  destruct (ScopedHashTable_count block (blockMapper st)) eqn:Ecount; simpl.
  - apply count_true in Ecount as [n En]. run. rewrite run_get, En.
    intros [= <- <-]. by left.
  - apply count_false in Ecount. intros Hrun. right. revert Hrun.
    rewrite run_bind. unfold insertBlockLabel.
    destruct (labelInScopeCount st) as [|top below] eqn:Ec; [done|].
    destruct (blockMapper st) as [|scope outer] eqn:Ev; [done|]. simpl.
    rewrite run_bind, run_get. simpl.
    rewrite lookup_insert_eq. intros [= <- <-].
    split; [done|]. by exists scope, outer, top, below.
Qed.

Lemma enterScope_inv st u st' :
  enterScope st = Some (u, st') ->
  exists v vs l ls,
    valueInScopeCount st = v :: vs /\ labelInScopeCount st = l :: ls
    /\ st' = mkCppEmitter (os st) (declareVariablesAtTop st)
               (∅ :: valueMapper st) (∅ :: blockMapper st)
               (v :: v :: vs) (l :: l :: ls) (diagnostics st).
Proof.
  unfold enterScope.
  destruct (valueInScopeCount st) as [|v vs]; [done|].
  destruct (labelInScopeCount st) as [|l ls]; [done|].
  intros [= <- <-]. by exists v, vs, l, ls.
Qed.

Lemma exitScope_inv st u st' :
  exitScope st = Some (u, st') ->
  exists v vs l ls vscope vm bscope bm,
    valueInScopeCount st = v :: vs /\ labelInScopeCount st = l :: ls
    /\ valueMapper st = vscope :: vm /\ blockMapper st = bscope :: bm
    /\ st' = mkCppEmitter (os st) (declareVariablesAtTop st) vm bm vs ls
               (diagnostics st).
Proof.
  unfold exitScope.
  destruct (valueInScopeCount st) as [|v vs]; [done|].
  destruct (labelInScopeCount st) as [|l ls]; [done|].
  destruct (valueMapper st) as [|vscope vm]; [done|].
  destruct (blockMapper st) as [|bscope bm]; [done|].
  intros [= <- <-]. by exists v, vs, l, ls, vscope, vm, bscope, bm.
Qed.

Lemma withScope_inv {A} (m : M A) st a st' :
  withScope m st = Some (a, st') ->
  exists st1 st2,
    enterScope st = Some (tt, st1) /\ m st1 = Some (a, st2)
    /\ exitScope st2 = Some (tt, st').
Proof.
  unfold withScope.
  intros ([] & st1 & E1 & (a' & st2 & E2 & ([] & st3 & E3 & E4)%bind_Some)
            %bind_Some)%bind_Some.
  injection E4 as <- <-. by exists st1, st2.
Qed.

Lemma nested_streamOp o : guarantees nested (streamOp o).
Proof. intros st a st' [= <- <-]. repeat split; reflexivity. Qed.

Lemma nested_emitError msg : guarantees nested (emitError msg).
Proof. intros st a st' [= <- <-]. repeat split; reflexivity. Qed.

Lemma nested_getOrCreateName val : guarantees nested (getOrCreateName val).
Proof.
  intros st name st'
    [[_ ->]|[(_ & _ & ->)|(_ & Hfresh & scope & outer & top & below
                           & Ev & Ec & _ & ->)]]%getOrCreateName_inv;
    [reflexivity..|].
  unfold nested. simpl. rewrite Ev, Ec. rewrite Ev in Hfresh.
  split; [by apply scopesKept_insert|].
  split; [reflexivity|]. split; [|reflexivity]. simpl. split; [lia|done].
Qed.

Lemma nested_getOrCreateLabel block :
  guarantees nested (getOrCreateLabel block).
Proof.
  intros st name st'
    [[_ ->]|(Hfresh & scope & outer & top & below
             & Ev & Ec & _ & ->)]%getOrCreateLabel_inv;
    [reflexivity|].
  unfold nested. simpl. rewrite Ev, Ec. rewrite Ev in Hfresh.
  split; [reflexivity|]. split; [by apply scopesKept_insert|].
  split; [reflexivity|]. simpl. split; [lia|done].
Qed.

(** A computation run under a scope guard leaves the name tables and the
    counters exactly as it found them, provided it only works inside the
    scope it is given. *)
Lemma restored_withScope {A} (m : M A) :
  guarantees nested m -> guarantees restored (withScope m).
Proof.
  intros Hm st a st' (st1 & st2 & E1 & E2 & E3)%withScope_inv.
  apply enterScope_inv in E1 as (v & vs & l & ls & Ev & El & ->).
  apply Hm in E2 as (Hv & Hb & Hvc & Hlc). simpl in *.
  apply exitScope_inv in E3
    as (v' & vs' & l' & ls' & vscope & vm & bscope & bm
        & Ev' & El' & Evm & Ebm & ->).
  rewrite Evm in Hv. rewrite Ebm in Hb. rewrite Ev' in Hvc.
  rewrite El' in Hlc. simpl in *.
  destruct Hv as [-> _], Hb as [-> _], Hvc as [_ ->], Hlc as [_ ->].
  by repeat split.
Qed.

(** Emitting an operation works inside the current scope: the enclosing
    scopes and counters are untouched, every name given stays, and the
    current counters do not decrease. *)
Lemma nested_closed : EmitterClosed (fun A m => guarantees nested m).
Proof.
  apply guarantees_closed.
  - apply _.
  - apply nested_streamOp.
  - apply nested_emitError.
  - apply nested_getOrCreateName.
  - apply nested_getOrCreateLabel.
  - intros A m Hm st a st' E. by eapply restored_nested, restored_withScope.
Qed.

Lemma nested_emitOperation op ts : guarantees nested (emitOperation op ts).
Proof. apply (Phi_emitOperation _ nested_closed). Qed.
(** What the primitives keep, the emitter keeps. *)
Lemma preserves_emitOperation (P : CppEmitter -> Prop) :
  (forall o, preserves P (streamOp o)) ->
  (forall msg, preserves P (emitError msg)) ->
  (forall val, preserves P (getOrCreateName val)) ->
  (forall block, preserves P (getOrCreateLabel block)) ->
  preserves P enterScope ->
  preserves P exitScope ->
  forall op ts, preserves P (emitOperation op ts).
Proof.
  intros Hos Herr Hname Hlabel Henter Hexit op ts.
  apply (Phi_emitOperation (fun A m => guarantees _ m)).
  apply guarantees_closed; try done.
  - split; [by intros ?|]. intros st1 st2 st3 H12 H23 HP. auto.
  - intros A m Hm st a st' (st1 & st2 & E1 & E2 & E3)%withScope_inv HP.
    eapply Hexit; [done|]. eapply Hm; [done|]. by eapply Henter.
Qed.

Lemma name_inj (prefix : string) (n1 n2 : Z) :
  prefix +:+ pretty n1 = prefix +:+ pretty n2 -> n1 = n2.
Proof. intros E%(inj (String.app prefix)). by apply (inj pretty). Qed.

Section Consistency.
Context `{Countable K}.
Implicit Types (t outer : list (gmap K string)) (scope : gmap K string).
Implicit Types (key : K) (c : list Z).

Lemma consistent_enter prefix t top below :
  scopesConsistent prefix t (top :: below) ->
  scopesConsistent prefix (∅ :: t) (top :: top :: below).
Proof.
  intros Ht. simpl. split; [lia|]. split; [|split; [|done]].
  - intros key name. by rewrite lookup_empty.
  - intros key1 key2 name. by rewrite lookup_empty.
Qed.

Lemma consistent_exit prefix scope outer top below :
  scopesConsistent prefix (scope :: outer) (top :: below) ->
  scopesConsistent prefix outer below.
Proof. simpl. destruct below; [done|]. by intros (_ & _ & _ & ?). Qed.

(** Every name in the table is the prefix followed by a number up to the
    current counter. *)
Lemma consistent_bound prefix t c key name :
  scopesConsistent prefix t c ->
  ScopedHashTable_begin key t = Some name ->
  exists n top below,
    c = top :: below /\ name = prefix +:+ pretty n /\ (n <= top)%Z.
Proof.
  revert c. induction t as [|scope outer IH]; intros c Ht; [done|].
  destruct c as [|top [|base rest]]; [done..|].
  destruct Ht as (Hle & Hnames & _ & Houter).
  rewrite begin_cons. destruct (scope !! key) as [name'|] eqn:E.
  - intros [= ->]. destruct (Hnames _ _ E) as (n & -> & Hn).
    exists n, top, (base :: rest). split; [done|]. split; [done|lia].
  - intros (n & top' & below' & [= <- <-] & -> & Hn)%(IH _ Houter).
    exists n, top, (base :: rest). split; [done|]. split; [done|lia].
Qed.

(** No two keys of the table have the same name. *)
Lemma consistent_injective prefix t c key1 key2 name :
  scopesConsistent prefix t c ->
  ScopedHashTable_begin key1 t = Some name ->
  ScopedHashTable_begin key2 t = Some name ->
  key1 = key2.
Proof.
  revert c. induction t as [|scope outer IH]; intros c Ht; [done|].
  destruct c as [|top [|base rest]]; [done..|].
  destruct Ht as (Hle & Hnames & Hinj & Houter).
  rewrite !begin_cons.
  destruct (scope !! key1) as [name1|] eqn:E1,
           (scope !! key2) as [name2|] eqn:E2.
  - intros [= ->] [= ->]. by eapply Hinj.
  - intros [= ->] E. destruct (Hnames _ _ E1) as (n & -> & Hn).
    destruct (consistent_bound _ _ _ _ _ Houter E)
      as (n' & top' & below' & [= <- <-] & ->%name_inj & Hn').
    lia.
  - intros E [= ->]. destruct (Hnames _ _ E2) as (n & -> & Hn).
    destruct (consistent_bound _ _ _ _ _ Houter E)
      as (n' & top' & below' & [= <- <-] & ->%name_inj & Hn').
    lia.
  - by apply IH with (base :: rest).
Qed.

Lemma consistent_insert prefix scope outer top below key :
  scopesConsistent prefix (scope :: outer) (top :: below) ->
  scopesConsistent prefix
    (<[key := prefix +:+ pretty (top + 1)%Z]> scope :: outer)
    ((top + 1)%Z :: below).
Proof.
  simpl. destruct below as [|base rest]; [done|].
  intros (Hle & Hnames & Hinj & Houter).
  split; [lia|]. split; [|split; [|done]].
  - intros key' name. rewrite lookup_insert.
    destruct (decide (key = key')) as [->|Hne].
    + intros [= <-]. exists (top + 1)%Z. split; [done|lia].
    + intros (n & -> & Hn)%Hnames. exists n. split; [done|lia].
  - intros key1 key2 name. rewrite !lookup_insert.
    destruct (decide (key = key1)) as [<-|Hne1],
             (decide (key = key2)) as [<-|Hne2]; try done.
    + intros [= <-] (n & E%name_inj & Hn)%Hnames. lia.
    + intros (n & E & Hn)%Hnames [= <-]. apply name_inj in E. lia.
    + apply Hinj.
Qed.
End Consistency.

Lemma namesConsistent_new os declareVariablesAtTop :
  namesConsistent (CppEmitter_new os declareVariablesAtTop).
Proof. by split. Qed.

Lemma namesConsistent_getOrCreateName val :
  preserves namesConsistent (getOrCreateName val).
Proof.
  intros st name st'
    [[_ ->]|[(_ & _ & ->)|(_ & Hfresh & scope & outer & top & below
                           & Ev & Ec & -> & ->)]]%getOrCreateName_inv;
    [done..|].
  intros [Hv Hb]. split; [|done]. simpl. rewrite Ev, Ec in Hv.
  by apply consistent_insert.
Qed.

Lemma namesConsistent_getOrCreateLabel block :
  preserves namesConsistent (getOrCreateLabel block).
Proof.
  intros st name st'
    [[_ ->]|(Hfresh & scope & outer & top & below
             & Ev & Ec & -> & ->)]%getOrCreateLabel_inv;
    [done|].
  intros [Hv Hb]. split; [done|]. simpl. rewrite Ev, Ec in Hb.
  by apply consistent_insert.
Qed.

Lemma namesConsistent_enterScope : preserves namesConsistent enterScope.
Proof.
  intros st u st' (v & vs & l & ls & Ev & El & ->)%enterScope_inv [Hv Hb].
  rewrite Ev in Hv. rewrite El in Hb.
  split; simpl; by apply consistent_enter.
Qed.

Lemma namesConsistent_exitScope : preserves namesConsistent exitScope.
Proof.
  intros st u st'
    (v & vs & l & ls & vscope & vm & bscope & bm
     & Ev & El & Evm & Ebm & ->)%exitScope_inv [Hv Hb].
  rewrite Ev, Evm in Hv. rewrite El, Ebm in Hb.
  split; simpl; by eapply consistent_exit.
Qed.

(** Emitting an operation keeps the names consistent with the counters. *)
Lemma namesConsistent_emitOperation op ts :
  preserves namesConsistent (emitOperation op ts).
Proof.
  apply preserves_emitOperation.
  - by intros o st a st' [= <- <-].
  - by intros o st a st' [= <- <-].
  - apply namesConsistent_getOrCreateName.
  - apply namesConsistent_getOrCreateLabel.
  - apply namesConsistent_enterScope.
  - apply namesConsistent_exitScope.
Qed.

Lemma noLiteralBound_new os declareVariablesAtTop :
  noLiteralBound (CppEmitter_new os declareVariablesAtTop).
Proof. by intros val _. Qed.

(** Emitting an operation never gives a name to a value defined by a
    literal operation. *)
Lemma noLiteralBound_emitOperation op ts :
  preserves noLiteralBound (emitOperation op ts).
Proof.
  apply preserves_emitOperation.
  - by intros o st a st' [= <- <-].
  - by intros o st a st' [= <- <-].
  - intros val st name st'
      [[_ ->]|[(_ & _ & ->)|(Hval & Hfresh & scope & outer & top & below
                             & Ev & Ec & -> & ->)]]%getOrCreateName_inv;
      [done..|].
    intros HP val' Hlit. cbn [valueMapper]. rewrite begin_insert.
    destruct (decide (val = val')) as [->|Hne].
    + rewrite Hval in Hlit. by destruct Hlit.
    + rewrite <-Ev. by apply HP.
  - intros block st name st'
      [[_ ->]|(Hfresh & scope & outer & top & below
               & Ev & Ec & -> & ->)]%getOrCreateLabel_inv; done.
  - intros st u st' (v & vs & l & ls & Ev & El & ->)%enterScope_inv HP.
    intros val Hlit. cbn [valueMapper]. rewrite begin_enter. by apply HP.
  - intros st u st'
      (v & vs & l & ls & vscope & vm & bscope & bm
       & Ev & El & Evm & Ebm & ->)%exitScope_inv HP val Hlit.
    cbn [valueMapper]. specialize (HP val Hlit).
    rewrite Evm, begin_cons in HP.
    by destruct (vscope !! val).
Qed.
(** ** 12. Names *)

Lemma run_hasValueInScope val st :
  hasValueInScope val st =
  Some (ScopedHashTable_count val (valueMapper st), st).
Proof. reflexivity. Qed.

Lemma run_hasBlockLabel block st :
  hasBlockLabel block st =
  Some (ScopedHashTable_count block (blockMapper st), st).
Proof. reflexivity. Qed.

Lemma getOrCreateName_literal val text st :
  definingLiteral val = Some text -> getOrCreateName val st = Some (text, st).
Proof. intros E. unfold getOrCreateName. by rewrite E. Qed.

Lemma getOrCreateName_bound val name st :
  definingLiteral val = None ->
  ScopedHashTable_begin val (valueMapper st) = Some name ->
  getOrCreateName val st = Some (name, st).
Proof.
  intros E Hname. unfold getOrCreateName. rewrite E.
  rewrite run_bind, run_hasValueInScope.
  rewrite (proj2 (count_true _ _)) by (by rewrite Hname).
  simpl. run. by rewrite run_get, Hname.
Qed.

Lemma getOrCreateName_fresh val scope outer top below st :
  definingLiteral val = None ->
  ScopedHashTable_begin val (valueMapper st) = None ->
  valueMapper st = scope :: outer ->
  valueInScopeCount st = top :: below ->
  getOrCreateName val st =
  Some ("v" +:+ pretty (top + 1)%Z,
        mkCppEmitter (os st) (declareVariablesAtTop st)
          (<[val := "v" +:+ pretty (top + 1)%Z]> scope :: outer)
          (blockMapper st) ((top + 1)%Z :: below) (labelInScopeCount st)
          (diagnostics st)).
Proof.
  intros E Hfresh Ev Ec. unfold getOrCreateName. rewrite E.
  rewrite run_bind, run_hasValueInScope.
  rewrite (proj2 (count_false _ _)) by done.
  simpl. rewrite run_bind. unfold insertValueName. rewrite Ec, Ev. simpl.
  rewrite run_bind, run_get. simpl. by rewrite lookup_insert_eq.
Qed.

Lemma getOrCreateLabel_bound block label st :
  ScopedHashTable_begin block (blockMapper st) = Some label ->
  getOrCreateLabel block st = Some (label, st).
Proof.
  intros Hlabel. unfold getOrCreateLabel.
  rewrite run_bind, run_hasBlockLabel.
  rewrite (proj2 (count_true _ _)) by (by rewrite Hlabel).
  simpl. run. by rewrite run_get, Hlabel.
Qed.

(** ** 13. Return *)

(** C10: a return of one operand that is the result of a literal operation
    writes [return], a blank and the literal's text, and then fails: the
    literal never enters the name table, so the lookup after printing finds
    nothing.  No diagnostic is reported and no semicolon follows. *)
Theorem printOperation_ReturnOp_literal (operand : Value) (text : string)
    (attrs : list NamedAttribute) (trailingSemicolon : bool)
    (st : CppEmitter) :
  definingLiteral operand = Some text ->
  noLiteralBound st ->
  printOperation_ReturnOp [operand] attrs st =
    Some (Failure,
          emitted st [OsWrite "return"; OsWrite " "; OsWrite text])
  /\ emitOperation (func_ReturnOp [operand] attrs) trailingSemicolon st =
       Some (Failure,
             emitted st [OsWrite "return"; OsWrite " "; OsWrite text]).
Proof.
  intros Hlit Hinv.
  assert (printOperation_ReturnOp [operand] attrs st =
          Some (Failure,
                emitted st [OsWrite "return"; OsWrite " "; OsWrite text]))
    as Hprint.
  { unfold printOperation_ReturnOp, writeName. run.
    rewrite (getOrCreateName_literal _ text) by done. run.
    rewrite run_hasValueInScope. cbn [valueMapper emitted].
    rewrite (proj2 (count_false _ _)); [done|].
    apply Hinv. by rewrite Hlit. }
  split; [done|]. cbn [emitOperation]. by rewrite run_andThen, Hprint.
Qed.

(** The instance of C10 for the literal [42] at the start of a
    translation. *)
Lemma printOperation_ReturnOp_literal_witness :
  let operand := {| valueImpl := 0; definingLiteral := Some "42" |} in
  let st := CppEmitter_new [] false in
  definingLiteral operand = Some "42"
  /\ noLiteralBound st
  /\ emitOperation (func_ReturnOp [operand] []) true st =
       Some (Failure,
             emitted st [OsWrite "return"; OsWrite " "; OsWrite "42"]).
Proof.
  intros operand st.
  assert (definingLiteral operand = Some "42") as Hlit by reflexivity.
  assert (noLiteralBound st) as Hinv by (intros val _; reflexivity).
  split; [exact Hlit|]. split; [exact Hinv|].
  exact (proj2 (printOperation_ReturnOp_literal operand "42" [] true st
                  Hlit Hinv)).
Defined.

(** A return of one operand that is not a literal succeeds inside any
    scope, whether or not the operand had a name: [getOrCreateName] gives it
    one before [hasValueInScope] is asked. *)
Lemma printOperation_ReturnOp_single (operand : Value)
    (attrs : list NamedAttribute) (st : CppEmitter) scope outer top below :
  definingLiteral operand = None ->
  valueMapper st = scope :: outer ->
  valueInScopeCount st = top :: below ->
  exists st', printOperation_ReturnOp [operand] attrs st = Some (Success, st').
Proof.
  intros Hlit Ev Ec. unfold printOperation_ReturnOp, writeName. run.
  destruct (ScopedHashTable_begin operand (valueMapper st)) as [name|] eqn:E.
  - rewrite (getOrCreateName_bound _ name) by done. run.
    rewrite run_hasValueInScope. cbn [valueMapper emitted].
    rewrite (proj2 (count_true _ _)) by (by rewrite E). eauto.
  - rewrite (getOrCreateName_fresh _ scope outer top below) by done. run.
    rewrite run_hasValueInScope. cbn [valueMapper emitted].
    rewrite (proj2 (count_true _ _)); [eauto|].
    by rewrite begin_insert, decide_True.
Qed.

(** Outside what the verifier admits: in a module of two functions, [f]
    returns a value that only [g] defines, so that the value has no name in
    the scope of [f].  With this one operand the name is minted before the
    table is asked, the translation succeeds and [f] returns a fresh [v1];
    with the same value returned twice the operands go through
    [emitOperands] and the translation is refused. *)
Lemma return_of_unbound_value :
  let i32 := IntegerType 32 Signless in
  let x := {| valueImpl := 7; definingLiteral := None |} in
  let g :=
    func_FuncOp "g" []
      [mkBlock 0 []
         [emitc_ConstantOp {| resultValue := x; resultType := i32 |}
            (IntegerAttr i32 {| getBitWidth := 32; getZExtValue := 5 |});
          func_ReturnOp [] []]
         []] in
  let f results operands :=
    func_FuncOp "f" results [mkBlock 1 [] [func_ReturnOp operands []] []] in
  let observe (run : option (LogicalResult * CppEmitter)) :=
    (fun p => (p.1, streamText (os p.2), diagnostics p.2)) <$> run in
  observe (translateToCpp (ModuleOp [g; f [i32] [x]]) [] false) =
    Some (Success,
          "void g() {" +:+ nl +:+ "int32_t v1 = 5;" +:+ nl
          +:+ "return;" +:+ nl +:+ "}" +:+ nl +:+ nl
          +:+ "int32_t f() {" +:+ nl +:+ "return v1;" +:+ nl +:+ "}" +:+ nl
          +:+ nl +:+ nl,
          [])
  /\ observe (translateToCpp (ModuleOp [g; f [i32; i32] [x; x]]) [] false) =
       Some (Failure,
             "void g() {" +:+ nl +:+ "int32_t v1 = 5;" +:+ nl
             +:+ "return;" +:+ nl +:+ "}" +:+ nl +:+ nl
             +:+ "std::tuple<int32_t, int32_t> f() {" +:+ nl
             +:+ "return std::make_tuple(",
             ["operand value not in scope"]).
Proof. split; vm_compute; reflexivity. Qed.

(** ** 14. Constants *)

(** C1 as the code has it: for an empty opaque value, under the
    declare-at-top policy [printConstantOp] writes nothing and succeeds, so
    each of the four constant-like operations contributes only its
    statement terminator; under the inline policy [printConstantOp] is the
    declaration of the result without initialiser, which for a result
    without a name prints the type, a blank and a fresh name. *)
Theorem printConstantOp_empty_opaque (result : OpResult)
    (st : CppEmitter) :
  printConstantOp result (OpaqueAttr EmptyString) st =
    (if declareVariablesAtTop st then Some (Success, st)
     else emitVariableDeclaration result false st)
  /\ (forall op trailingSemicolon,
        op ∈ [emitc_ConstantOp result (OpaqueAttr EmptyString);
              emitc_VariableOp result (OpaqueAttr EmptyString);
              arith_ConstantOp result (OpaqueAttr EmptyString);
              func_ConstantOp result (OpaqueAttr EmptyString)] ->
        declareVariablesAtTop st = true ->
        emitOperation op trailingSemicolon st =
        Some (Success,
              emitted st
                [OsWrite (if trailingSemicolon then ";" +:+ nl else nl)]))
  /\ (forall scope outer top below ops msgs,
        declareVariablesAtTop st = false ->
        definingLiteral (resultValue result) = None ->
        ScopedHashTable_begin (resultValue result) (valueMapper st) = None ->
        valueMapper st = scope :: outer ->
        valueInScopeCount st = top :: below ->
        emitType (resultType result) st = Some (Success, printed st ops msgs) ->
        printConstantOp result (OpaqueAttr EmptyString) st =
        Some (Success,
              mkCppEmitter
                (os st ++ ops
                 ++ [OsWrite " "; OsWrite ("v" +:+ pretty (top + 1)%Z)])
                false
                (<[resultValue result := "v" +:+ pretty (top + 1)%Z]> scope
                 :: outer)
                (blockMapper st) ((top + 1)%Z :: below)
                (labelInScopeCount st) (diagnostics st ++ msgs))).
Proof.
  assert (printConstantOp result (OpaqueAttr EmptyString) st =
          (if declareVariablesAtTop st then Some (Success, st)
           else emitVariableDeclaration result false st)) as Hprint.
  { unfold printConstantOp. rewrite run_bind.
    unfold shouldDeclareVariablesAtTop. rewrite run_get.
    by destruct (declareVariablesAtTop st). }
  split; [done|]. split.
  - intros op ts Hop Htop.
    assert (emitOperation op ts st =
            (printConstantOp result (OpaqueAttr EmptyString) >>?
             (write (if ts then ";" +:+ nl else nl);; ret (success true))) st)
      as ->.
    { set_unfold. by destruct Hop as [->|[->|[->|[->|[]]]]]. }
    rewrite run_andThen, Hprint, Htop. by run.
  - intros scope outer top below ops msgs Htop Hlit Hfresh Ev Ec Htype.
    rewrite Hprint, Htop. unfold emitVariableDeclaration.
    rewrite run_bind, run_hasValueInScope.
    rewrite (proj2 (count_false _ _)) by done.
    rewrite run_andThen, Htype. unfold writeName. run.
    rewrite (getOrCreateName_fresh _ scope outer top below) by done.
    run. unfold emitted, printed. simpl. rewrite Htop.
    by rewrite <-!(assoc_L (++)).
Qed.

(** C1 as stated does not hold: under the inline policy an empty opaque
    constant is declared.  [printConstantOp] prints [int32_t v1] for it,
    and a function holding only this constant and a return is translated to
    text with the line [int32_t v1;]. *)
Lemma empty_opaque_constant_declared_inline :
  let result :=
    {| resultValue := {| valueImpl := 1; definingLiteral := None |};
       resultType := IntegerType 32 Signless |} in
  let constant := emitc_ConstantOp result (OpaqueAttr EmptyString) in
  let st :=
    mkCppEmitter [] false [∅] [∅] [0%Z; 0%Z] [0%Z; 0%Z] [] in
  let observe (run : option (LogicalResult * CppEmitter)) :=
    (fun p => (p.1, streamText (os p.2), diagnostics p.2)) <$> run in
  observe (printConstantOp result (OpaqueAttr EmptyString) st) =
    Some (Success, "int32_t v1", [])
  /\ observe
       (translateToCpp
          (ModuleOp
             [func_FuncOp "f" []
                [mkBlock 0 [] [constant; func_ReturnOp [] []] []]])
          [] false) =
     Some (Success,
           "void f() {" +:+ nl +:+ "int32_t v1;" +:+ nl +:+ "return;" +:+ nl
           +:+ "}" +:+ nl +:+ nl +:+ nl,
           []).
Proof. split; vm_compute; reflexivity. Qed.
(** The instance of C1 for a constant of type [i32] in a fresh function
    scope, under the inline policy. *)
Lemma printConstantOp_empty_opaque_witness :
  let result :=
    {| resultValue := {| valueImpl := 1; definingLiteral := None |};
       resultType := IntegerType 32 Signless |} in
  let st := mkCppEmitter [] false [∅] [∅] [0%Z; 0%Z] [0%Z; 0%Z] [] in
  declareVariablesAtTop st = false
  /\ printConstantOp result (OpaqueAttr EmptyString) st =
     Some (Success,
           mkCppEmitter
             ([] ++ [OsWrite "int"; OsWrite (pretty 32%N); OsWrite "_t"]
              ++ [OsWrite " "; OsWrite ("v" +:+ pretty (0 + 1)%Z)])
             false
             [<[resultValue result := "v" +:+ pretty (0 + 1)%Z]> ∅]
             [∅] [(0 + 1)%Z; 0%Z] [0%Z; 0%Z] ([] ++ [])).
Proof.
  intros result st. split; [reflexivity|].
  apply (proj2 (proj2 (printConstantOp_empty_opaque result st))
           ∅ [] 0%Z [0%Z]
           [OsWrite "int"; OsWrite (pretty 32%N); OsWrite "_t"] []);
    reflexivity.
Defined.

(** ** 15. Function definitions *)

(** C4: a function with more than one block is refused under the inline
    policy before anything is printed, with the diagnostic asking for
    variables declared at top; under the declare-at-top policy the check
    passes and the definition is emitted. *)
Theorem printOperation_FuncOp_multiple_blocks (name : string)
    (resultTypes : list Type_) (blocks : list Block)
    (trailingSemicolon : bool) (st : CppEmitter) :
  1 < length blocks ->
  (declareVariablesAtTop st = false ->
   emitOperation (func_FuncOp name resultTypes blocks) trailingSemicolon st =
   Some (Failure,
         diagnosed st "with multiple blocks needs variables declared at top"))
  /\ (declareVariablesAtTop st = true ->
      emitOperation (func_FuncOp name resultTypes blocks) trailingSemicolon
        st =
      (printFunctionDefinition emitOperation name resultTypes blocks >>?
       (write (if trailingSemicolon then ";" +:+ nl else nl);;
        ret (success true))) st).
Proof.
  intros Hblocks. cbn [emitOperation isLiteralOp].
  split; intros Htop; rewrite !run_andThen;
    unfold printOperation_FuncOp, shouldDeclareVariablesAtTop;
    rewrite run_bind, run_get, Htop; simpl.
  - rewrite bool_decide_eq_true_2 by done. by rewrite run_emitError.
  - reflexivity.
Qed.

(** The instance of C4 for a function of two empty blocks: it is refused
    under the inline policy and translated under the declare-at-top
    policy. *)
Lemma printOperation_FuncOp_multiple_blocks_witness :
  let blocks : list Block := [mkBlock 0 [] [] []; mkBlock 1 [] [] [0]] in
  let f := func_FuncOp "f" [] blocks in
  1 < length blocks
  /\ emitOperation f false (CppEmitter_new [] false) =
     Some (Failure,
           diagnosed (CppEmitter_new [] false)
             "with multiple blocks needs variables declared at top")
  /\ (fun p => (p.1, streamText (os p.2), diagnostics p.2)) <$>
       emitOperation f false (CppEmitter_new [] true) =
     Some (Success,
           "void f() {" +:+ nl +:+ "label2:" +:+ nl +:+ "}" +:+ nl +:+ nl,
           []).
Proof.
  intros blocks f.
  assert (1 < length blocks) as Hblocks by (simpl; lia).
  split; [exact Hblocks|]. split.
  - exact (proj1 (printOperation_FuncOp_multiple_blocks "f" [] blocks false
                    (CppEmitter_new [] false) Hblocks) eq_refl).
  - unfold f.
    rewrite (proj2 (printOperation_FuncOp_multiple_blocks "f" [] blocks false
                      (CppEmitter_new [] true) Hblocks) eq_refl).
    vm_compute. reflexivity.
Defined.
(** Inside a scope a block always gets a label, and nothing is printed for
    it. *)
Lemma getOrCreateLabel_total block st scope outer top below :
  blockMapper st = scope :: outer ->
  labelInScopeCount st = top :: below ->
  exists label st',
    getOrCreateLabel block st = Some (label, st')
    /\ ScopedHashTable_begin block (blockMapper st') = Some label
    /\ os st' = os st
    /\ (exists scope' top',
          blockMapper st' = scope' :: outer
          /\ labelInScopeCount st' = top' :: below).
Proof.
  intros Eb Ec.
  destruct (ScopedHashTable_begin block (blockMapper st)) as [label|] eqn:E.
  - exists label, st. rewrite (getOrCreateLabel_bound _ label) by done.
    repeat split; [done|]. by exists scope, top.
  - unfold getOrCreateLabel. rewrite run_bind, run_hasBlockLabel.
    rewrite (proj2 (count_false _ _)) by done. simpl.
    rewrite run_bind. unfold insertBlockLabel. rewrite Ec, Eb. simpl.
    rewrite run_bind, run_get. simpl. rewrite lookup_insert_eq.
    eexists _, _. split; [reflexivity|]. simpl.
    rewrite lookup_insert_eq. repeat split. by eexists _, _.
Qed.

(** Inside a scope the label pass returns, prints nothing and leaves every
    block of the body with a label. *)
Lemma createLabels_spec (blocks : list Block) st scope outer top below :
  blockMapper st = scope :: outer ->
  labelInScopeCount st = top :: below ->
  exists st',
    createLabels blocks st = Some (tt, st')
    /\ os st' = os st
    /\ forall block, block ∈ blocks ->
         is_Some (ScopedHashTable_begin (blockId block) (blockMapper st')).
Proof.
  revert st scope top.
  induction blocks as [|block blocks IH]; intros st scope top Eb Ec.
  { exists st. split; [done|]. split; [done|]. by intros block ?%elem_of_nil. }
  destruct (getOrCreateLabel_total (blockId block) st scope outer top below
              Eb Ec)
    as (label & st1 & E1 & Hlabel & Hos1 & scope1 & top1 & Eb1 & Ec1).
  destruct (IH st1 scope1 top1 Eb1 Ec1) as (st' & E' & Hos' & Hall).
  exists st'. unfold createLabels in *. cbn [forEach].
  rewrite run_bind, run_bind, E1. simpl. rewrite ?run_ret. simpl.
  rewrite E'.
  split; [done|]. split; [congruence|].
  intros block' [->|Hin]%elem_of_cons; [|by apply Hall].
  assert (guarantees nested (createLabels blocks)) as Hnested.
  { apply (Phi_createLabels _ nested_closed). }
  destruct (Hnested _ _ _ E') as (_ & Hkept & _).
  rewrite (scopesKept_begin _ _ _ _ Hkept Hlabel). by eexists.
Qed.

(** ** 16. Scopes *)

Lemma getOrCreateName_begin val name st st' :
  definingLiteral val = None ->
  getOrCreateName val st = Some (name, st') ->
  ScopedHashTable_begin val (valueMapper st') = Some name.
Proof.
  intros Hlit
    [[E _]|[(_ & Hname & ->)|(_ & _ & scope & outer & top & below
                              & _ & _ & _ & ->)]]%getOrCreateName_inv.
  - congruence.
  - done.
  - cbn [valueMapper]. by rewrite begin_insert, decide_True.
Qed.

Lemma getOrCreateLabel_begin block label st st' :
  getOrCreateLabel block st = Some (label, st') ->
  ScopedHashTable_begin block (blockMapper st') = Some label.
Proof.
  intros [[Hlabel ->]|(_ & scope & outer & top & below
                       & _ & _ & _ & ->)]%getOrCreateLabel_inv.
  - done.
  - cbn [blockMapper]. by rewrite begin_insert, decide_True.
Qed.

(** C2 as the code has it, at any point of a translation (the names being
    consistent with the counters, as they are from the start and stay):
    the names visible in the open scopes are pairwise distinct; entering a
    scope copies both counters; emitting an operation or asking for a name
    leaves the enclosing scopes and counters alone, keeps every name given
    and never decreases the current counters; a name or label handed out
    belongs to no other visible value or block; and leaving a scope
    discards its bindings together with its counters, so that the tables
    and counters are exactly those at entry. *)
Theorem scope_discipline (st : CppEmitter) :
  namesConsistent st ->
  (forall val1 val2 name,
     ScopedHashTable_begin val1 (valueMapper st) = Some name ->
     ScopedHashTable_begin val2 (valueMapper st) = Some name ->
     val1 = val2)
  /\ (forall block1 block2 label,
        ScopedHashTable_begin block1 (blockMapper st) = Some label ->
        ScopedHashTable_begin block2 (blockMapper st) = Some label ->
        block1 = block2)
  /\ (forall u st',
        enterScope st = Some (u, st') ->
        namesConsistent st'
        /\ valueMapper st' = ∅ :: valueMapper st
        /\ blockMapper st' = ∅ :: blockMapper st
        /\ exists v vs l ls,
             valueInScopeCount st = v :: vs
             /\ labelInScopeCount st = l :: ls
             /\ valueInScopeCount st' = v :: v :: vs
             /\ labelInScopeCount st' = l :: l :: ls)
  /\ (forall op trailingSemicolon r st',
        emitOperation op trailingSemicolon st = Some (r, st') ->
        nested st st' /\ namesConsistent st')
  /\ (forall val name st',
        getOrCreateName val st = Some (name, st') ->
        nested st st' /\ namesConsistent st'
        /\ (definingLiteral val = None ->
            forall val',
              ScopedHashTable_begin val' (valueMapper st') = Some name ->
              val' = val))
  /\ (forall block label st',
        getOrCreateLabel block st = Some (label, st') ->
        nested st st' /\ namesConsistent st'
        /\ forall block',
             ScopedHashTable_begin block' (blockMapper st') = Some label ->
             block' = block)
  /\ (forall A (m : M A) a st',
        guarantees nested m ->
        withScope m st = Some (a, st') ->
        restored st st' /\ namesConsistent st').
Proof.
  intros Hst. split; [|split; [|split; [|split; [|split; [|split]]]]].
  - intros val1 val2 name. apply (consistent_injective _ _ _ _ _ _ (proj1 Hst)).
  - intros b1 b2 label. apply (consistent_injective _ _ _ _ _ _ (proj2 Hst)).
  - intros u st' E. split; [by eapply namesConsistent_enterScope|].
    apply enterScope_inv in E as (v & vs & l & ls & Ev & El & ->).
    split; [done|]. split; [done|]. by exists v, vs, l, ls.
  - intros op ts r st' E. split; [by eapply nested_emitOperation|].
    by eapply namesConsistent_emitOperation.
  - intros val name st' E. split; [by eapply nested_getOrCreateName|].
    assert (namesConsistent st') as Hst'
      by (by eapply namesConsistent_getOrCreateName).
    split; [done|]. intros Hlit val' Hname.
    apply (consistent_injective _ _ _ _ _ _ (proj1 Hst') Hname).
    by eapply getOrCreateName_begin.
  - intros block label st' E. split; [by eapply nested_getOrCreateLabel|].
    assert (namesConsistent st') as Hst'
      by (by eapply namesConsistent_getOrCreateLabel).
    split; [done|]. intros block' Hlabel.
    apply (consistent_injective _ _ _ _ _ _ (proj2 Hst') Hlabel).
    by eapply getOrCreateLabel_begin.
  - intros A m a st' Hm E.
    assert (restored st st') as Hrestored by (by eapply restored_withScope).
    split; [done|]. destruct Hrestored as (Ev & Eb & Evc & Elc).
    unfold namesConsistent. by rewrite Ev, Eb, Evc, Elc.
Qed.

(** The instance of C2 inside a scope that has named one value: a second
    value gets the next name, the first keeps its own, and the names in the
    table stay pairwise distinct. *)
Lemma scope_discipline_witness :
  let x := {| valueImpl := 1; definingLiteral := None |} in
  let y := {| valueImpl := 2; definingLiteral := None |} in
  let st :=
    mkCppEmitter [] false [{[x := "v1"]}] [∅] [1%Z; 0%Z] [0%Z; 0%Z] [] in
  let st' :=
    mkCppEmitter [] false [<[y := "v2"]> {[x := "v1"]}] [∅] [2%Z; 0%Z]
      [0%Z; 0%Z] [] in
  namesConsistent st
  /\ getOrCreateName y st = Some ("v2", st')
  /\ nested st st'
  /\ namesConsistent st'
  /\ ScopedHashTable_begin x (valueMapper st') = Some "v1"
  /\ (forall val,
        ScopedHashTable_begin val (valueMapper st') = Some "v2" -> val = y)
  /\ (forall val1 val2 name,
        ScopedHashTable_begin val1 (valueMapper st') = Some name ->
        ScopedHashTable_begin val2 (valueMapper st') = Some name ->
        val1 = val2).
Proof.
  intros x y st st'.
  assert (namesConsistent st) as Hst.
  { apply (namesConsistent_getOrCreateName x
             (mkCppEmitter [] false [∅] [∅] [0%Z; 0%Z] [0%Z; 0%Z] []) "v1" st);
      [vm_compute; reflexivity|].
    apply (namesConsistent_enterScope (CppEmitter_new [] false) tt);
      [reflexivity|apply namesConsistent_new]. }
  assert (getOrCreateName y st = Some ("v2", st')) as E
    by (vm_compute; reflexivity).
  destruct (proj1 (proj2 (proj2 (proj2 (proj2 (scope_discipline st Hst)))))
              y "v2" st' E) as (Hnested & Hst' & Hfresh).
  split; [exact Hst|]. split; [exact E|]. split; [exact Hnested|].
  split; [exact Hst'|]. split; [vm_compute; reflexivity|].
  split; [exact (Hfresh eq_refl)|].
  exact (proj1 (scope_discipline st' Hst')).
Defined.

(** C2 as stated does not hold: leaving a scope pops the counters, so the
    next scope starts counting where the enclosing scope stood.  Two
    different values named in two successive scopes both get [v1], and a
    module of two functions names the parameter of each [v1]. *)
Lemma name_minted_twice :
  let a := {| valueImpl := 1; definingLiteral := None |} in
  let b := {| valueImpl := 2; definingLiteral := None |} in
  let i32 := IntegerType 32 Signless in
  let f name (x : Value) :=
    func_FuncOp name []
      [mkBlock 0 [{| argValue := x; argType := i32; getArgNumber := 0 |}]
         [func_ReturnOp [] []] []] in
  a <> b
  /\ fst <$>
       (n1 ← withScope (withScope (getOrCreateName a));
        n2 ← withScope (withScope (getOrCreateName b));
        ret (n1, n2)) (CppEmitter_new [] false) = Some ("v1", "v1")
  /\ (fun p => (p.1, streamText (os p.2))) <$>
       translateToCpp (ModuleOp [f "f" a; f "g" b]) [] false =
     Some (Success,
           "void f(int32_t v1) {" +:+ nl +:+ "return;" +:+ nl +:+ "}" +:+ nl
           +:+ nl
           +:+ "void g(int32_t v1) {" +:+ nl +:+ "return;" +:+ nl +:+ "}"
           +:+ nl +:+ nl +:+ nl).
Proof. split; [done|]. split; vm_compute; reflexivity. Qed.

(** ** 17. Two translations in full *)

(** A single-block function adding its two parameters, under the inline
    policy: signature, one declaration with assignment, one return. *)
Example translate_add :
  let i32 := IntegerType 32 Signless in
  let v n := {| valueImpl := n; definingLiteral := None |} in
  let arg n k := {| argValue := v n; argType := i32; getArgNumber := k |} in
  let f :=
    func_FuncOp "f" [i32]
      [mkBlock 0 [arg 1 0%N; arg 2 1%N]
         [emitc_AddOp {| resultValue := v 3; resultType := i32 |} (v 1) (v 2);
          func_ReturnOp [v 3] []]
         []] in
  (fun p => (p.1, streamText (os p.2), diagnostics p.2)) <$>
    translateToCpp (ModuleOp [f]) [] false =
  Some (Success,
        "int32_t f(int32_t v1, int32_t v2) {" +:+ nl
        +:+ "int32_t v3 = v1 + v2;" +:+ nl
        +:+ "return v3;" +:+ nl
        +:+ "}" +:+ nl +:+ nl +:+ nl,
        []).
Proof. vm_compute. reflexivity. Qed.

(** A conditional branch to two blocks with one argument each, under the
    declare-at-top policy: the labels are those given by the label pass, and
    the label lines follow for the two targets. *)
Example translate_cond_br :
  let i1 := IntegerType 1 Signless in
  let i32 := IntegerType 32 Signless in
  let v n := {| valueImpl := n; definingLiteral := None |} in
  let arg n ty k := {| argValue := v n; argType := ty; getArgNumber := k |} in
  let target b n := {| successorBlock := b; successorArguments := [v n] |} in
  let f :=
    func_FuncOp "g" []
      [mkBlock 0 [arg 1 i1 0%N; arg 2 i32 1%N]
         [cf_CondBranchOp (v 1) [v 2] [v 2] (target 1 3) (target 2 4)] [];
       mkBlock 1 [arg 3 i32 0%N] [func_ReturnOp [] []] [0];
       mkBlock 2 [arg 4 i32 0%N] [func_ReturnOp [] []] [0]] in
  (fun p => (p.1, streamText (os p.2), diagnostics p.2)) <$>
    translateToCpp (ModuleOp [f]) [] true =
  Some (Success,
        "void g(bool v1, int32_t v2) {" +:+ nl
        +:+ "int32_t v3;" +:+ nl
        +:+ "int32_t v4;" +:+ nl
        +:+ "if (v1) {" +:+ nl
        +:+ "v3 = v2;" +:+ nl
        +:+ "goto label2;" +:+ nl
        +:+ "} else {" +:+ nl
        +:+ "v4 = v2;" +:+ nl
        +:+ "goto label3;" +:+ nl
        +:+ "}" +:+ nl
        +:+ "label2:" +:+ nl
        +:+ "return;" +:+ nl
        +:+ "label3:" +:+ nl
        +:+ "return;" +:+ nl
        +:+ "}" +:+ nl +:+ nl +:+ nl,
        []).
Proof. vm_compute. reflexivity. Qed.

(** ** 18. Spellings *)

Lemma string_app_nil_r (s : string) : s +:+ EmptyString = s.
Proof.
  induction s as [|c s IH]; [reflexivity|].
  change (String c (s +:+ EmptyString) = String c s). by rewrite IH.
Qed.

Lemma streamText_write s ops :
  streamText (OsWrite s :: ops) = s +:+ streamText ops.
Proof. reflexivity. Qed.

Lemma streamText_nil : streamText [] = EmptyString.
Proof. reflexivity. Qed.

Lemma commaJoin_cons x l :
  commaJoin (x :: l) =
  x +:+ foldr (fun s rest => ", " +:+ s +:+ rest) EmptyString l.
Proof.
  revert x. induction l as [|y l IH]; intros x.
  - simpl. by rewrite string_app_nil_r.
  - change (commaJoin (x :: y :: l)) with (x +:+ ", " +:+ commaJoin (y :: l)).
    by rewrite IH.
Qed.

(** Sequencing two steps that print: the texts are concatenated, and the
    first failure is the failure of the sequence. *)
Lemma andThen_prints diags m k s1 s2 st :
  prints diags m s1 st ->
  (forall ops, prints diags k s2 (printed st ops [])) ->
  prints diags (m >>? k)
    (text1 ← s1; text2 ← s2; Some (text1 +:+ text2)) st.
Proof.
  intros Hm Hk. destruct s1 as [text1|]; simpl.
  - destruct Hm as (ops1 & E1 & <-). specialize (Hk ops1).
    destruct s2 as [text2|]; simpl.
    + destruct Hk as (ops2 & E2 & <-). exists (ops1 ++ ops2).
      rewrite run_andThen, E1, E2, printed_printed.
      by rewrite streamText_app.
    + destruct Hk as (ops2 & msg & Hmsg & E2). exists (ops1 ++ ops2), msg.
      split; [done|]. by rewrite run_andThen, E1, E2, printed_printed.
  - destruct Hm as (ops1 & msg & Hmsg & E1). exists ops1, msg.
    split; [done|]. by rewrite run_andThen, E1.
Qed.

Lemma write_then_prints diags s k spelling st :
  (forall ops, prints diags k spelling (printed st ops [])) ->
  prints diags (write s;; k) ((fun text => s +:+ text) <$> spelling) st.
Proof.
  intros Hk. specialize (Hk [OsWrite s]).
  rewrite <-emitted_printed in Hk.
  destruct spelling as [text|]; simpl.
  - destruct Hk as (ops & E & <-). exists (OsWrite s :: ops).
    rewrite run_bind, run_write, E.
    by rewrite emitted_printed, printed_printed.
  - destruct Hk as (ops & msg & Hmsg & E). exists (OsWrite s :: ops), msg.
    split; [done|]. rewrite run_bind, run_write, E.
    by rewrite emitted_printed, printed_printed.
Qed.

Lemma ret_prints diags st :
  prints diags (ret (success true)) (Some EmptyString) st.
Proof. exists []. by rewrite printed_nil. Qed.

(** Find a message in a list of diagnostics. *)
Ltac in_diags :=
  unfold attributeDiagnostics, typeDiagnostics;
  repeat first [apply list_elem_of_here | apply list_elem_of_further].

Lemma emitError_prints diags msg st :
  msg ∈ diags -> prints diags (emitError msg) None st.
Proof.
  intros Hmsg. exists [], msg. split; [done|].
  by rewrite run_emitError, diagnosed_printed.
Qed.

Section InterleavePrints.
Context {A : Type} (diags : list string).
Context (eachFn : A -> M LogicalResult) (spell : A -> option string).
Context (Q : CppEmitter -> Prop).
Hypothesis Q_printed : forall st ops msgs, Q st -> Q (printed st ops msgs).

Lemma interleaveRest_prints l :
  list_all A (fun x => forall st, Q st -> prints diags (eachFn x) (spell x) st) l ->
  forall st, Q st ->
  prints diags (interleaveRestWithError eachFn (write ", ") l)
    (foldr (fun s rest => ", " +:+ s +:+ rest) EmptyString
       <$> mapM spell l) st.
Proof using Q_printed.
  intros Hl. induction Hl as [|x Hx l Hl IH]; intros st HQ.
  { apply ret_prints. }
  cbn [interleaveRestWithError mapM].
  pose proof (write_then_prints diags ", "
                (eachFn x >>? interleaveRestWithError eachFn (write ", ") l)
                (text1 ← spell x;
                 text2 ← foldr (fun s rest => ", " +:+ s +:+ rest)
                           EmptyString <$> mapM spell l;
                 Some (text1 +:+ text2)) st) as Hstep.
  assert (prints diags (write ", ";;
                  (eachFn x >>?
                   interleaveRestWithError eachFn (write ", ") l))
            ((fun text => ", " +:+ text) <$>
               (text1 ← spell x;
                text2 ← foldr (fun s rest => ", " +:+ s +:+ rest)
                          EmptyString <$> mapM spell l;
                Some (text1 +:+ text2))) st) as Hprints.
  { apply Hstep. intros ops. apply andThen_prints.
    - apply Hx. by apply Q_printed.
    - intros ops'. apply IH. by do 2 apply Q_printed. }
  destruct (spell x) as [text1|]; [|exact Hprints].
  simpl in *. destruct (mapM spell l) as [texts|]; exact Hprints.
Qed.

Lemma interleaveCommaWithError_prints l :
  list_all A (fun x => forall st, Q st -> prints diags (eachFn x) (spell x) st) l ->
  forall st, Q st ->
  prints diags (interleaveCommaWithError l eachFn) (commaJoin <$> mapM spell l) st.
Proof using Q_printed.
  intros Hl st HQ. destruct Hl as [|x Hx l Hl]; [apply ret_prints|].
  unfold interleaveCommaWithError, interleaveWithError. cbn [mapM].
  pose proof (andThen_prints diags (eachFn x)
                (interleaveRestWithError eachFn (write ", ") l)
                (spell x)
                (foldr (fun s rest => ", " +:+ s +:+ rest) EmptyString
                   <$> mapM spell l) st (Hx st HQ)) as Hstep.
  assert (forall ops,
            prints diags (interleaveRestWithError eachFn (write ", ") l)
              (foldr (fun s rest => ", " +:+ s +:+ rest) EmptyString
                 <$> mapM spell l) (printed st ops [])) as Hrest.
  { intros ops. apply interleaveRest_prints; [done|]. by apply Q_printed. }
  specialize (Hstep Hrest).
  destruct (spell x) as [text1|]; [|exact Hstep].
  cbn -[commaJoin] in *. destruct (mapM spell l) as [texts|]; [|exact Hstep].
  cbn -[commaJoin] in *. by rewrite commaJoin_cons.
Qed.
End InterleavePrints.

Lemma prints_ext diags m spelling spelling' st :
  spelling = spelling' -> prints diags m spelling st -> prints diags m spelling' st.
Proof. by intros ->. Qed.

Lemma dims_prints diags (shape : list Z) st :
  prints diags
    (forEach (fun dimSize : Z => write ", ";; write (pretty dimSize)) shape;;
     write ">";; ret (success true))
    (Some (foldr (fun dimSize rest => ", " +:+ pretty dimSize +:+ rest)
             ">" shape)) st.
Proof.
  revert st. induction shape as [|d shape IH]; intros st.
  - cbn [forEach foldr]. exists [OsWrite ">"]. split; [|reflexivity].
    run. by rewrite emitted_printed.
  - destruct (IH (emitted st [OsWrite ", "; OsWrite (pretty d)]))
      as (ops & E & Htext).
    exists (OsWrite ", " :: OsWrite (pretty d) :: ops). split.
    + cbn [forEach]. run. rewrite run_bind in E.
      destruct (forEach _ shape _) as [[[] st1]|]; [|done].
      rewrite E. by rewrite emitted_printed, printed_printed.
    + cbn [foldr]. by rewrite !streamText_write, Htext.
Qed.

Lemma emitType_prints type st :
  prints typeDiagnostics (emitType type) (typeSpelling type) st.
Proof.
  revert st.
  induction type as [width s|width| |shape elt IH|elt IH|types IH|v|p IH|m];
    intros st; cbn [emitType typeSpelling].
  - destruct (width =? 1)%N.
    { exists [OsWrite "bool"]. split; [|reflexivity].
      run. by rewrite emitted_printed. }
    destruct ((width =? 8) || (width =? 16) || (width =? 32)
              || (width =? 64))%N; [|(apply emitError_prints; in_diags)].
    destruct (shouldMapToUnsigned s).
    + exists [OsWrite "uint"; OsWrite (pretty width); OsWrite "_t"].
      split; [run; by rewrite emitted_printed|].
      by rewrite !streamText_write, streamText_nil.
    + exists [OsWrite "int"; OsWrite (pretty width); OsWrite "_t"].
      split; [run; by rewrite emitted_printed|].
      by rewrite !streamText_write, streamText_nil.
  - destruct (width =? 32)%N.
    { exists [OsWrite "float"]. split; [|reflexivity].
      run. by rewrite emitted_printed. }
    destruct (width =? 64)%N; [|(apply emitError_prints; in_diags)].
    exists [OsWrite "double"]. split; [|reflexivity].
    run. by rewrite emitted_printed.
  - exists [OsWrite "size_t"]. split; [|reflexivity].
    run. by rewrite emitted_printed.
  - destruct (hasStaticShape shape); simpl negb; cbv iota;
      [|(apply emitError_prints; in_diags)].
    eapply prints_ext; [|apply write_then_prints; intros ops;
                         apply andThen_prints;
                         [apply IH|intros ops'; apply dims_prints]].
    by destruct (typeSpelling elt).
  - (apply emitError_prints; in_diags).
  - unfold emitTupleTypeWith.
    eapply prints_ext;
      [|apply write_then_prints; intros ops; apply andThen_prints;
        [apply (interleaveCommaWithError_prints typeDiagnostics emitType
                  typeSpelling (fun _ => True)); [done| |done]
        |intros ops';
         apply (write_then_prints _ ">" (ret (success true))
                  (Some EmptyString));
         intros ops''; apply ret_prints]].
    + by destruct (mapM typeSpelling types).
    + revert IH. apply list_all_impl. auto.
  - exists [OsWrite v]. split; [run; by rewrite emitted_printed|].
    by rewrite streamText_write, streamText_nil, string_app_nil_r.
  - eapply prints_ext;
      [|apply andThen_prints;
        [apply IH
        |intros ops;
         apply (write_then_prints _ "*" (ret (success true))
                  (Some EmptyString));
         intros ops'; apply ret_prints]].
    by destruct (typeSpelling p).
  - (apply emitError_prints; in_diags).
Qed.

Lemma writes_write s st : writes (write s) s st.
Proof.
  exists [OsWrite s]. split; [by rewrite run_write, emitted_printed|].
  by rewrite streamText_write, streamText_nil, string_app_nil_r.
Qed.

Lemma writes_ret st : writes (ret tt) EmptyString st.
Proof. exists []. by rewrite printed_nil. Qed.

Lemma writes_bind (m k : M unit) s1 s2 st :
  writes m s1 st -> (forall ops, writes k s2 (printed st ops [])) ->
  writes (m;; k) (s1 +:+ s2) st.
Proof.
  intros (ops1 & E1 & <-) Hk. destruct (Hk ops1) as (ops2 & E2 & <-).
  exists (ops1 ++ ops2). rewrite run_bind, E1, E2, printed_printed.
  by rewrite streamText_app.
Qed.

(** A step that cannot fail followed by a printer. *)
Lemma writes_then_prints diags (m : M unit) k s spelling st :
  writes m s st ->
  (forall ops, prints diags k spelling (printed st ops [])) ->
  prints diags (m;; k) ((fun text => s +:+ text) <$> spelling) st.
Proof.
  intros (ops1 & E1 & <-) Hk. specialize (Hk ops1).
  destruct spelling as [text|]; simpl.
  - destruct Hk as (ops & E & <-). exists (ops1 ++ ops).
    rewrite run_bind, E1, E, printed_printed. by rewrite streamText_app.
  - destruct Hk as (ops & msg & Hmsg & E). exists (ops1 ++ ops), msg.
    split; [done|]. by rewrite run_bind, E1, E, printed_printed.
Qed.

Lemma writes_forEach {A} (f : A -> M unit) (spell : A -> string) l st :
  (forall x st, writes (f x) (spell x) st) ->
  writes (forEach f l) (foldr (fun x rest => spell x +:+ rest) EmptyString l)
    st.
Proof.
  intros Hf. revert st. induction l as [|x l IH]; intros st.
  - apply writes_ret.
  - cbn [forEach foldr]. apply writes_bind; [apply Hf|]. intros ops. apply IH.
Qed.

Lemma writes_interleaveComma {A} (eachFn : A -> M unit) (spell : A -> string)
    l st :
  (forall x st, writes (eachFn x) (spell x) st) ->
  writes (interleaveComma l eachFn) (commaJoin (map spell l)) st.
Proof.
  intros Hf. destruct l as [|x l]; [apply writes_ret|].
  cbn [interleaveComma map]. rewrite commaJoin_cons.
  apply writes_bind; [apply Hf|]. intros ops.
  assert (foldr (fun s rest => ", " +:+ s +:+ rest) EmptyString (map spell l)
          = foldr (fun y rest => (", " +:+ spell y) +:+ rest) EmptyString l)
    as ->.
  { induction l as [|y l IH]; [reflexivity|]. cbn [map foldr].
    by rewrite IH, string_app_assoc. }
  apply writes_forEach. intros y st'.
  apply writes_bind; [apply writes_write|]. intros ops'. apply Hf.
Qed.

Lemma printInt_writes val isUnsigned st :
  writes (printInt val isUnsigned) (intSpelling val isUnsigned) st.
Proof.
  unfold printInt, intSpelling.
  destruct (getBitWidth val =? 1)%N; [destruct (getBoolValue val)|];
    apply writes_write.
Qed.

Lemma printFloat_writes val st : writes (printFloat val) (floatSpelling val) st.
Proof.
  unfold printFloat, floatSpelling, isFinite, isNaN, isInfinity.
  destruct (category val); simpl.
  - apply writes_bind; [|intros; apply writes_write].
    destruct (isNegative val); [apply writes_write|apply writes_ret].
  - apply writes_write.
  - apply writes_bind; [|intros; apply writes_write].
    destruct (getSemantics val);
      first [apply writes_write|apply writes_ret].
  - apply writes_bind; [|intros; apply writes_write].
    destruct (getSemantics val);
      first [apply writes_write|apply writes_ret].
Qed.

Lemma writes_prints diags (m : M unit) text st :
  writes m text st -> prints diags (m;; ret (success true)) (Some text) st.
Proof.
  intros Hm.
  eapply prints_ext;
    [|apply (writes_then_prints diags m _ text (Some EmptyString));
      [done|intros; apply ret_prints]].
  simpl. by rewrite string_app_nil_r.
Qed.

Lemma braces_prints diags (m : M unit) text st :
  (forall st, writes m text st) ->
  prints diags (write "{";; m;; write "}";; ret (success true))
    (Some ("{" +:+ text +:+ "}")) st.
Proof.
  intros Hm.
  eapply prints_ext;
    [|apply write_then_prints; intros ops;
      apply (writes_then_prints diags m _ text); [apply Hm|];
      intros ops'; apply (writes_prints _ (write "}") "}");
      apply writes_write].
  reflexivity.
Qed.

Lemma prints_weaken diags diags' m spelling st :
  diags ⊆ diags' -> prints diags m spelling st -> prints diags' m spelling st.
Proof.
  intros Hsub. destruct spelling as [text|]; [done|].
  intros (ops & msg & Hmsg & E). exists ops, msg. split; [|done].
  by apply Hsub.
Qed.

Lemma emitAttribute_prints attr st :
  castsToTensor attr = true ->
  prints attributeDiagnostics (emitAttribute attr) (attributeSpelling attr)
    st.
Proof.
  intros Hcast.
  destruct attr as [v|vs|ty v|ty vs|v|root nested|ty|m];
    cbn [emitAttribute attributeSpelling].
  - apply writes_prints, printFloat_writes.
  - apply braces_prints. intros st'.
    by apply writes_interleaveComma, printFloat_writes.
  - destruct ty; try (apply emitError_prints; in_diags);
      apply writes_prints, printInt_writes.
  - cbn [castsToTensor] in Hcast. apply bool_decide_eq_true in Hcast.
    destruct (castTensorElementType ty) as [elt|]; [|by destruct Hcast].
    destruct elt; try (apply emitError_prints; in_diags);
      apply braces_prints; intros st';
      apply (writes_interleaveComma _ (fun val => intSpelling val _));
      intros; apply printInt_writes.
  - apply writes_prints, writes_write.
  - destruct (bool_decide _); [(apply emitError_prints; in_diags)|].
    apply writes_prints, writes_write.
  - eapply prints_weaken; [|apply emitType_prints].
    intros msg Hmsg. by do 2 apply list_elem_of_further.
  - (apply emitError_prints; in_diags).
Qed.

(** ** 19. Names and operands *)

Lemma writeName_visible val name st :
  visibleName (valueMapper st) val = Some name ->
  writeName val st = Some (tt, emitted st [OsWrite name]).
Proof.
  unfold visibleName, writeName. intros Hname. rewrite run_bind.
  destruct (definingLiteral val) as [literal|] eqn:Hlit.
  - injection Hname as <-. by rewrite (getOrCreateName_literal _ literal).
  - by rewrite (getOrCreateName_bound _ name).
Qed.

Lemma emitOperand_prints vm val st :
  valueMapper st = vm ->
  prints ["operand value not in scope"]
    (bound ← hasValueInScope val;
     if negb (bool_decide (is_Some (definingLiteral val))) && negb bound
     then emitError "operand value not in scope"
     else writeName val;; ret (success true))
    (visibleName vm val) st.
Proof.
  intros <-. unfold prints. rewrite run_bind, run_hasValueInScope.
  destruct (visibleName (valueMapper st) val) as [name|] eqn:Hname.
  - assert (negb (bool_decide (is_Some (definingLiteral val)))
            && negb (ScopedHashTable_count val (valueMapper st)) = false)
      as ->.
    { unfold visibleName in Hname.
      destruct (definingLiteral val) as [literal|]; [done|].
      rewrite (proj2 (count_true _ _)); [|by rewrite Hname].
      by rewrite andb_false_r. }
    exists [OsWrite name].
    rewrite run_bind, (writeName_visible _ name) by done.
    split; [by rewrite run_ret, emitted_printed|].
    by rewrite streamText_write, streamText_nil, string_app_nil_r.
  - unfold visibleName in Hname.
    destruct (definingLiteral val) as [literal|]; [done|].
    rewrite (proj2 (count_false _ _)) by done. simpl.
    exists [], "operand value not in scope". split; [in_diags|].
    by rewrite run_emitError, diagnosed_printed.
Qed.

Lemma emitOperands_prints operands st :
  prints ["operand value not in scope"] (emitOperands operands)
    (commaJoin <$> mapM (visibleName (valueMapper st)) operands) st.
Proof.
  unfold emitOperands.
  apply (interleaveCommaWithError_prints _ _ _
           (fun st' => valueMapper st' = valueMapper st)); [done| |done].
  apply list_all_intro. intros val st' Hst'. by apply emitOperand_prints.
Qed.

(** X1: [emitOperands] prints the visible names of the operands separated
    by commas and succeeds exactly when every operand is a literal or has a
    name in scope; otherwise it fails with "operand value not in scope".
    It never gives a value a name: the name tables and counters are as
    before in both cases. *)
Theorem emitOperands_spelling (operands : list Value) (st : CppEmitter) :
  prints ["operand value not in scope"] (emitOperands operands)
    (commaJoin <$> mapM (visibleName (valueMapper st)) operands) st.
Proof. apply emitOperands_prints. Qed.

(** X2: the type printer against the spelling of a type.  For a type
    with a spelling [emitType] succeeds, writes exactly the spelling and
    reports nothing; for any other type it fails and reports one of its
    five diagnostics.  It never runs into undefined behaviour and never
    touches the name tables.  [emitTupleType] is the printer of the tuple
    of its types, and [emitTypes] prints [void], the only type, or the
    tuple. *)
Theorem emitType_spelling (type : Type_) (types : list Type_)
    (st : CppEmitter) :
  prints typeDiagnostics (emitType type) (typeSpelling type) st
  /\ prints typeDiagnostics (emitTupleType types)
       (typeSpelling (TupleType types)) st
  /\ prints typeDiagnostics (emitTypes types)
       match types with
       | [] => Some "void"
       | [only] => typeSpelling only
       | _ => typeSpelling (TupleType types)
       end st.
Proof.
  split; [apply emitType_prints|]. split.
  - apply (emitType_prints (TupleType types)).
  - destruct types as [|only [|second types]].
    + exists [OsWrite "void"]. split; [|reflexivity].
      unfold emitTypes. run. by rewrite emitted_printed.
    + apply emitType_prints.
    + apply (emitType_prints (TupleType (only :: second :: types))).
Qed.

(** X3: the attribute printer against the spelling of an attribute.
    Booleans print [true] or [false], other integers their decimal numeral,
    dense collections a brace-enclosed comma-separated list of their
    elements, an opaque attribute its text, a symbol reference with at most
    one nested reference its root alone, a type attribute the spelling of
    the type; an integer attribute whose type is neither an integer nor the
    index type, a symbol reference with more than one nested reference and
    every other attribute fail with one diagnostic.  The name tables are
    never touched.  The one attribute without a result is a dense integer
    attribute whose type is not a tensor type (a vector type): there the
    cast to [TensorType] asserts, before anything is printed or
    reported. *)
Theorem emitAttribute_spelling (attr : Attribute) (st : CppEmitter) :
  if castsToTensor attr
  then prints attributeDiagnostics (emitAttribute attr)
         (attributeSpelling attr) st
  else emitAttribute attr st = None.
Proof.
  destruct (castsToTensor attr) eqn:Hcast; [by apply emitAttribute_prints|].
  destruct attr; try done.
  cbn [castsToTensor] in Hcast. apply bool_decide_eq_false in Hcast.
  cbn [emitAttribute].
  destruct (castTensorElementType type) as [elt|]; [|done].
  destruct Hcast. by exists elt.
Qed.

Lemma visibleName_getOrCreateName val name st st' :
  getOrCreateName val st = Some (name, st') ->
  visibleName (valueMapper st') val = Some name.
Proof.
  unfold visibleName.
  intros [[E ->]|[(E & Hname & ->)|(E & _ & scope & outer & top & below
                                    & _ & _ & _ & ->)]]%getOrCreateName_inv;
    rewrite E; [done..|].
  cbn [valueMapper]. by rewrite begin_insert, decide_True.
Qed.

(** X4: asking twice gives the same answer and changes nothing
    the second time.  Once [getOrCreateName] has returned a name for a
    value, that name is the value's visible name, and asking again returns
    it and leaves the emitter as it is; the same holds for the label of a
    block. *)
Theorem getOrCreateName_idempotent (st st' : CppEmitter) :
  (forall val name,
     getOrCreateName val st = Some (name, st') ->
     visibleName (valueMapper st') val = Some name
     /\ getOrCreateName val st' = Some (name, st'))
  /\ (forall block label,
        getOrCreateLabel block st = Some (label, st') ->
        ScopedHashTable_begin block (blockMapper st') = Some label
        /\ getOrCreateLabel block st' = Some (label, st')).
Proof.
  split.
  - intros val name E.
    assert (visibleName (valueMapper st') val = Some name) as Hname
      by (by eapply visibleName_getOrCreateName).
    split; [done|]. unfold visibleName in Hname.
    destruct (definingLiteral val) as [literal|] eqn:Hlit.
    + injection Hname as ->. by apply getOrCreateName_literal.
    + by apply getOrCreateName_bound.
  - intros block label E.
    assert (ScopedHashTable_begin block (blockMapper st') = Some label)
      as Hlabel by (by eapply getOrCreateLabel_begin).
    split; [done|]. by apply getOrCreateLabel_bound.
Qed.

(** The instance of X4 for a first value named in a fresh
    scope. *)
Lemma getOrCreateName_idempotent_witness :
  let val := {| valueImpl := 1; definingLiteral := None |} in
  let st := mkCppEmitter [] false [∅] [∅] [0%Z; 0%Z] [0%Z; 0%Z] [] in
  let st' :=
    mkCppEmitter [] false [<[val := "v1"]> ∅] [∅] [1%Z; 0%Z] [0%Z; 0%Z] [] in
  getOrCreateName val st = Some ("v1", st')
  /\ getOrCreateName val st' = Some ("v1", st').
Proof.
  intros val st st'.
  assert (getOrCreateName val st = Some ("v1", st')) as E
    by (vm_compute; reflexivity).
  split; [exact E|].
  exact (proj2 (proj1 (getOrCreateName_idempotent st st') val "v1" E)).
Defined.

(** ** 20. Declarations and assignments *)

Lemma emitType_Success type st st' :
  emitType type st = Some (Success, st') ->
  exists ops, st' = printed st ops [].
Proof.
  intros E. pose proof (emitType_prints type st) as Hprints.
  destruct (typeSpelling type) as [text|].
  - destruct Hprints as (ops & E' & _). exists ops. congruence.
  - destruct Hprints as (ops & msg & _ & E'). congruence.
Qed.

Lemma emitVariableDeclaration_inv result trailingSemicolon st st1 :
  emitVariableDeclaration result trailingSemicolon st = Some (Success, st1) ->
  ScopedHashTable_begin (resultValue result) (valueMapper st) = None
  /\ exists ops name st0,
       emitType (resultType result) st = Some (Success, printed st ops [])
       /\ getOrCreateName (resultValue result)
            (emitted (printed st ops []) [OsWrite " "]) = Some (name, st0)
       /\ st1 = emitted st0
                  (OsWrite name
                   :: if trailingSemicolon then [OsWrite (";" +:+ nl)]
                      else []).
Proof.
  unfold emitVariableDeclaration.
  rewrite run_bind, run_hasValueInScope.
  destruct (ScopedHashTable_count _ _) eqn:Ecount; [done|].
  apply count_false in Ecount. intros Hrun. split; [done|]. revert Hrun.
  rewrite run_andThen.
  destruct (emitType (resultType result) st) as [[[] st']|] eqn:Etype;
    [|done..].
  destruct (emitType_Success _ _ _ Etype) as (ops & ->).
  unfold writeName. run.
  destruct (getOrCreateName _ _) as [[name st0]|] eqn:Ename; [|done].
  run. intros Hrun. exists ops, name, st0. split; [done|]. split; [done|].
  destruct trailingSemicolon; revert Hrun; run; by intros [= <-].
Qed.

(** X5: a declaration is what makes an assignment possible, once.
    When [emitVariableDeclaration] succeeds for a result that is not a
    literal, the result had no name before (so that an assignment to it was
    refused as not declared), it has one afterwards, an assignment to it now
    succeeds and prints that name followed by [ = ], and declaring it again
    is refused as already declared, with nothing printed. *)
Theorem declaration_then_assignment (result : OpResult)
    (trailingSemicolon : bool) (st st1 : CppEmitter) :
  definingLiteral (resultValue result) = None ->
  emitVariableDeclaration result trailingSemicolon st = Some (Success, st1) ->
  ScopedHashTable_begin (resultValue result) (valueMapper st) = None
  /\ emitVariableAssignment (resultValue result) st =
       Some (Failure,
             diagnosed st
               "result variable for the operation has not been declared")
  /\ exists name,
       ScopedHashTable_begin (resultValue result) (valueMapper st1)
         = Some name
       /\ emitVariableAssignment (resultValue result) st1 =
            Some (Success, emitted st1 [OsWrite name; OsWrite " = "])
       /\ forall again,
            emitVariableDeclaration result again st1 =
            Some (Failure,
                  diagnosed st1
                    "result variable for the operation already declared").
Proof.
  intros Hlit (Hfresh & ops & name & st0 & Etype & Ename & ->)
           %emitVariableDeclaration_inv.
  split; [done|]. split.
  { unfold emitVariableAssignment. rewrite run_bind, run_hasValueInScope.
    by rewrite (proj2 (count_false _ _)). }
  pose proof (visibleName_getOrCreateName _ _ _ _ Ename) as Hname.
  unfold visibleName in Hname. rewrite Hlit in Hname.
  exists name. cbn [valueMapper emitted]. split; [done|]. split.
  - unfold emitVariableAssignment, writeName.
    rewrite run_bind, run_hasValueInScope. cbn [valueMapper emitted].
    rewrite (proj2 (count_true _ _)) by (by rewrite Hname). simpl.
    rewrite !run_bind, (getOrCreateName_bound _ name) by done.
    by run.
  - intros again. unfold emitVariableDeclaration.
    rewrite run_bind, run_hasValueInScope. cbn [valueMapper emitted].
    by rewrite (proj2 (count_true _ _)) by (by rewrite Hname).
Qed.

(** The instance of X5 for a result of type [i32] declared in a
    fresh scope. *)
Lemma declaration_then_assignment_witness :
  let val := {| valueImpl := 1; definingLiteral := None |} in
  let result := {| resultValue := val; resultType := IntegerType 32 Signless |} in
  let st := mkCppEmitter [] true [∅] [∅] [0%Z; 0%Z] [0%Z; 0%Z] [] in
  let st1 :=
    mkCppEmitter
      [OsWrite "int"; OsWrite "32"; OsWrite "_t"; OsWrite " "; OsWrite "v1";
       OsWrite (";" +:+ nl)]
      true [<[val := "v1"]> ∅] [∅] [1%Z; 0%Z] [0%Z; 0%Z] [] in
  emitVariableDeclaration result true st = Some (Success, st1)
  /\ exists name,
       emitVariableAssignment val st1 =
       Some (Success, emitted st1 [OsWrite name; OsWrite " = "]).
Proof.
  intros val result st st1.
  assert (emitVariableDeclaration result true st = Some (Success, st1)) as E
    by (vm_compute; reflexivity).
  split; [exact E|].
  destruct (declaration_then_assignment result true st st1 eq_refl E)
    as (_ & _ & name & _ & Hassign & _).
  exists name. exact Hassign.
Defined.

(** ** 21. Branches and labels *)

Section Guarantees.
Context (G : CppEmitter -> CppEmitter -> Prop) `{!PreOrder G}.

Lemma guarantees_ret {A} (a : A) : guarantees G (ret a).
Proof using All. intros st a' st' [= <- <-]. reflexivity. Qed.

Lemma guarantees_bind {A B} (m : M A) (f : A -> M B) :
  guarantees G m -> (forall a, guarantees G (f a)) -> guarantees G (m ≫= f).
Proof using All.
  intros Hm Hf st b st' (a & st1 & E1 & E2)%bind_Some.
  etrans; [by eapply Hm|by eapply Hf].
Qed.

Lemma guarantees_forEach {A} (f : A -> M unit) l :
  (forall x, guarantees G (f x)) -> guarantees G (forEach f l).
Proof using All.
  intros Hf. induction l; simpl;
    [apply guarantees_ret|apply guarantees_bind; auto].
Qed.

Lemma guarantees_andThen m k :
  guarantees G m -> guarantees G k -> guarantees G (m >>? k).
Proof using All.
  intros Hm Hk. unfold andThen. apply guarantees_bind; [done|].
  intros r. destruct (failed r); [apply guarantees_ret|done].
Qed.

Lemma guarantees_forEachWithError {A} (f : A -> M LogicalResult) l :
  (forall x, guarantees G (f x)) -> guarantees G (forEachWithError f l).
Proof using All.
  intros Hf. induction l; simpl;
    [apply guarantees_ret|apply guarantees_andThen; auto].
Qed.

(** Running a step with a guarantee in front of a continuation. *)
Lemma guarantees_step {A B} (m : M A) (k : M B) st b st' :
  guarantees G m ->
  (m;; k) st = Some (b, st') ->
  exists st1, G st st1 /\ k st1 = Some (b, st').
Proof using Type.
  intros Hm (a & st1 & E1 & E2)%bind_Some. exists st1. split; [|done].
  by eapply Hm.
Qed.
End Guarantees.

#[global] Instance labelsKept_preorder : PreOrder labelsKept.
Proof.
  split; [by intros st|].
  intros st1 st2 st3 [E1 E2] [E3 E4]. split; congruence.
Qed.

Lemma labelsKept_streamOp o : guarantees labelsKept (streamOp o).
Proof. by intros st a st' [= <- <-]. Qed.

Lemma labelsKept_writeName val : guarantees labelsKept (writeName val).
Proof.
  unfold writeName. apply guarantees_bind; [apply _| |].
  - intros st name st'
      [[_ ->]|[(_ & _ & ->)|(_ & _ & scope & outer & top & below
                             & _ & _ & _ & ->)]]%getOrCreateName_inv; done.
  - intros name. apply labelsKept_streamOp.
Qed.

Lemma labelsKept_assignSuccessorArguments operands arguments :
  guarantees labelsKept (assignSuccessorArguments operands arguments).
Proof.
  unfold assignSuccessorArguments. apply guarantees_forEach; [apply _|].
  intros [operand argument]. unfold write.
  repeat (apply guarantees_bind; [apply _| |intros _]);
    first [apply labelsKept_writeName|apply labelsKept_streamOp].
Qed.

(** The jump pattern of the branch printers: ask whether the block has a
    label, and only then ask for it. *)
Lemma run_goto block msg (k : string -> M LogicalResult) st :
  (labelled ← hasBlockLabel block;
   if negb labelled then emitError msg
   else label ← getOrCreateLabel block; k label) st =
  match ScopedHashTable_begin block (blockMapper st) with
  | Some label => k label st
  | None => Some (Failure, diagnosed st msg)
  end.
Proof.
  rewrite run_bind, run_hasBlockLabel.
  destruct (ScopedHashTable_begin block (blockMapper st)) as [label|] eqn:E.
  - rewrite (proj2 (count_true _ _)) by (by rewrite E). simpl.
    by rewrite run_bind, (getOrCreateLabel_bound _ label).
  - by rewrite (proj2 (count_false _ _)).
Qed.

(** Strip the leading steps of a run that keep the labels. *)
Ltac kept_steps H Hkept :=
  repeat
    (let st1 := fresh "st" in
     let H1 := fresh "Hkept" in
     apply (guarantees_step labelsKept) in H as (st1 & H1 & H);
     [|first [apply labelsKept_streamOp | apply labelsKept_writeName
             | apply labelsKept_assignSuccessorArguments]];
     let H2 := fresh "Hkept" in
     pose proof (transitivity Hkept H1) as H2; clear Hkept H1;
     rename H2 into Hkept).

(** X6: the branch printers never label a block.  A branch succeeds
    exactly when its target already has a label, a conditional branch
    exactly when both targets have one; otherwise they fail with "unable to
    find label for successor block".  In every case, and for [emitLabel]
    too, the label table and its counter are left as they were. *)
Theorem branches_keep_labels (st : CppEmitter) :
  (forall operands successor r st',
     printOperation_BranchOp operands successor st = Some (r, st') ->
     labelsKept st st'
     /\ (r = Success <->
         ScopedHashTable_count (successorBlock successor) (blockMapper st)
           = true))
  /\ (forall condition trueOperands falseOperands trueDest falseDest r st',
        printOperation_CondBranchOp condition trueOperands falseOperands
          trueDest falseDest st = Some (r, st') ->
        labelsKept st st'
        /\ (r = Success <->
            ScopedHashTable_count (successorBlock trueDest) (blockMapper st)
            && ScopedHashTable_count (successorBlock falseDest)
                 (blockMapper st) = true))
  /\ (forall block r st',
        emitLabel block st = Some (r, st') ->
        labelsKept st st'
        /\ (r = Success <->
            ScopedHashTable_count block (blockMapper st) = true)).
Proof.
  split; [|split].
  - intros operands successor r st' E.
    unfold printOperation_BranchOp, write in E.
    assert (labelsKept st st) as Hkept by reflexivity.
    kept_steps E Hkept. rewrite run_goto in E.
    destruct Hkept as [Eb Ec]. rewrite Eb in E.
    rewrite count_true.
    destruct (ScopedHashTable_begin _ (blockMapper st)) as [label|].
    + revert E. unfold write. run. intros [= <- <-].
      split; [by split|]. split; [by eexists|done].
    + injection E as <- <-. split; [by split|].
      split; [done|]. by intros [? ?].
  - intros condition trueOperands falseOperands trueDest falseDest r st' E.
    unfold printOperation_CondBranchOp, write, indent in E.
    assert (labelsKept st st) as Hkept by reflexivity.
    kept_steps E Hkept. rewrite run_goto in E.
    pose proof Hkept as [Eb Ec]. rewrite Eb in E.
    rewrite andb_true_iff, !count_true.
    destruct (ScopedHashTable_begin (successorBlock trueDest)
                (blockMapper st)) as [label1|].
    2:{ injection E as <- <-. split; [by split|].
        split; [done|]. by intros [[? ?] _]. }
    unfold write, unindent, indent in E.
    kept_steps E Hkept. rewrite run_goto in E.
    destruct Hkept as [Eb' Ec']. rewrite Eb' in E.
    destruct (ScopedHashTable_begin (successorBlock falseDest)
                (blockMapper st)) as [label2|].
    + revert E. unfold write, unindent. run. intros [= <- <-].
      split; [by split|]. split; [by split; eexists|done].
    + injection E as <- <-. split; [by split|].
      split; [done|]. by intros [_ [? ?]].
  - intros block r st' E. unfold emitLabel in E. rewrite run_goto in E.
    rewrite count_true.
    destruct (ScopedHashTable_begin block (blockMapper st)) as [label|].
    + revert E. unfold writeDirect. run. intros [= <- <-].
      split; [by split|]. split; [by eexists|done].
    + injection E as <- <-. split; [by split|].
      split; [done|]. by intros [? ?].
Qed.

(** The instance of X6 for a branch to a block without label: it is
    refused and no label is made for the block. *)
Lemma branches_keep_labels_witness :
  let st := mkCppEmitter [] false [∅] [∅] [0%Z; 0%Z] [0%Z; 0%Z] [] in
  let target := {| successorBlock := 5; successorArguments := [] |} in
  let st' :=
    diagnosed (emitted st [OsWrite "goto "])
      "unable to find label for successor block" in
  printOperation_BranchOp [] target st = Some (Failure, st')
  /\ labelsKept st st'.
Proof.
  intros st target st'.
  assert (printOperation_BranchOp [] target st = Some (Failure, st')) as E
    by reflexivity.
  split; [exact E|].
  exact (proj1 (proj1 (branches_keep_labels st) [] target Failure st' E)).
Defined.

(** ** 22. Scopes and output *)

Lemma Block__all_intro (P : Operation -> Prop) (block : Block) :
  (forall op, P op) -> Block__all Operation P block.
Proof. intros HP. destruct block. constructor. by apply list_all_intro. Qed.

(** Take a computation apart as the induction over the emitter does, for
    a property [Phi] closed under the emitter's primitives by [HPhi]. *)
Ltac closed_step Phi HPhi :=
  lazymatch goal with
  | H : Phi _ ?m |- Phi _ ?m => exact H
  | H : forall x, Phi _ (?f x) |- Phi _ (?f _) => apply H
  | |- Phi _ (ret _) => apply (Phi_ret Phi HPhi)
  | |- Phi _ abort => apply (Phi_abort Phi HPhi)
  | |- Phi _ (streamOp _) => apply (Phi_streamOp Phi HPhi)
  | |- Phi _ (write _) => apply (Phi_streamOp Phi HPhi)
  | |- Phi _ (writeDirect _) => apply (Phi_streamOp Phi HPhi)
  | |- Phi _ indent => apply (Phi_streamOp Phi HPhi)
  | |- Phi _ unindent => apply (Phi_streamOp Phi HPhi)
  | |- Phi _ (emitError _) => apply (Phi_emitError Phi HPhi)
  | |- Phi _ shouldDeclareVariablesAtTop =>
      apply (Phi_shouldDeclareVariablesAtTop Phi HPhi)
  | |- Phi _ (hasValueInScope _) => apply (Phi_hasValueInScope Phi HPhi)
  | |- Phi _ (hasBlockLabel _) => apply (Phi_hasBlockLabel Phi HPhi)
  | |- Phi _ (getOrCreateName _) => apply (Phi_getOrCreateName Phi HPhi)
  | |- Phi _ (getOrCreateLabel _) => apply (Phi_getOrCreateLabel Phi HPhi)
  | |- Phi _ (withScope _) => apply (Phi_withScope Phi HPhi)
  | |- Phi _ (emitType _) => apply (Phi_emitType Phi HPhi)
  | |- Phi _ (emitAttribute _) => apply (Phi_emitAttribute Phi HPhi)
  | |- Phi _ (writeName _) => apply (Phi_writeName Phi HPhi)
  | |- Phi _ (emitOperands _) => apply (Phi_emitOperands Phi HPhi)
  | |- Phi _ (emitOperandsAndAttributes _ _ _) =>
      apply (Phi_emitOperandsAndAttributes Phi HPhi)
  | |- Phi _ (emitVariableAssignment _) =>
      apply (Phi_emitVariableAssignment Phi HPhi)
  | |- Phi _ (emitVariableDeclaration _ _) =>
      apply (Phi_emitVariableDeclaration Phi HPhi)
  | |- Phi _ (emitAssignPrefix _) => apply (Phi_emitAssignPrefix Phi HPhi)
  | |- Phi _ (emitLabel _) => apply (Phi_emitLabel Phi HPhi)
  | |- Phi _ (printConstantOp _ _) => apply (Phi_printConstantOp Phi HPhi)
  | |- Phi _ (printBinaryOperation _ _ _ _) =>
      apply (Phi_printBinaryOperation Phi HPhi)
  | |- Phi _ (assignSuccessorArguments _ _) =>
      apply (Phi_assignSuccessorArguments Phi HPhi)
  | |- Phi _ (emitArgs _ _) => apply (Phi_emitArgs Phi HPhi)
  | |- Phi _ (forEach _ _) => apply (Phi_forEach Phi HPhi); intros ?
  | |- Phi _ (interleaveComma _ _) =>
      apply (Phi_interleaveComma Phi HPhi); intros ?
  | |- Phi _ (forAllExceptLast _ _) =>
      apply (Phi_forAllExceptLast Phi HPhi), list_all_intro; intros ?
  | |- Phi _ (createLabels _) => apply (Phi_createLabels Phi HPhi)
  | |- Phi _ (declareBlockArguments _) =>
      apply (Phi_declareBlockArguments Phi HPhi)
  | |- Phi _ (emitOperation _ _) => apply (Phi_emitOperation Phi HPhi)
  | |- Phi _ (andThen _ _) => apply (Phi_andThen Phi HPhi)
  | |- Phi _ (mbind _ _) => apply (Phi_bind Phi HPhi); [|intros ?]
  | |- Phi _ (interleaveCommaWithError _ _) =>
      apply (Phi_interleaveCommaWithError Phi HPhi), list_all_intro;
      intros ?
  | |- Phi _ (forEachWithError _ _) =>
      apply (Phi_forEachWithError Phi HPhi), list_all_intro; intros ?
  | |- Phi _ (match ?x with _ => _ end) => destruct x
  | |- Phi _ _ => solve [auto 2]
  end.

Section FunctionBody.
Variable Phi : forall A : Type, M A -> Prop.
Hypothesis HPhi : EmitterClosed Phi.

Lemma Phi_blocks_all (blocks : list Block) :
  list_all Block
    (Block__all Operation (fun op => forall ts, Phi _ (emitOperation op ts)))
    blocks.
Proof using All.
  induction blocks as [|block rest IH]; constructor; [|exact IH].
  apply Block__all_intro. intros op ts. apply (Phi_emitOperation Phi HPhi).
Qed.

(** The body of [printFunctionDefinition] under its scope guard. *)
Lemma Phi_functionBody name resultTypes blocks :
  Phi _
    (emitFunctionSignature name resultTypes blocks >>?
     (indent;;
      (declareVariablesOfFunction name resultTypes blocks >>?
       (createLabels blocks;;
        (declareBlockArguments blocks >>?
         (emitBlocks emitOperation blocks >>?
          (unindent;; write ("}" +:+ nl);; ret (success true)))))))).
Proof using All.
  assert (Phi _ (emitBlocks emitOperation blocks)) as Hblocks.
  { apply (Phi_emitBlocks Phi HPhi), Phi_blocks_all. }
  unfold emitFunctionSignature, emitTypes, emitTupleType, emitTupleTypeWith,
    declareVariablesOfFunction, declareResultsOf.
  repeat first [exact Hblocks | closed_step Phi HPhi].
Qed.

(** The callback of the walk declaring the results of a function. *)
Lemma Phi_declareResultsOf op : Phi _ (declareResultsOf op).
Proof using All. unfold declareResultsOf. repeat closed_step Phi HPhi. Qed.

(** The body of [printOperation_ModuleOp] under its scope guard. *)
Lemma Phi_moduleBody body :
  Phi _ (forEachWithError (fun op => emitOperation op false) body).
Proof using All. repeat closed_step Phi HPhi. Qed.
End FunctionBody.


#[global] Instance restored_preorder : PreOrder restored.
Proof.
  split; [by intros st|].
  intros st1 st2 st3 (? & ? & ? & ?) (? & ? & ? & ?).
  repeat split; congruence.
Qed.

Lemma restored_streamOp o : guarantees restored (streamOp o).
Proof. by intros st a st' [= <- <-]. Qed.

Lemma restored_emitError msg : guarantees restored (emitError msg).
Proof. by intros st a st' [= <- <-]. Qed.

Lemma restored_get {A} (f : CppEmitter -> A) : guarantees restored (get f).
Proof. by intros st a st' [= <- <-]. Qed.

(** The line end that [emitOperation] writes behind an operation. *)
Lemma restored_lineEnd op ts :
  guarantees restored
    (if isLiteralOp op then ret (success true)
     else write (if ts : bool then ";" +:+ nl else nl);; ret (success true)).
Proof.
  destruct (isLiteralOp op); [apply guarantees_ret, _|].
  apply guarantees_bind; [apply _|apply restored_streamOp|].
  intros _. apply guarantees_ret, _.
Qed.

(** X7: a module and a function give back their scope.  Whatever
    [emitOperation] returns for a [ModuleOp] or a [func::FuncOp], success or
    failure, the two name tables and the two counter stacks of the emitter
    are afterwards exactly what they were before: no name or label of the
    module or function outlives it, and the counters of the enclosing scope
    do not advance. *)
Theorem scopes_released (st : CppEmitter) (ts : bool) :
  (forall body r st',
     emitOperation (ModuleOp body) ts st = Some (r, st') -> restored st st')
  /\ (forall name resultTypes blocks r st',
        emitOperation (func_FuncOp name resultTypes blocks) ts st
        = Some (r, st') ->
        restored st st').
Proof.
  split.
  - intros body r st'. revert st r st'.
    change (guarantees restored (emitOperation (ModuleOp body) ts)).
    cbn [emitOperation]. apply guarantees_andThen; [apply _| |].
    + apply restored_withScope, (Phi_moduleBody _ nested_closed).
    + apply (restored_lineEnd (ModuleOp body)).
  - intros name resultTypes blocks r st'. revert st r st'.
    change (guarantees restored
              (emitOperation (func_FuncOp name resultTypes blocks) ts)).
    cbn [emitOperation]. apply guarantees_andThen; [apply _| |].
    + unfold printOperation_FuncOp.
      apply guarantees_bind; [apply _|apply restored_get|].
      intros declareAtTop.
      destruct (negb declareAtTop && bool_decide (1 < length blocks));
        [apply restored_emitError|].
      apply restored_withScope, (Phi_functionBody _ nested_closed).
    + apply (restored_lineEnd (func_FuncOp name resultTypes blocks)).
Qed.

(** The instance of X7 for a function whose body holds an operation
    without printer: the translation fails after the parameter was named,
    and the tables are those of the fresh emitter again. *)
Lemma scopes_released_witness :
  let st := CppEmitter_new [] false in
  let x := {| valueImpl := 1; definingLiteral := None |} in
  let arg :=
    {| argValue := x; argType := IntegerType 32 Signless;
       getArgNumber := 0 |} in
  let f := func_FuncOp "f" [] [mkBlock 0 [arg] [OtherOp "test.op" [] []] []] in
  (fun p => (p.1, diagnostics p.2)) <$> emitOperation f false st
  = Some (Failure, ["unable to find printer for op"])
  /\ forall r st', emitOperation f false st = Some (r, st') -> restored st st'.
Proof.
  intros st x arg f. split; [vm_compute; reflexivity|].
  intros r st' E.
  exact (proj2 (scopes_released st false) "f" [] _ r st' E).
Defined.

#[global] Instance outputKept_preorder : PreOrder outputKept.
Proof.
  split.
  - intros st. split; [|split]; [exists []|exists []|done];
      by rewrite (right_id_L [] (++)).
  - intros st1 st2 st3 ([ops1 E1] & [msgs1 E2] & E3) ([ops2 E4] & [msgs2 E5] & E6).
    split; [|split].
    + exists (ops1 ++ ops2). by rewrite E4, E1, (assoc_L (++)).
    + exists (msgs1 ++ msgs2). by rewrite E5, E2, (assoc_L (++)).
    + congruence.
Qed.

Lemma outputKept_same st st' :
  os st' = os st -> diagnostics st' = diagnostics st ->
  declareVariablesAtTop st' = declareVariablesAtTop st ->
  outputKept st st'.
Proof.
  intros E1 E2 E3. split; [|split]; [exists []|exists []|done];
    by rewrite (right_id_L [] (++)).
Qed.

Lemma outputKept_closed : EmitterClosed (fun A m => guarantees outputKept m).
Proof.
  apply guarantees_closed.
  - apply _.
  - intros o st a st' [= <- <-]. split; [|split]; [by exists [o]| |done].
    exists []. by rewrite (right_id_L [] (++)).
  - intros msg st a st' [= <- <-]. split; [|split]; [|by exists [msg]|done].
    exists []. by rewrite (right_id_L [] (++)).
  - intros val st name st'
      [[_ ->]|[(_ & _ & ->)|(_ & _ & scope & outer & top & below
                             & _ & _ & _ & ->)]]%getOrCreateName_inv;
      by apply outputKept_same.
  - intros block st label st'
      [[_ ->]|(_ & scope & outer & top & below & _ & _ & _ & ->)]
        %getOrCreateLabel_inv; by apply outputKept_same.
  - intros A m Hm st a st' (st1 & st2 & E1 & E2 & E3)%withScope_inv.
    apply enterScope_inv in E1 as (v & vs & l & ls & _ & _ & ->).
    apply Hm in E2.
    apply exitScope_inv in E3
      as (v' & vs' & l' & ls' & vscope & vm & bscope & bm
          & _ & _ & _ & _ & ->).
    exact E2.
Qed.

(** X8: the emitter only appends.  Whatever operation is emitted and
    whatever the result, the stream afterwards is the stream before followed
    by further stream operations, the diagnostics afterwards are the
    diagnostics before followed by further messages, and the declaration
    policy is unchanged: nothing already written or reported is taken back
    or rewritten. *)
Theorem emitOperation_appends op ts st r st' :
  emitOperation op ts st = Some (r, st') ->
  (exists ops, os st' = os st ++ ops)
  /\ (exists msgs, diagnostics st' = diagnostics st ++ msgs)
  /\ declareVariablesAtTop st' = declareVariablesAtTop st.
Proof. apply (Phi_emitOperation _ outputKept_closed op ts). Qed.

(** The instance of X8 for a constant of a type without spelling
    emitted behind earlier output. *)
Lemma emitOperation_appends_witness :
  let st := mkCppEmitter [OsWrite "// header"] false [∅] [∅] [0%Z] [0%Z]
              ["earlier"] in
  let x := {| valueImpl := 1; definingLiteral := None |} in
  let op :=
    emitc_ConstantOp {| resultValue := x; resultType := OtherType "none" |}
      (OpaqueAttr "0") in
  (fun p => (p.1, os p.2, diagnostics p.2)) <$> emitOperation op true st
  = Some (Failure, [OsWrite "// header"], ["earlier"; "cannot emit type "])
  /\ forall r st', emitOperation op true st = Some (r, st') ->
       (exists ops, os st' = os st ++ ops)
       /\ (exists msgs, diagnostics st' = diagnostics st ++ msgs)
       /\ declareVariablesAtTop st' = declareVariablesAtTop st.
Proof.
  intros st x op. split; [vm_compute; reflexivity|].
  intros r st' E. exact (emitOperation_appends op true st r st' E).
Defined.

(** ** 23. Diagnostics and failure *)

Section Quiet.

Lemma silent_ret {A} (a : A) : silent (ret a).
Proof. by intros st a' st' [= <- <-]. Qed.

Lemma silent_abort {A} : silent (@abort A).
Proof. by intros st a st'. Qed.

Lemma silent_bind {A B} (m : M A) (f : A -> M B) :
  silent m -> (forall a, silent (f a)) -> silent (m ≫= f).
Proof.
  intros Hm Hf st b st' (a & st1 & E1 & E2)%bind_Some.
  apply Hm in E1. apply Hf in E2. congruence.
Qed.

Lemma silent_streamOp o : silent (streamOp o).
Proof. by intros st a st' [= <- <-]. Qed.

Lemma silent_get {A} (f : CppEmitter -> A) : silent (get f).
Proof. by intros st a st' [= <- <-]. Qed.

Lemma silent_getOrCreateName val : silent (getOrCreateName val).
Proof.
  intros st name st'
    [[_ ->]|[(_ & _ & ->)|(_ & _ & scope & outer & top & below
                           & _ & _ & _ & ->)]]%getOrCreateName_inv; done.
Qed.

Lemma silent_getOrCreateLabel block : silent (getOrCreateLabel block).
Proof.
  intros st label st'
    [[_ ->]|(_ & scope & outer & top & below & _ & _ & _ & ->)]
      %getOrCreateLabel_inv; done.
Qed.

Lemma silent_forEach {A} (f : A -> M unit) l :
  (forall x, silent (f x)) -> silent (forEach f l).
Proof.
  intros Hf. induction l; simpl; [apply silent_ret|apply silent_bind; auto].
Qed.

Lemma silent_interleaveComma {A} (eachFn : A -> M unit) l :
  (forall x, silent (eachFn x)) -> silent (interleaveComma l eachFn).
Proof.
  intros Hf. destruct l; simpl; [apply silent_ret|].
  apply silent_bind; [done|]. intros _. apply silent_forEach. intros y.
  apply silent_bind; [apply silent_streamOp|done].
Qed.

Lemma quiet_ret r : quiet (ret r).
Proof. by intros st r' st' [= <- <-]. Qed.

Lemma quiet_abort : quiet abort.
Proof. by intros st r st'. Qed.

Lemma quiet_emitError msg : quiet (emitError msg).
Proof. by intros st r st' [= <- <-]. Qed.

Lemma quiet_seq {A} (m : M A) (k : A -> M LogicalResult) :
  silent m -> (forall a, quiet (k a)) -> quiet (m ≫= k).
Proof.
  intros Hm Hk st r st' (a & st1 & E1 & E2)%bind_Some Hr.
  apply Hm in E1. pose proof (Hk _ _ _ _ E2 Hr). congruence.
Qed.

Lemma quiet_andThen m k : quiet m -> quiet k -> quiet (m >>? k).
Proof.
  intros Hm Hk st r st' (r1 & st1 & E1 & E2)%bind_Some Hr.
  destruct r1; simpl in E2.
  - pose proof (Hm _ _ _ E1 eq_refl). pose proof (Hk _ _ _ E2 Hr).
    congruence.
  - injection E2 as <- _. done.
Qed.

Lemma quiet_withScope m : quiet m -> quiet (withScope m).
Proof.
  intros Hm st r st' (st1 & st2 & E1 & E2 & E3)%withScope_inv Hr.
  apply enterScope_inv in E1 as (v & vs & l & ls & _ & _ & ->).
  pose proof (Hm _ _ _ E2 Hr) as E.
  apply exitScope_inv in E3
    as (v' & vs' & l' & ls' & vscope & vm & bscope & bm
        & _ & _ & _ & _ & ->).
  exact E.
Qed.

Lemma quiet_forEachWithError {A} (f : A -> M LogicalResult) l :
  list_all A (fun x => quiet (f x)) l -> quiet (forEachWithError f l).
Proof.
  intros Hl. induction Hl; simpl; [apply quiet_ret|by apply quiet_andThen].
Qed.

Lemma quiet_forAllExceptLast {A} (f : A -> M LogicalResult) l :
  list_all A (fun x => quiet (f x)) l -> quiet (forAllExceptLast f l).
Proof.
  intros Hl. induction Hl as [|x Hx l Hl IH]; simpl; [apply quiet_abort|].
  destruct l; [apply quiet_ret|by apply quiet_andThen].
Qed.

Lemma quiet_interleaveCommaWithError {A} (eachFn : A -> M LogicalResult) l :
  list_all A (fun x => quiet (eachFn x)) l ->
  quiet (interleaveCommaWithError l eachFn).
Proof.
  intros Hl. destruct Hl as [|x Hx l Hl]; simpl; [apply quiet_ret|].
  apply quiet_andThen; [done|].
  induction Hl; simpl; [apply quiet_ret|].
  apply quiet_seq; [apply silent_streamOp|]. intros _.
  by apply quiet_andThen.
Qed.

(** Take a computation apart along its sequencing and its case
    distinctions, the steps without result being silent. *)
Ltac quiet_step :=
  lazymatch goal with
  | H : quiet ?m |- quiet ?m => exact H
  | H : silent ?m |- silent ?m => exact H
  | |- quiet (ret _) => apply quiet_ret
  | |- quiet abort => apply quiet_abort
  | |- quiet (emitError _) => apply quiet_emitError
  | |- quiet (andThen _ _) => apply quiet_andThen
  | |- quiet (withScope _) => apply quiet_withScope
  | |- quiet (mbind _ _) => apply quiet_seq; [|intros ?]
  | |- quiet (interleaveCommaWithError _ _) =>
      apply quiet_interleaveCommaWithError;
      first [eassumption | apply list_all_intro; intros ?]
  | |- quiet (forEachWithError _ _) =>
      apply quiet_forEachWithError;
      first [eassumption | apply list_all_intro; intros ?]
  | |- quiet (forAllExceptLast _ _) =>
      apply quiet_forAllExceptLast;
      first [eassumption | apply list_all_intro; intros ?]
  | |- quiet (match ?x with _ => _ end) => destruct x
  | |- quiet _ => solve [auto 2]
  | |- silent (ret _) => apply silent_ret
  | |- silent abort => apply silent_abort
  | |- silent (streamOp _) => apply silent_streamOp
  | |- silent (write _) => apply silent_streamOp
  | |- silent (writeDirect _) => apply silent_streamOp
  | |- silent indent => apply silent_streamOp
  | |- silent unindent => apply silent_streamOp
  | |- silent (get _) => apply silent_get
  | |- silent shouldDeclareVariablesAtTop => apply silent_get
  | |- silent (hasValueInScope _) => apply silent_get
  | |- silent (hasBlockLabel _) => apply silent_get
  | |- silent (getOrCreateName _) => apply silent_getOrCreateName
  | |- silent (getOrCreateLabel _) => apply silent_getOrCreateLabel
  | |- silent (mbind _ _) => apply silent_bind; [|intros ?]
  | |- silent (forEach _ _) => apply silent_forEach; intros ?
  | |- silent (interleaveComma _ _) => apply silent_interleaveComma; intros ?
  | |- silent (match ?x with _ => _ end) => destruct x
  | |- silent _ => solve [auto 2]
  end.

Ltac quiet_steps := repeat quiet_step.

Lemma quiet_emitType type : quiet (emitType type).
Proof.
  induction type as [width s|width| |shape elt IH|elt IH|types IH|v|p IH|m];
    cbn [emitType]; try solve [quiet_steps].
  unfold emitTupleTypeWith. quiet_steps.
Qed.

Lemma quiet_emitAttribute attr : quiet (emitAttribute attr).
Proof.
  pose proof quiet_emitType.
  unfold emitAttribute, printFloat, printInt. quiet_steps.
Qed.

Lemma silent_writeName val : silent (writeName val).
Proof. unfold writeName. quiet_steps. Qed.

Lemma quiet_emitOperands operands : quiet (emitOperands operands).
Proof. pose proof silent_writeName. unfold emitOperands. quiet_steps. Qed.

Lemma quiet_emitOperandsAndAttributes operands attrs exclude :
  quiet (emitOperandsAndAttributes operands attrs exclude).
Proof.
  pose proof quiet_emitOperands. pose proof quiet_emitAttribute.
  unfold emitOperandsAndAttributes. quiet_steps.
Qed.

Lemma quiet_emitVariableAssignment result :
  quiet (emitVariableAssignment result).
Proof.
  pose proof silent_writeName. unfold emitVariableAssignment. quiet_steps.
Qed.

Lemma quiet_emitVariableDeclaration result trailingSemicolon :
  quiet (emitVariableDeclaration result trailingSemicolon).
Proof.
  pose proof silent_writeName. pose proof quiet_emitType.
  unfold emitVariableDeclaration. quiet_steps.
Qed.

Lemma quiet_emitAssignPrefix results : quiet (emitAssignPrefix results).
Proof.
  pose proof silent_writeName. pose proof quiet_emitVariableAssignment.
  pose proof quiet_emitVariableDeclaration.
  unfold emitAssignPrefix. quiet_steps.
Qed.

Lemma quiet_emitLabel block : quiet (emitLabel block).
Proof. unfold emitLabel. quiet_steps. Qed.

Lemma quiet_printConstantOp result value :
  quiet (printConstantOp result value).
Proof.
  pose proof quiet_emitVariableAssignment.
  pose proof quiet_emitVariableDeclaration.
  pose proof quiet_emitAssignPrefix. pose proof quiet_emitAttribute.
  unfold printConstantOp. quiet_steps.
Qed.

Lemma quiet_printBinaryOperation results lhs rhs binaryOperator :
  quiet (printBinaryOperation results lhs rhs binaryOperator).
Proof.
  pose proof silent_writeName. pose proof quiet_emitAssignPrefix.
  unfold printBinaryOperation. quiet_steps.
Qed.

Lemma silent_assignSuccessorArguments operands arguments :
  silent (assignSuccessorArguments operands arguments).
Proof.
  pose proof silent_writeName. unfold assignSuccessorArguments. quiet_steps.
Qed.

Lemma quiet_emitArgs operands attr : quiet (emitArgs operands attr).
Proof.
  pose proof silent_writeName. pose proof quiet_emitAttribute.
  unfold emitArgs. quiet_steps.
Qed.

(** The declaration of a result in the walk of [printOperation] for a
    function: a failed declaration is reported once more. *)
Lemma quiet_declareResultsOf op : quiet (declareResultsOf op).
Proof.
  unfold declareResultsOf. destruct (isLiteralOp op); [apply quiet_ret|].
  apply quiet_forEachWithError, list_all_intro. intros result.
  intros st r st' (r1 & st1 & E1 & E2)%bind_Some Hr.
  destruct r1; simpl in E2.
  - pose proof (quiet_emitVariableDeclaration _ _ _ _ _ E1 eq_refl).
    injection E2 as _ <-. done.
  - injection E2 as <- _. done.
Qed.

Lemma quiet_leaf_printers :
  (forall operands successor,
     quiet (printOperation_BranchOp operands successor))
  /\ (forall condition trueOperands falseOperands trueDest falseDest,
        quiet (printOperation_CondBranchOp condition trueOperands
                 falseOperands trueDest falseDest))
  /\ (forall var value, quiet (printOperation_AssignOp var value))
  /\ (forall callee results operands,
        quiet (printOperation_func_CallOp callee results operands))
  /\ (forall callee args templateArgs results operands,
        quiet (printOperation_emitc_CallOp callee args templateArgs results
                 operands))
  /\ (forall applicableOperator result operand,
        quiet (printOperation_ApplyOp applicableOperator result operand))
  /\ (forall result operand, quiet (printOperation_CastOp result operand))
  /\ (forall include isStandardInclude,
        quiet (printOperation_IncludeOp include isStandardInclude))
  /\ (forall operands attrs, quiet (printOperation_ReturnOp operands attrs)).
Proof.
  pose proof silent_writeName. pose proof quiet_emitType.
  pose proof quiet_emitOperands. pose proof quiet_emitOperandsAndAttributes.
  pose proof quiet_emitVariableAssignment. pose proof quiet_emitAssignPrefix.
  pose proof silent_assignSuccessorArguments. pose proof quiet_emitArgs.
  repeat split; intros;
    unfold printOperation_BranchOp, printOperation_CondBranchOp,
      printOperation_AssignOp, printOperation_func_CallOp,
      printOperation_emitc_CallOp, printOperation_ApplyOp,
      printOperation_CastOp, printOperation_IncludeOp,
      printOperation_ReturnOp; quiet_steps.
Qed.

Lemma quiet_at ts ops :
  list_all Operation (fun op => forall ts, quiet (emitOperation op ts)) ops ->
  list_all Operation (fun op => quiet (emitOperation op ts)) ops.
Proof. apply list_all_impl. intros op Hop. apply Hop. Qed.

Lemma quiet_emitBlocks blocks :
  list_all Block
    (Block__all Operation (fun op => forall ts, quiet (emitOperation op ts)))
    blocks ->
  quiet (emitBlocks emitOperation blocks).
Proof.
  intros Hall. pose proof quiet_emitLabel.
  unfold emitBlocks, emitBlockLabel. apply quiet_forEachWithError.
  induction Hall as [|block [id arguments ops Hops preds] blocks Hall IH];
    constructor; [|done].
  apply (list_all_impl _
           (fun op => quiet (emitOperation op (negb (isBracedOrLiteral op)))))
    in Hops; [|intros op Hop; apply Hop].
  simpl. quiet_steps.
Qed.

Lemma quiet_emitOperation op ts : quiet (emitOperation op ts).
Proof.
  revert ts.
  destruct quiet_leaf_printers as (? & ? & ? & ? & ? & ? & ? & ? & ?).
  pose proof quiet_printConstantOp. pose proof quiet_printBinaryOperation.
  pose proof silent_writeName. pose proof quiet_emitType.
  pose proof quiet_emitOperands.
  induction op; intros ts; cbn [emitOperation];
    (apply quiet_andThen; [|quiet_steps]); try solve [quiet_steps].
  - match goal with H : list_all _ _ _ |- _ => apply (quiet_at false) in H end.
    unfold printOperation_ModuleOp. quiet_steps.
  - match goal with H : list_all _ _ _ |- _ => apply (quiet_at true) in H end.
    unfold printOperation_ForOp. quiet_steps.
  - match goal with
    | H : list_all _ _ _, H' : option_all _ _ _ |- _ =>
        apply (quiet_at true) in H;
        destruct H' as [ops Hops%(quiet_at true)|]
    end; unfold printOperation_IfOp; quiet_steps.
  - match goal with H : list_all _ _ _ |- _ => apply quiet_emitBlocks in H end.
    pose proof quiet_emitVariableDeclaration.
    pose proof quiet_declareResultsOf.
    assert (forall types, quiet (emitTypes types)).
    { intros types. unfold emitTypes, emitTupleType, emitTupleTypeWith.
      quiet_steps. }
    assert (forall blocks, silent (createLabels blocks)).
    { intros bs. unfold createLabels. quiet_steps. }
    assert (forall blocks, quiet (declareBlockArguments blocks)).
    { intros bs. unfold declareBlockArguments. quiet_steps. }
    unfold printOperation_FuncOp, printFunctionDefinition,
      emitFunctionSignature, declareVariablesOfFunction.
    quiet_steps.
Qed.
End Quiet.

(** X9: a reported diagnostic means failure.  When [emitOperation]
    returns success it has reported nothing: the diagnostics are those from
    before the call.  A successful translation therefore ends without any
    diagnostic. *)
Theorem success_reports_nothing :
  (forall op ts st st',
     emitOperation op ts st = Some (Success, st') ->
     diagnostics st' = diagnostics st)
  /\ (forall op os declareVariablesAtTop st',
        translateToCpp op os declareVariablesAtTop = Some (Success, st') ->
        diagnostics st' = []).
Proof.
  split.
  - intros op ts st st' E. exact (quiet_emitOperation op ts _ _ _ E eq_refl).
  - intros op os flag st' E.
    exact (quiet_emitOperation op false _ _ _ E eq_refl).
Qed.

(** The instance of X9 for a function returning its parameter. *)
Lemma success_reports_nothing_witness :
  let i32 := IntegerType 32 Signless in
  let x := {| valueImpl := 1; definingLiteral := None |} in
  let arg := {| argValue := x; argType := i32; getArgNumber := 0 |} in
  let f := func_FuncOp "f" [i32] [mkBlock 0 [arg] [func_ReturnOp [x] []] []] in
  fst <$> translateToCpp f [] false = Some Success
  /\ forall st',
       translateToCpp f [] false = Some (Success, st') ->
       diagnostics st' = [].
Proof.
  intros i32 x arg f. split; [vm_compute; reflexivity|].
  intros st' E. exact (proj2 success_reports_nothing f [] false st' E).
Defined.

(** ** 24. Regions and modules *)

Lemma forAllExceptLast_snoc {A} (f : A -> M LogicalResult) l x :
  forAllExceptLast f (l ++ [x]) = forEachWithError f l.
Proof.
  induction l as [|a l IH]; [done|].
  cbn [app forEachWithError]. rewrite <- IH.
  destruct l; reflexivity.
Qed.

(** X10: the last operation of a region is never printed.  The output
    of a [for] and of an [if] does not depend on the operation that ends a
    region (the yield): any two bodies that agree up to their last operation
    are printed alike, in result, output, names and diagnostics. *)
Theorem region_terminator_skipped (ts : bool) (st : CppEmitter) :
  (forall lowerBound upperBound step inductionVar body last last',
     emitOperation
       (emitc_ForOp lowerBound upperBound step inductionVar (body ++ [last]))
       ts st
     = emitOperation
         (emitc_ForOp lowerBound upperBound step inductionVar
            (body ++ [last'])) ts st)
  /\ (forall condition thenBody last last',
        emitOperation (emitc_IfOp condition (thenBody ++ [last]) None) ts st
        = emitOperation (emitc_IfOp condition (thenBody ++ [last']) None)
            ts st)
  /\ (forall condition thenBody last last' elseBody elseLast elseLast',
        emitOperation
          (emitc_IfOp condition (thenBody ++ [last])
             (Some (elseBody ++ [elseLast]))) ts st
        = emitOperation
            (emitc_IfOp condition (thenBody ++ [last'])
               (Some (elseBody ++ [elseLast']))) ts st).
Proof.
  repeat split; intros; cbn [emitOperation isLiteralOp];
    unfold printOperation_ForOp, printOperation_IfOp;
    by rewrite !forAllExceptLast_snoc.
Qed.

Lemma forEachWithError_Failure {A} (f : A -> M LogicalResult) l more st st' :
  forEachWithError f l st = Some (Failure, st') ->
  forEachWithError f (l ++ more) st = Some (Failure, st').
Proof.
  revert st. induction l as [|x l IH]; intros st; [done|].
  cbn [app forEachWithError]. rewrite !run_andThen.
  destruct (f x st) as [[[] st1]|]; [apply IH|done..].
Qed.

(** X11: nothing is emitted behind a failure.  When the translation
    of a module fails, the translation of every module that continues it
    with further operations fails in the same way: the same output, the
    same diagnostics, the same emitter. *)
Theorem module_stops_at_first_failure (body more : list Operation)
    (ts : bool) (st st' : CppEmitter) :
  emitOperation (ModuleOp body) ts st = Some (Failure, st') ->
  emitOperation (ModuleOp (body ++ more)) ts st = Some (Failure, st').
Proof.
  cbn [emitOperation isLiteralOp]. rewrite !run_andThen.
  unfold printOperation_ModuleOp, withScope. rewrite !run_bind.
  destruct (enterScope st) as [[[] st1]|]; [|done].
  rewrite !run_bind.
  destruct (forEachWithError _ body st1) as [[[] st2]|] eqn:E; [| |done].
  - rewrite !run_bind. destruct (exitScope st2) as [[[] st3]|]; [|done].
    rewrite run_ret. cbn [failed]. destruct ts; run; done.
  - by rewrite (forEachWithError_Failure _ _ more _ _ E).
Qed.

(** The instance of X11 for a module whose first operation has no
    printer. *)
Lemma module_stops_at_first_failure_witness :
  let bad := OtherOp "test.op" [] [] in
  let inc := emitc_IncludeOp "math.h" true in
  let st := CppEmitter_new [] false in
  let st' := diagnosed st "unable to find printer for op" in
  emitOperation (ModuleOp [bad]) false st = Some (Failure, st')
  /\ emitOperation (ModuleOp [bad; inc]) false st = Some (Failure, st').
Proof.
  intros bad inc st st'.
  assert (emitOperation (ModuleOp [bad]) false st = Some (Failure, st')) as E
    by (vm_compute; reflexivity).
  split; [exact E|].
  exact (module_stops_at_first_failure [bad] [inc] false st st' E).
Defined.

(** ** 25. Call arguments *)

(** X12: an index argument of a call is checked against the operands
    before it is used.  An index that is negative or not below the number
    of operands is refused as invalid; an index in range selects that
    operand, which is printed by its visible name when it has a name in
    scope and refused as not defined otherwise.  The operand list is never
    read out of range, whatever the index and the emitter. *)
Theorem emitArgs_index (operands : list Value) (t : APInt)
    (st : CppEmitter) :
  let idx := getSExtValue t in
  match (if (0 <=? idx)%Z then operands !! Z.to_nat idx else None) with
  | None =>
      emitArgs operands (IntegerAttr IndexType t) st
      = Some (Failure, diagnosed st "invalid operand index")
  | Some operand =>
      match ScopedHashTable_begin operand (valueMapper st) with
      | Some _ =>
          exists name,
            visibleName (valueMapper st) operand = Some name
            /\ emitArgs operands (IntegerAttr IndexType t) st
               = Some (Success, emitted st [OsWrite name])
      | None =>
          emitArgs operands (IntegerAttr IndexType t) st
          = Some (Failure,
                  diagnosed st ("operand " +:+ pretty idx
                                +:+ "'s value not defined in scope"))
      end
  end.
Proof.
  intros idx. cbn [emitArgs]. fold idx.
  destruct (Z.leb_spec 0 idx) as [Hpos|Hneg].
  - rewrite (proj2 (Z.ltb_ge idx 0)) by done. cbn [orb].
    destruct (operands !! Z.to_nat idx) as [operand|] eqn:Hlookup.
    + assert (Z.to_nat idx < length operands) as Hlt
        by (apply lookup_lt_is_Some; by rewrite Hlookup).
      rewrite (proj2 (Z.leb_gt _ _)) by lia.
      rewrite run_bind, run_hasValueInScope.
      destruct (ScopedHashTable_begin operand (valueMapper st)) as [name|]
        eqn:Hname.
      * rewrite (proj2 (count_true _ _)) by (by rewrite Hname).
        cbn [negb].
        assert (is_Some (visibleName (valueMapper st) operand))
          as [text Htext].
        { unfold visibleName. rewrite Hname. by destruct (definingLiteral _). }
        exists text. split; [done|].
        by rewrite run_bind, (writeName_visible _ text).
      * by rewrite (proj2 (count_false _ _)).
    + apply lookup_ge_None in Hlookup.
      by rewrite (proj2 (Z.leb_le _ _)) by lia.
  - by rewrite (proj2 (Z.ltb_lt idx 0)) by done.
Qed.

(** ** 26. Literals *)

(** X13: a literal is never given a variable.  If no value defined by
    a literal operation has a name before an operation is emitted, none has
    one afterwards, and asking for the name of such a value still returns
    its literal text and leaves the emitter alone. *)
Theorem literals_never_named op ts st r st' :
  (forall val, is_Some (definingLiteral val) ->
     ScopedHashTable_begin val (valueMapper st) = None) ->
  emitOperation op ts st = Some (r, st') ->
  forall val literal,
    definingLiteral val = Some literal ->
    ScopedHashTable_begin val (valueMapper st') = None
    /\ getOrCreateName val st' = Some (literal, st').
Proof.
  intros Hst E val literal Hlit. split.
  - apply (noLiteralBound_emitOperation op ts st r st' E Hst). by rewrite Hlit.
  - by apply getOrCreateName_literal.
Qed.

(** The instance of X13 for an addition of a literal to a variable. *)
Lemma literals_never_named_witness :
  let i32 := IntegerType 32 Signless in
  let x := {| valueImpl := 1; definingLiteral := None |} in
  let one := {| valueImpl := 2; definingLiteral := Some "1" |} in
  let sum := {| valueImpl := 3; definingLiteral := None |} in
  let op := emitc_AddOp {| resultValue := sum; resultType := i32 |} x one in
  let st := mkCppEmitter [] false [{[x := "v1"]}] [∅] [1%Z; 0%Z] [0%Z; 0%Z]
              [] in
  (fun p => (p.1, streamText (os p.2))) <$> emitOperation op true st
  = Some (Success, "int32_t v2 = v1 + 1;" +:+ nl)
  /\ forall r st',
       emitOperation op true st = Some (r, st') ->
       ScopedHashTable_begin one (valueMapper st') = None
       /\ getOrCreateName one st' = Some ("1", st').
Proof.
  intros i32 x one sum op st. split; [vm_compute; reflexivity|].
  intros r st' E.
  assert (forall val, is_Some (definingLiteral val) ->
            ScopedHashTable_begin val (valueMapper st) = None) as Hst.
  { intros val [literal Hval]. unfold st.
    cbn [valueMapper ScopedHashTable_begin].
    rewrite lookup_singleton_ne; [done|]. intros <-. done. }
  exact (literals_never_named op true st r st' Hst E one "1" eq_refl).
Defined.

(** ** 27. Variables declared at the top of a function *)

Lemma nested_bound val st st' :
  nested st st' ->
  is_Some (ScopedHashTable_begin val (valueMapper st)) ->
  is_Some (ScopedHashTable_begin val (valueMapper st')).
Proof.
  intros (Hkept & _) [name Hname]. exists name.
  by eapply scopesKept_begin.
Qed.

Lemma nested_unbound val st st' :
  nested st st' ->
  ScopedHashTable_begin val (valueMapper st') = None ->
  ScopedHashTable_begin val (valueMapper st) = None.
Proof.
  intros Hnested Hnone.
  destruct (ScopedHashTable_begin val (valueMapper st)) eqn:E; [|done].
  destruct (nested_bound val st st' Hnested) as [name Hname];
    [by rewrite E|congruence].
Qed.

(** A loop whose steps each give names to values that had none: after a
    successful run all of them have a name, and none had one before. *)
Lemma forEachWithError_declares {A} (f : A -> M LogicalResult)
    (vals : A -> list Value) l st st' :
  (forall y, guarantees nested (f y)) ->
  (forall x st1 st2 val,
     x ∈ l -> f x st1 = Some (Success, st2) -> val ∈ vals x ->
     ScopedHashTable_begin val (valueMapper st1) = None
     /\ is_Some (ScopedHashTable_begin val (valueMapper st2))) ->
  forEachWithError f l st = Some (Success, st') ->
  forall x val, x ∈ l -> val ∈ vals x ->
    ScopedHashTable_begin val (valueMapper st) = None
    /\ is_Some (ScopedHashTable_begin val (valueMapper st')).
Proof.
  intros Hnested. revert st.
  induction l as [|a l IH]; intros st Hstep Hrun x val Hx Hval.
  { by apply elem_of_nil in Hx. }
  cbn [forEachWithError] in Hrun. rewrite run_andThen in Hrun.
  destruct (f a st) as [[[] st1]|] eqn:Ea; [|done..].
  assert (nested st st1) as H1 by (by eapply Hnested).
  assert (nested st1 st') as H2
    by (by eapply (guarantees_forEachWithError nested f l Hnested)).
  apply elem_of_cons in Hx as [->|Hx].
  - destruct (Hstep a st st1 val) as [Hnone Hsome];
      [apply list_elem_of_here|done..|].
    split; [done|]. by eapply nested_bound.
  - destruct (IH st1) with (x := x) (val := val) as [Hnone Hsome];
      [|done..|].
    { intros y st2 st3 val' Hy. apply Hstep. by apply list_elem_of_further. }
    split; [|done]. by eapply nested_unbound.
Qed.

Lemma emitVariableDeclaration_binds result trailingSemicolon st st1 :
  definingLiteral (resultValue result) = None ->
  emitVariableDeclaration result trailingSemicolon st = Some (Success, st1) ->
  ScopedHashTable_begin (resultValue result) (valueMapper st) = None
  /\ is_Some (ScopedHashTable_begin (resultValue result) (valueMapper st1)).
Proof.
  intros Hlit (Hfresh & ops & name & st0 & Etype & Ename & ->)
           %emitVariableDeclaration_inv.
  split; [done|].
  pose proof (visibleName_getOrCreateName _ _ _ _ Ename) as Hname.
  unfold visibleName in Hname. rewrite Hlit in Hname.
  exists name. by cbn [valueMapper emitted].
Qed.

Lemma emitVariableAssignment_bound val name st :
  definingLiteral val = None ->
  ScopedHashTable_begin val (valueMapper st) = Some name ->
  emitVariableAssignment val st
  = Some (Success, emitted st [OsWrite name; OsWrite " = "]).
Proof.
  intros Hlit Hname. unfold emitVariableAssignment, writeName.
  rewrite run_bind, run_hasValueInScope.
  rewrite (proj2 (count_true _ _)) by (by rewrite Hname). simpl.
  rewrite !run_bind, (getOrCreateName_bound _ name) by done.
  by run.
Qed.

Lemma declareResultsOf_declares op st st' :
  (forall result, result ∈ getResults op ->
     definingLiteral (resultValue result) = None) ->
  isLiteralOp op = false ->
  declareResultsOf op st = Some (Success, st') ->
  forall result, result ∈ getResults op ->
    ScopedHashTable_begin (resultValue result) (valueMapper st) = None
    /\ is_Some (ScopedHashTable_begin (resultValue result) (valueMapper st')).
Proof.
  intros Hwf Hop. unfold declareResultsOf. rewrite Hop. intros Hrun result Hin.
  eapply (forEachWithError_declares _ (fun result => [resultValue result]));
    [| |exact Hrun|exact Hin|apply list_elem_of_here].
  - intros y. apply (guarantees_bind nested);
      [apply (Phi_emitVariableDeclaration _ nested_closed)|].
    intros []; [apply guarantees_ret, _|apply nested_emitError].
  - intros x st1 st2 val Hx Hstep ->%list_elem_of_singleton.
    apply bind_Some in Hstep as (r & st3 & E1 & E2).
    destruct r; [|done]. injection E2 as <-.
    apply (emitVariableDeclaration_binds _ _ _ _ (Hwf x Hx) E1).
Qed.

(** X14: under the declare-at-top policy the prologue of a function
    declares the result of every operation of the body, nested regions
    included.  When the declaring walk succeeds, each result of each
    operation of the function that is not a literal had no name before the
    walk and has one afterwards, so that an assignment to it is accepted
    and prints that name followed by [ = ]. *)
Theorem results_declared_at_top (name : string) (resultTypes : list Type_)
    (blocks : list Block) (st st' : CppEmitter) :
  let ops := walkPreOrder (func_FuncOp name resultTypes blocks) in
  (forall op result,
     op ∈ ops -> isLiteralOp op = false -> result ∈ getResults op ->
     definingLiteral (resultValue result) = None) ->
  declareVariablesAtTop st = true ->
  declareVariablesOfFunction name resultTypes blocks st
  = Some (Success, st') ->
  forall op result,
    op ∈ ops -> isLiteralOp op = false -> result ∈ getResults op ->
    ScopedHashTable_begin (resultValue result) (valueMapper st) = None
    /\ exists variable,
         ScopedHashTable_begin (resultValue result) (valueMapper st')
         = Some variable
         /\ emitVariableAssignment (resultValue result) st'
            = Some (Success,
                    emitted st' [OsWrite variable; OsWrite " = "]).
Proof.
  intros ops Hwf Htop. unfold declareVariablesOfFunction.
  rewrite run_bind. unfold shouldDeclareVariablesAtTop.
  rewrite run_get, Htop. fold ops. intros Hrun op result Hop Hlit Hin.
  destruct (forEachWithError_declares declareResultsOf
              (fun op => if isLiteralOp op then []
                         else resultValue <$> getResults op)
              ops st st') with (x := op) (val := resultValue result)
    as [Hnone [variable Hsome]]; [| |done|done| |].
  - intros y. apply (Phi_declareResultsOf _ nested_closed).
  - intros x st1 st2 val Hx Hstep Hval.
    destruct (isLiteralOp x) eqn:Hx'; [by apply elem_of_nil in Hval|].
    apply list_elem_of_fmap in Hval as (res & -> & Hres).
    eapply declareResultsOf_declares; [|done..].
    intros res' Hres'. by eapply Hwf.
  - rewrite Hlit. apply list_elem_of_fmap. by exists result.
  - split; [done|]. exists variable. split; [done|].
    apply emitVariableAssignment_bound; [by eapply Hwf|done].
Qed.

(** The instance of X14 for a function adding its parameter to itself. *)
Lemma results_declared_at_top_witness :
  let i32 := IntegerType 32 Signless in
  let x := {| valueImpl := 1; definingLiteral := None |} in
  let sum := {| valueImpl := 2; definingLiteral := None |} in
  let arg := {| argValue := x; argType := i32; getArgNumber := 0 |} in
  let add := emitc_AddOp {| resultValue := sum; resultType := i32 |} x x in
  let blocks := [mkBlock 0 [arg] [add; func_ReturnOp [sum] []] []] in
  let st := mkCppEmitter [] true [{[x := "v1"]}] [∅] [1%Z; 0%Z] [0%Z; 0%Z]
              [] in
  exists st',
    declareVariablesOfFunction "f" [i32] blocks st = Some (Success, st')
    /\ ScopedHashTable_begin sum (valueMapper st) = None
    /\ exists variable,
         emitVariableAssignment sum st'
         = Some (Success, emitted st' [OsWrite variable; OsWrite " = "]).
Proof.
  intros i32 x sum arg add blocks st.
  destruct (declareVariablesOfFunction "f" [i32] blocks st)
    as [[[] st']|] eqn:E; [|by vm_compute in E..].
  exists st'. split; [done|].
  destruct (results_declared_at_top "f" [i32] blocks st st') with
    (op := add) (result := {| resultValue := sum; resultType := i32 |})
    as (Hnone & variable & _ & Hassign).
  - intros op result Hop Hlit Hin.
    cbn in Hop.
    repeat (apply elem_of_cons in Hop as [->|Hop]);
      [| |by apply elem_of_nil in Hin|by apply elem_of_nil in Hop].
    + by apply elem_of_nil in Hin.
    + by apply list_elem_of_singleton in Hin as ->.
  - reflexivity.
  - exact E.
  - cbn. apply list_elem_of_further, list_elem_of_here.
  - reflexivity.
  - apply list_elem_of_here.
  - split; [exact Hnone|]. by exists variable.
Defined.

(** ** 28. Statements *)

Lemma emitVariableDeclaration_fresh result trailingSemicolon st scope outer
    top below text :
  definingLiteral (resultValue result) = None ->
  ScopedHashTable_begin (resultValue result) (valueMapper st) = None ->
  valueMapper st = scope :: outer ->
  valueInScopeCount st = top :: below ->
  typeSpelling (resultType result) = Some text ->
  let name := "v" +:+ pretty (top + 1)%Z in
  exists ops,
    emitVariableDeclaration result trailingSemicolon st
    = Some (Success,
            mkCppEmitter (os st ++ ops) (declareVariablesAtTop st)
              (<[resultValue result := name]> scope :: outer)
              (blockMapper st) ((top + 1)%Z :: below)
              (labelInScopeCount st) (diagnostics st))
    /\ streamText ops
       = text +:+ " " +:+ name
         +:+ (if trailingSemicolon then ";" +:+ nl else EmptyString).
Proof.
  intros Hlit Hfresh Hvm Hcount Htext name.
  pose proof (emitType_prints (resultType result) st) as Htype.
  rewrite Htext in Htype. destruct Htype as (tops & Etype & Htops).
  exists (tops ++ OsWrite " " :: OsWrite name
          :: if trailingSemicolon then [OsWrite (";" +:+ nl)] else []).
  split.
  - unfold emitVariableDeclaration.
    rewrite run_bind, run_hasValueInScope.
    rewrite (proj2 (count_false _ _)) by done.
    rewrite run_andThen, Etype. unfold writeName.
    rewrite run_bind, run_write, !run_bind.
    rewrite (getOrCreateName_fresh _ scope outer top below) by done.
    fold name. rewrite run_write.
    destruct trailingSemicolon; run; unfold emitted, printed; cbn;
      by rewrite (right_id_L [] (++)), <- !(assoc_L (++)).
  - rewrite streamText_app, Htops. f_equal.
    destruct trailingSemicolon;
      by rewrite !streamText_write, streamText_nil, ?string_app_nil_r.
Qed.

(** X15: the statement printed for a binary operation.  Under the
    inline policy, for a result without name whose type has a spelling, the
    printer mints the next variable of the current scope and prints the
    type, the variable, [ = ] and the two operands around the operator;
    under the declare-at-top policy it prints the variable declared for the
    result, [ = ] and the same expression, and names nothing.  Operands are
    printed by their visible names. *)
Theorem printBinaryOperation_statement (result : OpResult) (lhs rhs : Value)
    (binaryOperator : string) (st : CppEmitter) (a b : string) :
  definingLiteral (resultValue result) = None ->
  (forall scope outer top below text,
     declareVariablesAtTop st = false ->
     ScopedHashTable_begin (resultValue result) (valueMapper st) = None ->
     valueMapper st = scope :: outer ->
     valueInScopeCount st = top :: below ->
     typeSpelling (resultType result) = Some text ->
     let variable := "v" +:+ pretty (top + 1)%Z in
     let names := <[resultValue result := variable]> scope :: outer in
     visibleName names lhs = Some a ->
     visibleName names rhs = Some b ->
     exists ops,
       printBinaryOperation [result] lhs rhs binaryOperator st
       = Some (Success,
               mkCppEmitter (os st ++ ops) false names (blockMapper st)
                 ((top + 1)%Z :: below) (labelInScopeCount st)
                 (diagnostics st))
       /\ streamText ops
          = text +:+ " " +:+ variable +:+ " = "
            +:+ a +:+ " " +:+ binaryOperator +:+ " " +:+ b)
  /\ (forall variable,
        declareVariablesAtTop st = true ->
        ScopedHashTable_begin (resultValue result) (valueMapper st)
        = Some variable ->
        visibleName (valueMapper st) lhs = Some a ->
        visibleName (valueMapper st) rhs = Some b ->
        exists ops,
          printBinaryOperation [result] lhs rhs binaryOperator st
          = Some (Success, emitted st ops)
          /\ streamText ops
             = variable +:+ " = "
               +:+ a +:+ " " +:+ binaryOperator +:+ " " +:+ b).
Proof.
  intros Hlit. split.
  - intros scope outer top below text Hpolicy Hfresh Hvm Hcount Htext
      variable names Ha Hb.
    destruct (emitVariableDeclaration_fresh result false st scope outer top
                below text) as (dops & Edecl & Hdops); [done..|].
    fold variable names in Edecl. rewrite Hpolicy in Edecl.
    exists (dops ++ [OsWrite " = "; OsWrite a; OsWrite " ";
                     OsWrite binaryOperator; OsWrite " "; OsWrite b]).
    split.
    + unfold printBinaryOperation, emitAssignPrefix.
      rewrite run_andThen, run_bind. unfold shouldDeclareVariablesAtTop.
      rewrite run_get, Hpolicy, run_andThen, Edecl.
      run. cbn [success]. run.
      rewrite (writeName_visible _ a) by done. run.
      rewrite (writeName_visible _ b) by done. run.
      unfold emitted. cbn. by rewrite <- !(assoc_L (++)).
    + rewrite streamText_app, Hdops, string_app_nil_r.
      rewrite !streamText_write, streamText_nil, string_app_nil_r.
      by rewrite !string_app_assoc.
  - intros variable Hpolicy Hbound Ha Hb.
    exists [OsWrite variable; OsWrite " = "; OsWrite a; OsWrite " ";
            OsWrite binaryOperator; OsWrite " "; OsWrite b].
    split.
    + unfold printBinaryOperation, emitAssignPrefix.
      rewrite run_andThen, run_bind. unfold shouldDeclareVariablesAtTop.
      rewrite run_get, Hpolicy, run_andThen.
      rewrite (emitVariableAssignment_bound _ variable) by done.
      run. cbn [success]. run.
      rewrite (writeName_visible _ a) by done. run.
      rewrite (writeName_visible _ b) by done. by run.
    + by rewrite !streamText_write, streamText_nil, string_app_nil_r.
Qed.

(** The instance of X15 for the sum of a variable and a literal under
    the inline policy. *)
Lemma printBinaryOperation_statement_witness :
  let i32 := IntegerType 32 Signless in
  let x := {| valueImpl := 1; definingLiteral := None |} in
  let one := {| valueImpl := 2; definingLiteral := Some "1" |} in
  let sum := {| valueImpl := 3; definingLiteral := None |} in
  let result := {| resultValue := sum; resultType := i32 |} in
  let st := mkCppEmitter [] false [{[x := "v1"]}] [∅] [1%Z; 0%Z] [0%Z; 0%Z]
              [] in
  exists ops,
    printBinaryOperation [result] x one "+" st
    = Some (Success,
            mkCppEmitter ([] ++ ops) false
              [<[sum := "v" +:+ pretty (1 + 1)%Z]> {[x := "v1"]}] [∅]
              [(1 + 1)%Z; 0%Z] [0%Z; 0%Z] [])
    /\ streamText ops
       = "int32_t" +:+ " " +:+ ("v" +:+ pretty (1 + 1)%Z) +:+ " = "
         +:+ "v1" +:+ " " +:+ "+" +:+ " " +:+ "1".
Proof.
  intros i32 x one sum result st.
  apply (proj1 (printBinaryOperation_statement result x one "+" st "v1" "1"
                  eq_refl) {[x := "v1"]} [] 1%Z [0%Z] "int32_t");
    vm_compute; reflexivity.
Defined.

(** ** 29. Operands with attributes, and returns *)

Lemma list_all_forallb {A} (f : A -> bool) (P : A -> Prop) l :
  (forall x, f x = true -> P x) -> forallb f l = true -> list_all A P l.
Proof.
  intros Hf. induction l as [|x l IH]; [constructor|].
  cbn [forallb]. intros [Hx Hl]%andb_true_iff. constructor; auto.
Qed.

Lemma namedAttribute_prints exclude attr st :
  is_contained exclude (attrName attr) || castsToTensor (attrValue attr)
  = true ->
  prints operandDiagnostics
    (if is_contained exclude (attrName attr) then ret (success true)
     else
       write "/* ";; write (attrName attr);; write " */";;
       (emitAttribute (attrValue attr) >>? ret (success true)))
    (namedAttributeSpelling exclude attr) st.
Proof.
  unfold namedAttributeSpelling.
  destruct (is_contained exclude (attrName attr)); [intros _; apply ret_prints|].
  cbn [orb]. intros Hcast.
  eapply prints_ext;
    [|apply write_then_prints; intros ops1;
      apply write_then_prints; intros ops2;
      apply write_then_prints; intros ops3;
      apply andThen_prints;
      [eapply prints_weaken; [|by apply emitAttribute_prints];
       intros msg Hmsg; by apply list_elem_of_further
      |intros ops4; apply ret_prints]].
  destruct (attributeSpelling (attrValue attr)) as [text|]; [|done].
  simpl. by rewrite string_app_nil_r, ?string_app_assoc.
Qed.

Lemma emitOperandsAndAttributes_prints operands attrs exclude st :
  namedAttributesCast exclude attrs = true ->
  prints operandDiagnostics
    (emitOperandsAndAttributes operands attrs exclude)
    (operandsAndAttributesSpelling (valueMapper st) operands attrs exclude)
    st.
Proof.
  intros Hcast.
  unfold emitOperandsAndAttributes, operandsAndAttributesSpelling.
  set (separate := bool_decide (0 < length operands) && existsb _ attrs).
  eapply prints_ext;
    [|apply andThen_prints;
      [eapply prints_weaken; [|apply emitOperands_prints];
       intros msg ->%list_elem_of_singleton; apply list_elem_of_here
      |intros ops;
       apply (writes_then_prints _ _ _
                (if separate then ", " else EmptyString));
       [destruct separate; [apply writes_write|apply writes_ret]
       |intros ops';
        apply (interleaveCommaWithError_prints _ _
                 (namedAttributeSpelling exclude) (fun _ => True));
        [done| |done];
        revert Hcast; apply list_all_forallb; intros attr Hattr st' _;
        by apply namedAttribute_prints]]].
  destruct (mapM (visibleName (valueMapper st)) operands) as [names|];
    [|done].
  simpl. by destruct (mapM (namedAttributeSpelling exclude) attrs).
Qed.

Lemma emitOperandsAndAttributes_prints_at vm operands attrs exclude st :
  namedAttributesCast exclude attrs = true ->
  valueMapper st = vm ->
  prints operandDiagnostics
    (emitOperandsAndAttributes operands attrs exclude)
    (operandsAndAttributesSpelling vm operands attrs exclude) st.
Proof. intros Hcast <-. by apply emitOperandsAndAttributes_prints. Qed.

(** The printer of a return of two or more values. *)
Lemma printOperation_ReturnOp_prints first second rest attrs st :
  namedAttributesCast [] attrs = true ->
  prints operandDiagnostics
    (printOperation_ReturnOp (first :: second :: rest) attrs)
    ((fun text => "return std::make_tuple(" +:+ text +:+ ")")
       <$> operandsAndAttributesSpelling (valueMapper st)
             (first :: second :: rest) attrs []) st.
Proof.
  intros Hcast. unfold printOperation_ReturnOp.
  eapply prints_ext;
    [|apply write_then_prints; intros ops1;
      apply write_then_prints; intros ops2;
      apply andThen_prints;
      [by apply (emitOperandsAndAttributes_prints_at (valueMapper st))
      |intros ops3;
       apply (write_then_prints _ ")" (ret (success true))
                (Some EmptyString));
       intros ops4; apply ret_prints]].
  destruct (operandsAndAttributesSpelling _ _ _ _) as [text|]; [|done].
  simpl. by rewrite string_app_nil_r, <- string_app_assoc.
Qed.

(** An attribute that does not pass the casts of [emitAttribute] stops the
    printer where it is reached. *)
Lemma emitAttribute_cast_fails attr st :
  castsToTensor attr = false -> emitAttribute attr st = None.
Proof.
  intros Hcast. destruct attr; try done.
  cbn [castsToTensor] in Hcast. apply bool_decide_eq_false in Hcast.
  cbn [emitAttribute].
  destruct (castTensorElementType type) as [elt|]; [|done].
  destruct Hcast. by exists elt.
Qed.

(** X16: what [emitOperandsAndAttributes] prints.  Provided no attribute
    that is not excluded is a dense integer attribute of a vector type: the
    visible names of the operands separated by commas, then the attributes
    separated by commas, each one as its name in a comment followed by its
    value; an excluded attribute prints nothing but keeps its place between
    the commas; a comma separates the operands from the attributes when
    there is an operand and an attribute that is not excluded.  The printer
    fails with one diagnostic when an operand has no visible name or an
    attribute that is not excluded has no spelling, and never names a
    value.  On a single attribute that does not pass the cast, the printer
    has no result once the operands are printed. *)
Theorem emitOperandsAndAttributes_spelling (operands : list Value)
    (attrs : list NamedAttribute) (exclude : list string) (st : CppEmitter) :
  (namedAttributesCast exclude attrs = true ->
   prints operandDiagnostics
     (emitOperandsAndAttributes operands attrs exclude)
     (operandsAndAttributesSpelling (valueMapper st) operands attrs exclude)
     st)
  /\ (forall attr,
        attrs = [attr] ->
        namedAttributesCast exclude attrs = false ->
        is_Some (mapM (visibleName (valueMapper st)) operands) ->
        emitOperandsAndAttributes operands attrs exclude st = None).
Proof.
  split; [apply emitOperandsAndAttributes_prints|].
  intros attr -> Hcast [names Hnames].
  cbn [namedAttributesCast forallb] in Hcast.
  rewrite andb_true_r in Hcast.
  apply orb_false_iff in Hcast as [Hexclude Hcast].
  pose proof (emitOperands_prints operands st) as Hoperands.
  rewrite Hnames in Hoperands. destruct Hoperands as (ops & E & _).
  unfold emitOperandsAndAttributes.
  rewrite run_andThen, E, run_bind.
  assert (forall st',
            interleaveCommaWithError [attr]
              (fun attr =>
                 if is_contained exclude (attrName attr)
                 then ret (success true)
                 else
                   write "/* ";; write (attrName attr);; write " */";;
                   (emitAttribute (attrValue attr) >>? ret (success true)))
              st' = None) as Hattr.
  { intros st'. unfold interleaveCommaWithError, interleaveWithError.
    rewrite run_andThen, Hexclude. run.
    by rewrite (emitAttribute_cast_fails _ _ Hcast). }
  destruct (bool_decide _ && _); [rewrite run_write|rewrite run_ret];
    apply Hattr.
Qed.

(** The instance of X16 for two operands and two attributes, the first
    excluded. *)
Lemma emitOperandsAndAttributes_spelling_witness :
  let x := {| valueImpl := 1; definingLiteral := None |} in
  let st := mkCppEmitter [] false [{[x := "v1"]}] [∅] [1%Z; 0%Z] [0%Z; 0%Z]
              [] in
  let attrs :=
    [{| attrName := "a"; attrValue := OpaqueAttr "1" |};
     {| attrName := "b";
        attrValue :=
          DenseIntElementsAttr (RankedTensorType [2%Z] IndexType)
            [{| getBitWidth := 64; getZExtValue := 3 |};
             {| getBitWidth := 64; getZExtValue := 4 |}] |}] in
  namedAttributesCast ["a"] attrs = true
  /\ prints operandDiagnostics (emitOperandsAndAttributes [x; x] attrs ["a"])
       (operandsAndAttributesSpelling (valueMapper st) [x; x] attrs ["a"])
       st.
Proof.
  intros x st attrs.
  assert (namedAttributesCast ["a"] attrs = true) as Hcast by reflexivity.
  split; [exact Hcast|].
  exact (proj1 (emitOperandsAndAttributes_spelling [x; x] attrs ["a"] st)
           Hcast).
Defined.

(** X17: a return of no value prints [return]; a return of two or more
    values prints them, with the attributes of the operation, as the
    arguments of [std::make_tuple], and fails with one diagnostic when a
    value has no visible name or an attribute has no spelling, provided no
    attribute of the operation is a dense integer attribute of a vector
    type. *)
Theorem printOperation_ReturnOp_tuple (attrs : list NamedAttribute)
    (st : CppEmitter) :
  printOperation_ReturnOp [] attrs st
  = Some (Success, emitted st [OsWrite "return"])
  /\ forall first second rest,
       namedAttributesCast [] attrs = true ->
       prints operandDiagnostics
         (printOperation_ReturnOp (first :: second :: rest) attrs)
         ((fun text => "return std::make_tuple(" +:+ text +:+ ")")
            <$> operandsAndAttributesSpelling (valueMapper st)
                  (first :: second :: rest) attrs []) st.
Proof.
  split; [reflexivity|]. intros first second rest.
  apply printOperation_ReturnOp_prints.
Qed.

(** The instance of X17 for a return of a variable and a literal. *)
Lemma printOperation_ReturnOp_tuple_witness :
  let x := {| valueImpl := 1; definingLiteral := None |} in
  let one := {| valueImpl := 2; definingLiteral := Some "1" |} in
  let st := mkCppEmitter [] false [{[x := "v1"]}] [∅] [1%Z; 0%Z] [0%Z; 0%Z]
              [] in
  operandsAndAttributesSpelling (valueMapper st) [x; one] [] []
  = Some "v1, 1"
  /\ prints operandDiagnostics (printOperation_ReturnOp [x; one] [])
       (Some "return std::make_tuple(v1, 1)") st.
Proof.
  intros x one st.
  assert (operandsAndAttributesSpelling (valueMapper st) [x; one] [] []
          = Some "v1, 1") as Hspelling by (vm_compute; reflexivity).
  split; [exact Hspelling|].
  pose proof (proj2 (printOperation_ReturnOp_tuple [] st) x one [] eq_refl)
    as Hprints.
  rewrite Hspelling in Hprints. exact Hprints.
Defined.



(** ** 30. Results assigned together *)

Lemma namesAndWrites_refl st scope outer top below :
  valueMapper st = scope :: outer ->
  valueInScopeCount st = top :: below ->
  namesAndWrites st st [] outer below.
Proof.
  intros Ev Ec. split; [by rewrite (right_id_L [] (++))|].
  split; [done|]. split; [done|]. split; [reflexivity|].
  by exists scope, top.
Qed.

Lemma namesAndWrites_emitted st st' ops outer below pre :
  namesAndWrites (emitted st pre) st' ops outer below ->
  namesAndWrites st st' (pre ++ ops) outer below.
Proof.
  intros (Hos & Hdiag & Hpolicy & Hnested & Hshape).
  split; [rewrite Hos; cbn; by rewrite <- (assoc_L (++))|].
  split; [exact Hdiag|]. split; [exact Hpolicy|].
  split; [exact Hnested|exact Hshape].
Qed.

Lemma namesAndWrites_trans st1 st2 st3 ops1 ops2 outer below :
  namesAndWrites st1 st2 ops1 outer below ->
  namesAndWrites st2 st3 ops2 outer below ->
  namesAndWrites st1 st3 (ops1 ++ ops2) outer below.
Proof.
  intros (Hos & Hdiag & Hpolicy & Hnested & _)
         (Hos' & Hdiag' & Hpolicy' & Hnested' & Hshape).
  split; [by rewrite Hos', Hos, <- (assoc_L (++))|].
  split; [congruence|]. split; [congruence|].
  split; [by etrans|done].
Qed.

Lemma getOrCreateName_total val st scope outer top below :
  valueMapper st = scope :: outer ->
  valueInScopeCount st = top :: below ->
  exists name st',
    getOrCreateName val st = Some (name, st')
    /\ visibleName (valueMapper st') val = Some name
    /\ namesAndWrites st st' [] outer below.
Proof.
  intros Ev Ec.
  assert (exists name st', getOrCreateName val st = Some (name, st')
          /\ os st' = os st /\ diagnostics st' = diagnostics st
          /\ declareVariablesAtTop st' = declareVariablesAtTop st
          /\ exists scope' top',
               valueMapper st' = scope' :: outer
               /\ valueInScopeCount st' = top' :: below)
    as (name & st' & E & Hos & Hdiag & Hpolicy & Hshape).
  { destruct (definingLiteral val) as [literal|] eqn:Hlit.
    { exists literal, st. rewrite (getOrCreateName_literal _ literal) by done.
      repeat split. by exists scope, top. }
    destruct (ScopedHashTable_begin val (valueMapper st)) as [name|] eqn:Hname.
    { exists name, st. rewrite (getOrCreateName_bound _ name) by done.
      repeat split. by exists scope, top. }
    eexists _, _.
    rewrite (getOrCreateName_fresh _ scope outer top below) by done.
    split; [reflexivity|]. cbn. repeat split. by eexists _, _. }
  exists name, st'. split; [done|].
  split; [by eapply visibleName_getOrCreateName|].
  split; [by rewrite Hos, (right_id_L [] (++))|].
  split; [done|]. split; [done|].
  split; [by eapply nested_getOrCreateName|done].
Qed.

Lemma visibleName_nested val name st st' :
  nested st st' ->
  visibleName (valueMapper st) val = Some name ->
  visibleName (valueMapper st') val = Some name.
Proof.
  intros (Hkept & _). unfold visibleName.
  destruct (definingLiteral val); [done|]. by apply scopesKept_begin.
Qed.

Lemma writeName_total val st scope outer top below :
  valueMapper st = scope :: outer ->
  valueInScopeCount st = top :: below ->
  exists name st',
    writeName val st = Some (tt, st')
    /\ visibleName (valueMapper st') val = Some name
    /\ namesAndWrites st st' [OsWrite name] outer below.
Proof.
  intros Ev Ec.
  destruct (getOrCreateName_total val st scope outer top below Ev Ec)
    as (name & st1 & E1 & Hname & Hos & Hdiag & Hpolicy & Hnested & Hshape).
  exists name, (emitted st1 [OsWrite name]).
  unfold writeName. rewrite run_bind, E1, run_write.
  split; [done|]. split; [done|].
  rewrite (right_id_L [] (++)) in Hos.
  split; [unfold emitted; cbn [os]; by rewrite Hos|].
  split; [exact Hdiag|]. split; [exact Hpolicy|].
  split; [exact Hnested|exact Hshape].
Qed.

Lemma writeNames_rest_total (vals : list Value) st scope outer top below :
  valueMapper st = scope :: outer ->
  valueInScopeCount st = top :: below ->
  exists names ops st',
    forEach (fun val => write ", ";; writeName val) vals st = Some (tt, st')
    /\ mapM (visibleName (valueMapper st')) vals = Some names
    /\ streamText ops
       = foldr (fun s rest => ", " +:+ s +:+ rest) EmptyString names
    /\ namesAndWrites st st' ops outer below.
Proof.
  revert st scope top.
  induction vals as [|val vals IH]; intros st scope top Ev Ec.
  { exists [], [], st. split; [done|]. split; [done|]. split; [done|].
    by eapply namesAndWrites_refl. }
  destruct (writeName_total val (emitted st [OsWrite ", "]) scope outer top
              below Ev Ec) as (name & st1 & E1 & Hname & H1).
  pose proof H1 as (_ & _ & _ & _ & scope1 & top1 & Ev1 & Ec1).
  destruct (IH st1 scope1 top1 Ev1 Ec1)
    as (names & ops & st' & E' & Hnames & Htext & H').
  exists (name :: names), ([OsWrite ", "] ++ [OsWrite name] ++ ops), st'.
  split; [|split; [|split]].
  - cbn [forEach]. run. by rewrite E1.
  - cbn [mapM]. destruct H' as (_ & _ & _ & Hnested' & _).
    rewrite (visibleName_nested val name st1 st') by done.
    by rewrite Hnames.
  - cbn [app]. by rewrite !streamText_write, Htext.
  - apply namesAndWrites_emitted. by eapply namesAndWrites_trans.
Qed.

Lemma writeNames_total (vals : list Value) st scope outer top below :
  valueMapper st = scope :: outer ->
  valueInScopeCount st = top :: below ->
  exists names ops st',
    interleaveComma vals writeName st = Some (tt, st')
    /\ mapM (visibleName (valueMapper st')) vals = Some names
    /\ streamText ops = commaJoin names
    /\ namesAndWrites st st' ops outer below.
Proof.
  intros Ev Ec. destruct vals as [|val vals].
  { exists [], [], st. split; [done|]. split; [done|]. split; [done|].
    by eapply namesAndWrites_refl. }
  destruct (writeName_total val st scope outer top below Ev Ec)
    as (name & st1 & E1 & Hname & H1).
  pose proof H1 as (_ & _ & _ & _ & scope1 & top1 & Ev1 & Ec1).
  destruct (writeNames_rest_total vals st1 scope1 outer top1 below Ev1 Ec1)
    as (names & ops & st' & E' & Hnames & Htext & H').
  exists (name :: names), ([OsWrite name] ++ ops), st'.
  split; [|split; [|split]].
  - cbn [interleaveComma]. by rewrite run_bind, E1.
  - cbn [mapM]. destruct H' as (_ & _ & _ & Hnested' & _).
    rewrite (visibleName_nested val name st1 st') by done.
    by rewrite Hnames.
  - cbn [app]. by rewrite commaJoin_cons, streamText_write, Htext.
  - by eapply namesAndWrites_trans.
Qed.

Lemma forEach_fmap {A B} (g : A -> B) (f : B -> M unit) l st :
  forEach (fun x => f (g x)) l st = forEach f (g <$> l) st.
Proof.
  revert st. induction l as [|x l IH]; intros st; [done|].
  cbn [forEach fmap list_fmap]. rewrite !run_bind.
  destruct (f (g x) st) as [[[] st1]|]; [apply IH|done].
Qed.

Lemma interleaveComma_fmap {A B} (g : A -> B) (f : B -> M unit) l st :
  interleaveComma l (fun x => f (g x)) st = interleaveComma (g <$> l) f st.
Proof.
  destruct l as [|x l]; [done|].
  cbn [interleaveComma fmap list_fmap]. rewrite !run_bind.
  destruct (f (g x) st) as [[[] st1]|]; [|done].
  apply (forEach_fmap g (fun y => write ", ";; f y)).
Qed.

(** X18: an assignment to several results does not ask whether they were
    declared.  Under the declare-at-top policy the prefix for one result
    without name is refused as not declared, whereas the prefix for two or
    more results always succeeds inside a scope: it prints [std::tie(] and
    [) = ] around the results' names, minting a name for each result that
    has none, and reports nothing. *)
Theorem emitAssignPrefix_tie (st : CppEmitter) scope outer top below :
  declareVariablesAtTop st = true ->
  valueMapper st = scope :: outer ->
  valueInScopeCount st = top :: below ->
  (forall result,
     ScopedHashTable_begin (resultValue result) (valueMapper st) = None ->
     emitAssignPrefix [result] st
     = Some (Failure,
             diagnosed st
               "result variable for the operation has not been declared"))
  /\ (forall first second rest,
        let results := first :: second :: rest in
        exists names ops st',
          emitAssignPrefix results st = Some (Success, st')
          /\ mapM (visibleName (valueMapper st')) (resultValue <$> results)
             = Some names
          /\ os st' = os st ++ ops
          /\ streamText ops = "std::tie(" +:+ commaJoin names +:+ ") = "
          /\ diagnostics st' = diagnostics st).
Proof.
  intros Hpolicy Ev Ec. split.
  - intros result Hfresh. cbn [emitAssignPrefix].
    rewrite run_bind. unfold shouldDeclareVariablesAtTop.
    rewrite run_get, Hpolicy, run_andThen.
    unfold emitVariableAssignment. rewrite run_bind, run_hasValueInScope.
    by rewrite (proj2 (count_false _ _)).
  - intros first second rest results.
    destruct (writeNames_total (resultValue <$> results)
                (emitted st [OsWrite "std::tie("]) scope outer top below
                Ev Ec)
      as (names & ops & st1 & E1 & Hnames & Htext & Hos & Hdiag & _).
    exists names, ([OsWrite "std::tie("] ++ ops ++ [OsWrite ") = "]),
      (emitted st1 [OsWrite ") = "]).
    split; [|split; [done|split; [|split]]].
    + unfold results. cbn [emitAssignPrefix].
      rewrite run_bind. unfold shouldDeclareVariablesAtTop.
      rewrite run_get, Hpolicy. cbn [negb]. run.
      fold results. rewrite interleaveComma_fmap, E1. by run.
    + cbn. rewrite Hos. cbn. by rewrite <- !(assoc_L (++)).
    + cbn [app]. rewrite streamText_write, streamText_app, Htext.
      by rewrite streamText_write, streamText_nil, string_app_nil_r.
    + done.
Qed.

(** The instance of X18 for two results without names in a fresh scope. *)
Lemma emitAssignPrefix_tie_witness :
  let i32 := IntegerType 32 Signless in
  let r1 := {| resultValue := {| valueImpl := 1; definingLiteral := None |};
               resultType := i32 |} in
  let r2 := {| resultValue := {| valueImpl := 2; definingLiteral := None |};
               resultType := i32 |} in
  let st := mkCppEmitter [] true [∅] [∅] [0%Z; 0%Z] [0%Z; 0%Z] [] in
  (fun p => (p.1, streamText (os p.2))) <$> emitAssignPrefix [r1; r2] st
  = Some (Success, "std::tie(v1, v2) = ")
  /\ emitAssignPrefix [r1] st
     = Some (Failure,
             diagnosed st
               "result variable for the operation has not been declared").
Proof.
  intros i32 r1 r2 st. split; [vm_compute; reflexivity|].
  exact (proj1 (emitAssignPrefix_tie st ∅ [] 0%Z [0%Z] eq_refl eq_refl
                  eq_refl) r1 eq_refl).
Defined.

(** ** 31. Calls *)

Lemma emitArgs_prints vm operands attr st :
  castsToTensor attr = true ->
  valueMapper st = vm ->
  prints (argDiagnostics operands) (emitArgs operands attr)
    (argSpelling vm operands attr) st.
Proof.
  intros Hcast <-.
  assert (prints (argDiagnostics operands)
            (emitAttribute attr >>? ret (success true))
            (attributeSpelling attr) st) as Hother.
  { eapply prints_ext;
      [|apply andThen_prints;
        [eapply prints_weaken; [|by apply emitAttribute_prints];
         intros msg Hmsg; apply list_elem_of_further, elem_of_app; right;
         by apply list_elem_of_further
        |intros ops; apply ret_prints]].
    destruct (attributeSpelling attr); [|done].
    simpl. by rewrite string_app_nil_r. }
  destruct attr as [v|vs|ty t|ty vs|v|root nestedRefs|ty|m]; try exact Hother.
  destruct ty; try exact Hother.
  cbn [emitArgs argSpelling]. set (idx := getSExtValue t).
  destruct ((idx <? 0) || (Z.of_nat (length operands) <=? idx))%Z eqn:Hrange.
  { apply emitError_prints, list_elem_of_here. }
  apply orb_false_iff in Hrange as [Hpos%Z.ltb_ge Hlt%Z.leb_gt].
  destruct (operands !! Z.to_nat idx) as [operand|] eqn:Hlookup.
  2:{ apply lookup_ge_None in Hlookup. lia. }
  cbn [mbind option_bind]. unfold prints.
  rewrite run_bind, run_hasValueInScope.
  destruct (ScopedHashTable_count operand (valueMapper st)) eqn:Hcount.
  - apply count_true in Hcount as [name Hname].
    assert (is_Some (visibleName (valueMapper st) operand)) as [text Htext].
    { unfold visibleName. rewrite Hname. by destruct (definingLiteral _). }
    rewrite Htext. cbn [negb]. exists [OsWrite text].
    rewrite run_bind, (writeName_visible _ text) by done.
    split; [by rewrite run_ret, emitted_printed|].
    by rewrite streamText_write, streamText_nil, string_app_nil_r.
  - cbn [negb]. exists [], ("operand " +:+ pretty idx
                           +:+ "'s value not defined in scope").
    split; [|by rewrite run_emitError, diagnosed_printed].
    apply list_elem_of_further, elem_of_app. left.
    apply list_elem_of_fmap. exists (Z.to_nat idx).
    split; [by rewrite Z2Nat.id|]. apply elem_of_seq. lia.
Qed.

Lemma emitArgs_list_prints operands attrs st :
  forallb castsToTensor attrs = true ->
  prints (argDiagnostics operands)
    (interleaveCommaWithError attrs (emitArgs operands))
    (commaJoin <$> mapM (argSpelling (valueMapper st) operands) attrs) st.
Proof.
  intros Hcast.
  apply (interleaveCommaWithError_prints _ _ _
           (fun st' => valueMapper st' = valueMapper st)); [done| |done].
  revert Hcast. apply list_all_forallb.
  intros attr Hattr st' Hst'. by apply emitArgs_prints.
Qed.

(** X19: the text of a call without results.  [emitc.call], when none of
    its arguments and template arguments is a dense integer attribute of a
    vector type, prints the callee, the template arguments in angle
    brackets when there are any, and in parentheses its arguments (an index
    argument as the operand it selects) or, without arguments, its
    operands; [func.call] prints the callee and the operands.  Both fail
    with one diagnostic when an argument cannot be printed, and name
    nothing. *)
Theorem call_spelling (callee : string) (operands : list Value)
    (st : CppEmitter) :
  (forall args templateArgs,
     argumentsCast args = true ->
     argumentsCast templateArgs = true ->
     prints (argDiagnostics operands)
       (printOperation_emitc_CallOp callee args templateArgs [] operands)
       (callSpelling (valueMapper st) callee args templateArgs operands) st)
  /\ prints (argDiagnostics operands)
       (printOperation_func_CallOp callee [] operands)
       (callSpelling (valueMapper st) callee None None operands) st.
Proof.
  assert (forall st', valueMapper st' = valueMapper st ->
            prints (argDiagnostics operands) (emitOperands operands)
              (commaJoin <$> mapM (visibleName (valueMapper st)) operands)
              st') as Hoperands.
  { intros st' <-. eapply prints_weaken; [|apply emitOperands_prints].
    intros msg ->%list_elem_of_singleton.
    apply list_elem_of_further, elem_of_app. right. apply list_elem_of_here. }
  assert (forall attrs st',
            forallb castsToTensor attrs = true ->
            valueMapper st' = valueMapper st ->
            prints (argDiagnostics operands)
              (interleaveCommaWithError attrs (emitArgs operands))
              (commaJoin
                 <$> mapM (argSpelling (valueMapper st) operands) attrs) st')
    as Hargs.
  { intros attrs st' Hcast <-. by apply emitArgs_list_prints. }
  assert (forall text st',
            prints (argDiagnostics operands)
              (write text;; ret (success true)) (Some text) st') as Hwrite.
  { intros text st'. apply writes_prints, writes_write. }
  split.
  - intros args templateArgs Hcast Htcast.
    unfold printOperation_emitc_CallOp, callSpelling.
    cbn [emitAssignPrefix]. unfold prints at 1.
    rewrite run_andThen, run_ret. fold (prints (argDiagnostics operands)).
    destruct templateArgs as [tattrs|], args as [attrs|];
      (eapply prints_ext;
       [|apply write_then_prints; intros ops1; apply andThen_prints;
         [first
            [ apply ret_prints
            | apply write_then_prints; intros ops;
              apply andThen_prints;
              [by apply Hargs|intros ops'; apply Hwrite] ]
         |intros ops2; apply write_then_prints; intros ops3;
          apply andThen_prints;
          [first [by apply Hargs|by apply Hoperands]
          |intros ops4; apply Hwrite]]]);
      cbn;
      repeat match goal with
             | |- context [mapM ?f ?l] => destruct (mapM f l)
             end; cbn; try done;
      by rewrite ?string_app_nil_r, ?string_app_assoc.
  - unfold printOperation_func_CallOp, callSpelling.
    cbn [emitAssignPrefix]. unfold prints at 1.
    rewrite run_andThen, run_ret. fold (prints (argDiagnostics operands)).
    eapply prints_ext;
      [|apply write_then_prints; intros ops1;
        apply write_then_prints; intros ops2;
        apply andThen_prints;
        [by apply Hoperands|intros ops3; apply Hwrite]].
    cbn. destruct (mapM _ operands); cbn; [|done].
    by rewrite ?string_app_nil_r, ?string_app_assoc.
Qed.

(** The instance of X19 for a call with a template argument, an index
    argument and an opaque argument. *)
Lemma call_spelling_witness :
  let i32 := IntegerType 32 Signless in
  let x := {| valueImpl := 1; definingLiteral := None |} in
  let index n :=
    IntegerAttr IndexType {| getBitWidth := 64; getZExtValue := n |} in
  let st := mkCppEmitter [] false [{[x := "v1"]}] [∅] [1%Z; 0%Z] [0%Z; 0%Z]
              [] in
  let args := Some [index 0%Z; OpaqueAttr "3"] in
  let templateArgs := Some [TypeAttr i32] in
  argumentsCast args = true /\ argumentsCast templateArgs = true
  /\ prints (argDiagnostics [x])
       (printOperation_emitc_CallOp "foo" args templateArgs [] [x])
       (Some "foo<int32_t>(v1, 3)") st.
Proof.
  intros i32 x index st args templateArgs.
  split; [reflexivity|]. split; [reflexivity|].
  pose proof (proj1 (call_spelling "foo" [x] st) args templateArgs eq_refl
                eq_refl) as Hprints.
  assert (callSpelling (valueMapper st) "foo" args templateArgs [x]
          = Some "foo<int32_t>(v1, 3)") as Hspelling
    by (vm_compute; reflexivity).
  rewrite Hspelling in Hprints. exact Hprints.
Defined.

(** The spellings on a call with a template argument, an index argument
    and an attribute, on an index out of range, and on operands followed by
    attributes of which the first is excluded. *)
Example call_example :
  let i32 := IntegerType 32 Signless in
  let x := {| valueImpl := 1; definingLiteral := None |} in
  let index n := IntegerAttr IndexType {| getBitWidth := 64; getZExtValue := n |} in
  let st := mkCppEmitter [] false [{[x := "v1"]}] [∅] [1%Z; 0%Z] [0%Z; 0%Z]
              [] in
  callSpelling (valueMapper st) "foo" (Some [index 0%Z; OpaqueAttr "3"])
    (Some [TypeAttr i32]) [x]
  = Some "foo<int32_t>(v1, 3)"
  /\ (fun p => (p.1, streamText (os p.2))) <$>
       printOperation_emitc_CallOp "foo" (Some [index 0%Z; OpaqueAttr "3"])
         (Some [TypeAttr i32]) [] [x] st
     = Some (Success, "foo<int32_t>(v1, 3)")
  /\ (fun p => (p.1, diagnostics p.2)) <$>
       printOperation_emitc_CallOp "foo" (Some [index 1%Z]) None [] [x] st
     = Some (Failure, ["invalid operand index"])
  /\ operandsAndAttributesSpelling (valueMapper st) [x; x]
       [{| attrName := "a"; attrValue := OpaqueAttr "1" |};
        {| attrName := "b"; attrValue := OpaqueAttr "2" |}] ["a"]
     = Some "v1, v1, , /* b */2".
Proof. vm_compute. repeat split. Qed.

(** ** 32. The emitter returns *)

Lemma keepsScopes_closed : EmitterClosed keepsScopes.
Proof. exact nested_closed. Qed.

(** Prove that a computation built from the emitter keeps the scopes. *)
Ltac scopes := solve [repeat closed_step keepsScopes keepsScopes_closed].

Lemma inScope_nested st st' : inScope st -> nested st st' -> inScope st'.
Proof.
  intros (Hv & Hb & Hvc & Hlc) (Kv & Kb & Kvc & Klc).
  unfold inScope, counted, scopesKept, countersKept in *.
  destruct (valueMapper st), (valueMapper st'); try done.
  destruct (blockMapper st), (blockMapper st'); try done.
  destruct (valueInScopeCount st), (valueInScopeCount st'); try done.
  destruct (labelInScopeCount st), (labelInScopeCount st'); try done.
Qed.

Lemma returns_ret {A} (a : A) : returns (ret a).
Proof. by intros st _. Qed.

Lemma returns_streamOp o : returns (streamOp o).
Proof. by intros st _. Qed.

Lemma returns_emitError msg : returns (emitError msg).
Proof. by intros st _. Qed.

Lemma returns_get {A} (f : CppEmitter -> A) : returns (get f).
Proof. by intros st _. Qed.

Lemma returns_bind {A B} (m : M A) (f : A -> M B) :
  keepsScopes _ m -> returns m -> (forall a, returns (f a)) ->
  returns (m ≫= f).
Proof.
  intros Hkeeps Hm Hf st Hst. rewrite run_bind.
  destruct (Hm st Hst) as [[a st1] E]. rewrite E.
  apply Hf. eapply inScope_nested; [done|]. by eapply Hkeeps.
Qed.

Lemma returns_andThen m k :
  keepsScopes _ m -> returns m -> returns k -> returns (m >>? k).
Proof.
  intros Hkeeps Hm Hk. unfold andThen. apply returns_bind; [done..|].
  intros []; [done|apply returns_ret].
Qed.

Lemma returns_getOrCreateName val : returns (getOrCreateName val).
Proof.
  intros st (Hv & _ & Hvc & _).
  destruct (valueMapper st) as [|scope outer] eqn:Ev; [done|].
  destruct (valueInScopeCount st) as [|top below] eqn:Ec; [done|].
  destruct (getOrCreateName_total val st scope outer top below Ev Ec)
    as (name & st' & -> & _). done.
Qed.

Lemma returns_getOrCreateLabel block : returns (getOrCreateLabel block).
Proof.
  intros st (_ & Hb & _ & Hlc).
  destruct (blockMapper st) as [|scope outer] eqn:Eb; [done|].
  destruct (labelInScopeCount st) as [|top below] eqn:Ec; [done|].
  destruct (getOrCreateLabel_total block st scope outer top below Eb Ec)
    as (label & st' & -> & _). done.
Qed.

(** A scope can be entered wherever the counters have a top, also before
    the first scope; the body then runs inside a scope, and the scope can
    be left behind it. *)
Lemma withScope_returns {A} (m : M A) st :
  keepsScopes _ m -> returns m -> counted st -> is_Some (withScope m st).
Proof.
  intros Hkeeps Hm (Hvc & Hlc). unfold withScope. rewrite run_bind.
  unfold enterScope.
  destruct (valueInScopeCount st) as [|v vs] eqn:Ev; [done|].
  destruct (labelInScopeCount st) as [|l ls] eqn:El; [done|].
  rewrite run_bind.
  match goal with
  | |- context [m ?st1] =>
      destruct (Hm st1) as [[a st2] E]; [by repeat split|];
      rewrite E; apply Hkeeps in E as (Kv & Kb & Kvc & Klc)
  end.
  cbn in Kv, Kb, Kvc, Klc. rewrite run_bind. unfold exitScope.
  destruct (valueMapper st2); [done|]. destruct (blockMapper st2); [done|].
  destruct (valueInScopeCount st2); [done|].
  destruct (labelInScopeCount st2); [done|]. done.
Qed.

Lemma returns_withScope {A} (m : M A) :
  keepsScopes _ m -> returns m -> returns (withScope m).
Proof.
  intros Hkeeps Hm st (_ & _ & Hst). by apply withScope_returns.
Qed.

Lemma returns_forEach {A} (f : A -> M unit) l :
  (forall x, keepsScopes _ (f x)) -> (forall x, returns (f x)) ->
  returns (forEach f l).
Proof.
  intros Hkeeps Hf. induction l; simpl;
    [apply returns_ret|apply returns_bind; auto].
Qed.

Lemma returns_interleaveComma {A} (eachFn : A -> M unit) l :
  (forall x, keepsScopes _ (eachFn x)) -> (forall x, returns (eachFn x)) ->
  returns (interleaveComma l eachFn).
Proof.
  intros Hkeeps Hf. destruct l; simpl; [apply returns_ret|].
  apply returns_bind; [done..|]. intros _. apply returns_forEach.
  - intros y. scopes.
  - intros y. apply returns_bind; [scopes|apply returns_streamOp|done].
Qed.

Lemma returns_forEachWithError {A} (f : A -> M LogicalResult) l :
  (forall x, keepsScopes _ (f x)) ->
  list_all A (fun x => returns (f x)) l ->
  returns (forEachWithError f l).
Proof.
  intros Hkeeps Hl. induction Hl; simpl;
    [apply returns_ret|by apply returns_andThen].
Qed.

(** The loop over all operations of a region but the last returns when the
    region has an operation. *)
Lemma returns_forAllExceptLast {A} (f : A -> M LogicalResult) l :
  (forall x, keepsScopes _ (f x)) ->
  list_all A (fun x => returns (f x)) l ->
  l <> [] ->
  returns (forAllExceptLast f l).
Proof.
  intros Hkeeps Hl. induction Hl as [|x Hx l Hl IH]; [done|]. intros _.
  cbn [forAllExceptLast]. destruct l as [|y l]; [apply returns_ret|].
  apply returns_andThen; [done..|]. by apply IH.
Qed.

Lemma returns_interleaveCommaWithError {A} (eachFn : A -> M LogicalResult) l :
  (forall x, keepsScopes _ (eachFn x)) ->
  list_all A (fun x => returns (eachFn x)) l ->
  returns (interleaveCommaWithError l eachFn).
Proof.
  intros Hkeeps Hl. destruct Hl as [|x Hx l Hl]; simpl; [apply returns_ret|].
  apply returns_andThen; [done..|].
  induction Hl; simpl; [apply returns_ret|].
  apply returns_bind; [scopes|apply returns_streamOp|]. intros _.
  by apply returns_andThen.
Qed.

(** Take a computation apart along its sequencing and its case
    distinctions; there is no step for an assertion failure. *)
Ltac returns_step :=
  lazymatch goal with
  | H : returns ?m |- returns ?m => exact H
  | |- returns (ret _) => apply returns_ret
  | |- returns (streamOp _) => apply returns_streamOp
  | |- returns (write _) => apply returns_streamOp
  | |- returns (writeDirect _) => apply returns_streamOp
  | |- returns indent => apply returns_streamOp
  | |- returns unindent => apply returns_streamOp
  | |- returns (emitError _) => apply returns_emitError
  | |- returns shouldDeclareVariablesAtTop => apply returns_get
  | |- returns (hasValueInScope _) => apply returns_get
  | |- returns (hasBlockLabel _) => apply returns_get
  | |- returns (getOrCreateName _) => apply returns_getOrCreateName
  | |- returns (getOrCreateLabel _) => apply returns_getOrCreateLabel
  | |- returns (withScope _) => apply returns_withScope; [scopes|]
  | |- returns (andThen _ _) => apply returns_andThen; [scopes| |]
  | |- returns (mbind _ _) => apply returns_bind; [scopes| |intros ?]
  | |- returns (forEach _ _) =>
      apply returns_forEach; [intros ?; scopes|intros ?]
  | |- returns (interleaveComma _ _) =>
      apply returns_interleaveComma; [intros ?; scopes|intros ?]
  | |- returns (interleaveCommaWithError _ _) =>
      apply returns_interleaveCommaWithError;
      [intros ?; scopes
      |first [eassumption | apply list_all_intro; intros ?]]
  | |- returns (forEachWithError _ _) =>
      apply returns_forEachWithError;
      [intros ?; scopes
      |first [eassumption | apply list_all_intro; intros ?]]
  | |- returns (forAllExceptLast _ _) =>
      apply returns_forAllExceptLast;
      [intros ?; scopes|eassumption|assumption]
  | |- returns (match ?x with _ => _ end) => destruct x
  | |- returns _ => solve [auto 2]
  end.

Ltac returns_steps := repeat returns_step.

Lemma returns_emitType type : returns (emitType type).
Proof.
  induction type as [width s|width| |shape elt IH|elt IH|types IH|v|p IH|m];
    cbn [emitType]; try solve [returns_steps].
  unfold emitTupleTypeWith. returns_steps.
Qed.

(** Behind its casts the attribute printer returns. *)
Lemma returns_emitAttribute attr :
  castsToTensor attr = true -> returns (emitAttribute attr).
Proof.
  pose proof returns_emitType. intros Hcast.
  destruct attr as [v|vs|ty v|ty vs|v|root nested|ty|m];
    try solve [unfold emitAttribute, printFloat, printInt; returns_steps].
  cbn [castsToTensor] in Hcast. apply bool_decide_eq_true in Hcast.
  cbn [emitAttribute].
  destruct (castTensorElementType ty) as [elt|]; [|by destruct Hcast].
  unfold printInt. returns_steps.
Qed.

Lemma returns_writeName val : returns (writeName val).
Proof. unfold writeName. returns_steps. Qed.

Lemma returns_emitOperands operands : returns (emitOperands operands).
Proof. pose proof returns_writeName. unfold emitOperands. returns_steps. Qed.

Lemma returns_emitOperandsAndAttributes operands attrs exclude :
  namedAttributesCast exclude attrs = true ->
  returns (emitOperandsAndAttributes operands attrs exclude).
Proof.
  pose proof returns_emitOperands. intros Hcast.
  apply (list_all_forallb _
           (fun attr =>
              returns
                (if is_contained exclude (attrName attr)
                 then ret (success true)
                 else
                   write "/* ";; write (attrName attr);; write " */";;
                   (emitAttribute (attrValue attr) >>? ret (success true)))))
    in Hcast.
  - unfold emitOperandsAndAttributes. returns_steps.
  - intros attr Hattr.
    destruct (is_contained exclude (attrName attr)); [apply returns_ret|].
    pose proof (returns_emitAttribute (attrValue attr) Hattr).
    returns_steps.
Qed.

Lemma returns_emitVariableAssignment result :
  returns (emitVariableAssignment result).
Proof.
  pose proof returns_writeName. unfold emitVariableAssignment. returns_steps.
Qed.

Lemma returns_emitVariableDeclaration result trailingSemicolon :
  returns (emitVariableDeclaration result trailingSemicolon).
Proof.
  pose proof returns_writeName. pose proof returns_emitType.
  unfold emitVariableDeclaration. returns_steps.
Qed.

Lemma returns_emitAssignPrefix results : returns (emitAssignPrefix results).
Proof.
  pose proof returns_writeName. pose proof returns_emitVariableAssignment.
  pose proof returns_emitVariableDeclaration.
  unfold emitAssignPrefix. returns_steps.
Qed.

Lemma returns_emitLabel block : returns (emitLabel block).
Proof. unfold emitLabel. returns_steps. Qed.

Lemma returns_printConstantOp result value :
  castsToTensor value = true ->
  returns (printConstantOp result value).
Proof.
  pose proof returns_emitVariableAssignment.
  pose proof returns_emitVariableDeclaration.
  pose proof returns_emitAssignPrefix.
  intros Hcast%returns_emitAttribute.
  unfold printConstantOp. returns_steps.
Qed.

Lemma returns_printBinaryOperation results lhs rhs binaryOperator :
  returns (printBinaryOperation results lhs rhs binaryOperator).
Proof.
  pose proof returns_writeName. pose proof returns_emitAssignPrefix.
  unfold printBinaryOperation. returns_steps.
Qed.

Lemma returns_assignSuccessorArguments operands arguments :
  returns (assignSuccessorArguments operands arguments).
Proof.
  pose proof returns_writeName. unfold assignSuccessorArguments.
  returns_steps.
Qed.

(** The operand of an index argument is read only after the index was
    checked against the number of operands. *)
Lemma returns_emitArgs operands attr :
  castsToTensor attr = true -> returns (emitArgs operands attr).
Proof.
  pose proof returns_writeName. intros Hcast%returns_emitAttribute.
  assert (returns (emitAttribute attr >>? ret (success true))) as Hother
    by returns_steps.
  destruct attr as [v|vs|ty t|ty vs|v|root nestedRefs|ty|m]; try exact Hother.
  destruct ty; try exact Hother.
  cbn [emitArgs]. set (idx := getSExtValue t).
  destruct ((idx <? 0) || (Z.of_nat (length operands) <=? idx))%Z eqn:Hrange;
    [apply returns_emitError|].
  apply orb_false_iff in Hrange as [Hpos%Z.ltb_ge Hlt%Z.leb_gt].
  destruct (operands !! Z.to_nat idx) as [operand|] eqn:Hlookup.
  - returns_steps.
  - apply lookup_ge_None in Hlookup. lia.
Qed.

Lemma returns_declareResultsOf op : returns (declareResultsOf op).
Proof.
  pose proof returns_emitVariableDeclaration.
  unfold declareResultsOf. returns_steps.
Qed.

Lemma returns_leaf_printers :
  (forall operands successor,
     returns (printOperation_BranchOp operands successor))
  /\ (forall condition trueOperands falseOperands trueDest falseDest,
        returns (printOperation_CondBranchOp condition trueOperands
                   falseOperands trueDest falseDest))
  /\ (forall var value, returns (printOperation_AssignOp var value))
  /\ (forall callee results operands,
        returns (printOperation_func_CallOp callee results operands))
  /\ (forall callee args templateArgs results operands,
        argumentsCast args = true -> argumentsCast templateArgs = true ->
        returns (printOperation_emitc_CallOp callee args templateArgs
                   results operands))
  /\ (forall applicableOperator result operand,
        returns (printOperation_ApplyOp applicableOperator result operand))
  /\ (forall result operand, returns (printOperation_CastOp result operand))
  /\ (forall include isStandardInclude,
        returns (printOperation_IncludeOp include isStandardInclude))
  /\ (forall operands attrs,
        namedAttributesCast [] attrs = true ->
        returns (printOperation_ReturnOp operands attrs)).
Proof.
  pose proof returns_writeName. pose proof returns_emitType.
  pose proof returns_emitOperands.
  pose proof returns_emitOperandsAndAttributes.
  pose proof returns_emitVariableAssignment.
  pose proof returns_emitAssignPrefix.
  pose proof returns_assignSuccessorArguments.
  assert (forall operands attrs,
            argumentsCast (Some attrs) = true ->
            list_all Attribute (fun attr => returns (emitArgs operands attr))
              attrs) as Hargs.
  { intros operands attrs. apply list_all_forallb.
    intros attr. apply returns_emitArgs. }
  repeat split; intros;
    repeat match goal with
           | attrs : option (list Attribute) |- _ => destruct attrs
           end;
    repeat match goal with
           | H : argumentsCast (Some _) = true |- _ =>
               apply (Hargs operands) in H
           end;
    unfold printOperation_BranchOp, printOperation_CondBranchOp,
      printOperation_AssignOp, printOperation_func_CallOp,
      printOperation_emitc_CallOp, printOperation_ApplyOp,
      printOperation_CastOp, printOperation_IncludeOp,
      printOperation_ReturnOp; returns_steps.
Qed.

Lemma emittable_all (P : Operation -> Prop) ops :
  list_all Operation (fun op => emittable op = true -> P op) ops ->
  forallb emittable ops = true ->
  list_all Operation P ops.
Proof.
  intros Hl. induction Hl as [|op Hop ops Hl IH]; [constructor|].
  cbn [forallb]. intros [Hwf Hrest]%andb_true_iff. constructor; auto.
Qed.

Lemma returns_at ts ops :
  list_all Operation
    (fun op => emittable op = true ->
               forall ts, returns (emitOperation op ts)) ops ->
  forallb emittable ops = true ->
  list_all Operation (fun op => returns (emitOperation op ts)) ops.
Proof.
  intros Hl Hwf. apply (emittable_all _ _) in Hl; [|done].
  revert Hl. apply list_all_impl. intros op Hop. apply Hop.
Qed.

Lemma returns_emitBlocks blocks :
  list_all Block
    (Block__all Operation
       (fun op => emittable op = true ->
                  forall ts, returns (emitOperation op ts)))
    blocks ->
  forallb (fun block : Block =>
             forallb emittable (getOperations block)) blocks = true ->
  returns (emitBlocks emitOperation blocks).
Proof.
  intros Hall Hwf. pose proof returns_emitLabel.
  unfold emitBlocks, emitBlockLabel.
  apply returns_forEachWithError; [intros block; scopes|].
  induction Hall as [|block [id arguments ops Hops preds] blocks Hall IH];
    [constructor|].
  cbn [forallb getOperations] in Hwf.
  apply andb_true_iff in Hwf as [Hwf Hrest].
  constructor; [|by apply IH].
  apply (emittable_all _ _) in Hops; [|done].
  apply (list_all_impl _
           (fun op => returns (emitOperation op (negb (isBracedOrLiteral op)))))
    in Hops; [|intros op Hop; apply Hop].
  cbn [getOperations blockId hasNoPredecessors getPredecessors].
  returns_steps.
Qed.

Lemma nonEmpty_region (region : list Operation) :
  match region with [] => false | _ => true end = true -> region <> [].
Proof. by destruct region. Qed.

Lemma returns_emitOperation op :
  emittable op = true -> forall ts, returns (emitOperation op ts).
Proof.
  destruct returns_leaf_printers as (? & ? & ? & ? & ? & ? & ? & ? & ?).
  destruct (Phi_leaf_printers _ keepsScopes_closed)
    as (? & ? & ? & ? & ? & ? & ? & ? & ?).
  pose proof returns_printConstantOp. pose proof returns_printBinaryOperation.
  pose proof returns_writeName. pose proof returns_emitType.
  pose proof returns_emitOperands.
  induction op; intros Hwf ts; cbn [emitOperation];
    (apply returns_andThen; [| |returns_steps]);
    try solve [scopes]; try solve [returns_steps];
    try solve [cbn [emittable] in Hwf; auto 3];
    try solve [cbn [emittable] in Hwf;
               apply andb_true_iff in Hwf as [? ?]; auto 4].
  - unfold printOperation_ModuleOp. scopes.
  - cbn [emittable] in Hwf.
    match goal with
    | H : list_all _ _ _ |- _ => apply (returns_at false) in H; [|done]
    end.
    unfold printOperation_ModuleOp. returns_steps.
  - unfold printOperation_ForOp. scopes.
  - cbn [emittable] in Hwf.
    apply andb_true_iff in Hwf as [Hne%nonEmpty_region Hwf].
    match goal with
    | H : list_all _ _ _ |- _ => apply (returns_at true) in H; [|done]
    end.
    unfold printOperation_ForOp. returns_steps.
  - unfold printOperation_IfOp. scopes.
  - cbn [emittable] in Hwf.
    apply andb_true_iff in Hwf as [[Hne%nonEmpty_region Hwf]%andb_true_iff
                                     Helse].
    match goal with
    | H : list_all _ _ _, H' : option_all _ _ _ |- _ =>
        apply (returns_at true) in H; [|done];
        destruct H' as [ops Hops|]
    end.
    + apply andb_true_iff in Helse as [Hne'%nonEmpty_region Hwf'].
      apply (returns_at true) in Hops; [|done].
      unfold printOperation_IfOp. returns_steps.
    + unfold printOperation_IfOp. returns_steps.
  - apply (Phi_printOperation_FuncOp _ keepsScopes_closed),
      (Phi_blocks_all _ keepsScopes_closed).
  - cbn [emittable] in Hwf.
    match goal with
    | H : list_all _ _ _ |- _ => apply returns_emitBlocks in H; [|done]
    end.
    pose proof returns_emitVariableDeclaration.
    pose proof returns_declareResultsOf.
    assert (forall types, returns (emitTypes types)).
    { intros types. unfold emitTypes, emitTupleType, emitTupleTypeWith.
      returns_steps. }
    assert (forall blocks, returns (createLabels blocks)).
    { intros bs. unfold createLabels. returns_steps. }
    assert (forall blocks, returns (declareBlockArguments blocks)).
    { intros bs. unfold declareBlockArguments. returns_steps. }
    assert (forall types, keepsScopes _ (emitTypes types)).
    { intros types. unfold emitTypes, emitTupleType, emitTupleTypeWith.
      scopes. }
    assert (keepsScopes _ (emitBlocks emitOperation blocks)).
    { apply (Phi_emitBlocks _ keepsScopes_closed),
        (Phi_blocks_all _ keepsScopes_closed). }
    assert (forall op, keepsScopes _ (declareResultsOf op))
      by apply (Phi_declareResultsOf _ keepsScopes_closed).
    unfold printOperation_FuncOp, printFunctionDefinition,
      emitFunctionSignature, declareVariablesOfFunction.
    returns_steps.
Qed.

Lemma returns_operations ts ops :
  forallb emittable ops = true ->
  list_all Operation (fun op => returns (emitOperation op ts)) ops.
Proof.
  apply returns_at, list_all_intro. intros op. apply returns_emitOperation.
Qed.

Lemma returns_moduleBody body :
  forallb emittable body = true ->
  returns (forEachWithError (fun op => emitOperation op false) body).
Proof.
  intros Hwf%(returns_operations false). returns_steps.
Qed.

Lemma returns_functionBody name resultTypes blocks :
  emittable (func_FuncOp name resultTypes blocks) = true ->
  returns
    (emitFunctionSignature name resultTypes blocks >>?
     (indent;;
      (declareVariablesOfFunction name resultTypes blocks >>?
       (createLabels blocks;;
        (declareBlockArguments blocks >>?
         (emitBlocks emitOperation blocks >>?
          (unindent;; write ("}" +:+ nl);; ret (success true)))))))).
Proof.
  cbn [emittable]. intros Hwf.
  assert (returns (emitBlocks emitOperation blocks)).
  { apply returns_emitBlocks; [|done]. clear Hwf.
    induction blocks as [|block rest IH]; constructor; [|exact IH].
    apply Block__all_intro. intros op. apply returns_emitOperation. }
  pose proof returns_writeName. pose proof returns_emitType.
  pose proof returns_emitVariableDeclaration.
  pose proof returns_declareResultsOf.
  assert (forall types, returns (emitTypes types)).
  { intros types. unfold emitTypes, emitTupleType, emitTupleTypeWith.
    returns_steps. }
  assert (forall blocks, returns (createLabels blocks)).
  { intros bs. unfold createLabels. returns_steps. }
  assert (forall blocks, returns (declareBlockArguments blocks)).
  { intros bs. unfold declareBlockArguments. returns_steps. }
  assert (forall types, keepsScopes _ (emitTypes types)).
  { intros types. unfold emitTypes, emitTupleType, emitTupleTypeWith.
    scopes. }
  assert (keepsScopes _ (emitBlocks emitOperation blocks)).
  { apply (Phi_emitBlocks _ keepsScopes_closed),
      (Phi_blocks_all _ keepsScopes_closed). }
  assert (forall op, keepsScopes _ (declareResultsOf op))
    by apply (Phi_declareResultsOf _ keepsScopes_closed).
  unfold emitFunctionSignature, declareVariablesOfFunction.
  returns_steps.
Qed.

(** X20: where the emitter returns.  Provided every region of a [for] and
    of an [if] has an operation and no attribute handed to [emitAttribute]
    is a dense integer attribute of a vector type, emitting an operation
    inside a scope always returns a result: no name is inserted without a
    scope, no counter is read from an empty stack, no operand list is read
    out of range, no region is walked past its end and no cast to a tensor
    type fails.  The translation of such a module or function returns from
    the fresh emitter, which has no scope yet.  The proviso on the
    attributes is needed: a call whose only argument is a dense integer
    attribute of another type has no result. *)
Theorem emitOperation_returns :
  (forall op ts st,
     emittable op = true ->
     valueMapper st <> [] -> blockMapper st <> [] ->
     valueInScopeCount st <> [] -> labelInScopeCount st <> [] ->
     exists r st', emitOperation op ts st = Some (r, st'))
  /\ (forall body os declareVariablesAtTop,
        emittable (ModuleOp body) = true ->
        exists r st',
          translateToCpp (ModuleOp body) os declareVariablesAtTop
          = Some (r, st'))
  /\ (forall name resultTypes blocks os declareVariablesAtTop,
        emittable (func_FuncOp name resultTypes blocks) = true ->
        exists r st',
          translateToCpp (func_FuncOp name resultTypes blocks) os
            declareVariablesAtTop
          = Some (r, st'))
  /\ (forall callee attr operands ts st,
        castsToTensor attr = false ->
        emitOperation (emitc_CallOp callee (Some [attr]) None [] operands)
          ts st
        = None).
Proof.
  assert (forall os flag, counted (CppEmitter_new os flag)) as Hnew
    by (by intros os flag; split).
  split; [|split; [|split]]; cycle 3.
  { intros callee attr operands ts st Hcast.
    cbn [emitOperation]. unfold printOperation_emitc_CallOp.
    cbn [emitAssignPrefix interleaveCommaWithError interleaveWithError].
    run.
    assert (emitArgs operands attr = (emitAttribute attr >>? ret (success true)))
      as -> by (by destruct attr).
    run. by rewrite (emitAttribute_cast_fails _ _ Hcast). }
  - intros op ts st Hwf Hv Hb Hvc Hlc.
    destruct (returns_emitOperation op Hwf ts st) as [[r st'] E];
      [by repeat split|].
    by exists r, st'.
  - intros body os flag Hwf. cbn [emittable] in Hwf.
    unfold translateToCpp. cbn [emitOperation isLiteralOp].
    unfold printOperation_ModuleOp. rewrite run_andThen.
    destruct (withScope_returns
                (forEachWithError (fun op => emitOperation op false) body)
                (CppEmitter_new os flag)) as [[r st1] E];
      [apply (Phi_moduleBody _ keepsScopes_closed)
      |by apply returns_moduleBody|done|].
    rewrite E. destruct r; by eexists _, _.
  - intros name resultTypes blocks os flag Hwf.
    unfold translateToCpp. cbn [emitOperation isLiteralOp].
    unfold printOperation_FuncOp, printFunctionDefinition.
    rewrite run_andThen, run_bind. unfold shouldDeclareVariablesAtTop.
    rewrite run_get.
    destruct (negb _ && bool_decide _); [by eexists _, _|].
    match goal with
    | |- context [withScope ?m ?st] =>
        destruct (withScope_returns m st) as [[r st1] E];
          [apply (Phi_functionBody _ keepsScopes_closed)
          |by apply returns_functionBody|done|]
    end.
    rewrite E. destruct r; by eexists _, _.
Qed.

(** The instance of X20 for a module with a function that loops. *)
Lemma emitOperation_returns_witness :
  let index := IndexType in
  let v n := {| valueImpl := n; definingLiteral := None |} in
  let arg n k := {| argValue := v n; argType := index; getArgNumber := k |} in
  let loop :=
    emitc_ForOp (v 1) (v 2) (v 3) (arg 4 0%N) [OtherOp "emitc.yield" [] []] in
  let f :=
    func_FuncOp "f" []
      [mkBlock 0 [arg 1 0%N; arg 2 1%N; arg 3 2%N]
         [loop; func_ReturnOp [] []] []] in
  emittable (ModuleOp [f]) = true
  /\ exists r st', translateToCpp (ModuleOp [f]) [] false = Some (r, st').
Proof.
  intros index v arg loop f.
  assert (emittable (ModuleOp [f]) = true) as Hwf by reflexivity.
  split; [exact Hwf|].
  exact (proj1 (proj2 emitOperation_returns) [f] [] false Hwf).
Defined.

(** Outside every scope an operation that needs a name for its result has
    no defined behaviour: the insertion into the table asserts that a scope
    is active. *)
Example constant_outside_scope :
  let x := {| valueImpl := 1; definingLiteral := None |} in
  let op :=
    emitc_ConstantOp
      {| resultValue := x; resultType := IntegerType 32 Signless |}
      (OpaqueAttr "0") in
  translateToCpp op [] false = None.
Proof. reflexivity. Qed.

(** ** 33. Assignments *)

(** X21: an assignment checks its variable, not its value.  With a
    variable that has no name in scope [emitc.assign] is refused as not
    declared and prints nothing; with a variable that has one it always
    succeeds inside a scope and prints the variable, [ = ] and the visible
    name of the value afterwards, minting a name for a value that has
    none. *)
Theorem printOperation_AssignOp_statement (var value : Value)
    (st : CppEmitter) scope outer top below :
  valueMapper st = scope :: outer ->
  valueInScopeCount st = top :: below ->
  definingLiteral var = None ->
  match ScopedHashTable_begin var (valueMapper st) with
  | None =>
      printOperation_AssignOp var value st
      = Some (Failure,
              diagnosed st
                "result variable for the operation has not been declared")
  | Some variable =>
      exists name st',
        printOperation_AssignOp var value st = Some (Success, st')
        /\ visibleName (valueMapper st') value = Some name
        /\ os st' = os st ++ [OsWrite variable; OsWrite " = "; OsWrite name]
        /\ diagnostics st' = diagnostics st
  end.
Proof.
  intros Ev Ec Hlit. unfold printOperation_AssignOp.
  destruct (ScopedHashTable_begin var (valueMapper st)) as [variable|]
    eqn:Hvar.
  - destruct (writeName_total value
                (emitted st [OsWrite variable; OsWrite " = "]) scope outer
                top below Ev Ec)
      as (name & st' & E & Hname & Hos & Hdiag & _).
    exists name, st'. rewrite run_andThen.
    rewrite (emitVariableAssignment_bound _ variable) by done.
    rewrite run_bind, E, run_ret.
    split; [done|]. split; [done|]. split; [|done].
    rewrite Hos. cbn. by rewrite <- (assoc_L (++)).
  - rewrite run_andThen. unfold emitVariableAssignment.
    rewrite run_bind, run_hasValueInScope.
    by rewrite (proj2 (count_false _ _)).
Qed.

(** The instance of X21 for a declared variable and a value that was
    never defined. *)
Lemma printOperation_AssignOp_statement_witness :
  let x := {| valueImpl := 1; definingLiteral := None |} in
  let y := {| valueImpl := 2; definingLiteral := None |} in
  let st := mkCppEmitter [] true [{[x := "v1"]}] [∅] [1%Z; 0%Z] [0%Z; 0%Z]
              [] in
  exists name st',
    printOperation_AssignOp x y st = Some (Success, st')
    /\ visibleName (valueMapper st') y = Some name
    /\ os st' = [OsWrite "v1"; OsWrite " = "; OsWrite name].
Proof.
  intros x y st.
  pose proof (printOperation_AssignOp_statement x y st {[x := "v1"]} [] 1%Z
                [0%Z] eq_refl eq_refl eq_refl) as H.
  assert (ScopedHashTable_begin x (valueMapper st) = Some "v1") as Hx
    by (vm_compute; reflexivity).
  rewrite Hx in H. destruct H as (name & st' & E & Hname & Hos & _).
  by exists name, st'.
Defined.

(** ** 34. The labels of a function body *)

Lemma allLabelled_elem body block st :
  allLabelled body st = true -> block ∈ body ->
  is_Some (ScopedHashTable_begin (blockId block) (blockMapper st)).
Proof.
  unfold allLabelled. rewrite forallb_forall. intros Hall Hin.
  apply count_true, Hall, list_elem_of_In, Hin.
Qed.

Lemma allLabelled_intro body st :
  (forall block, block ∈ body ->
     is_Some (ScopedHashTable_begin (blockId block) (blockMapper st))) ->
  allLabelled body st = true.
Proof.
  intros Hall. unfold allLabelled. apply forallb_forall.
  intros block Hin%list_elem_of_In. by apply count_true, Hall.
Qed.

Lemma allLabelled_nested body st st' :
  nested st st' -> allLabelled body st = true -> allLabelled body st' = true.
Proof.
  intros (_ & Hkept & _) Hall. apply allLabelled_intro. intros block Hin.
  destruct (allLabelled_elem body block st Hall Hin) as [label Hlabel].
  exists label. by eapply scopesKept_begin.
Qed.

(** The label step of the block loop is the label line wherever the block
    has a label. *)
Lemma emitBlockLabel_labelLine block st :
  is_Some (ScopedHashTable_begin (blockId block) (blockMapper st)) ->
  emitBlockLabel block st = labelLine block st.
Proof.
  intros [label Hlabel]. unfold emitBlockLabel, labelLine. rewrite Hlabel.
  destruct (hasNoPredecessors block); simpl; [done|].
  unfold emitLabel. rewrite run_bind, run_hasBlockLabel.
  rewrite (proj2 (count_true _ _)) by (by rewrite Hlabel). simpl.
  rewrite run_bind, (getOrCreateLabel_bound _ label) by done.
  by run.
Qed.

Lemma labelLine_kept block st r st' :
  labelLine block st = Some (r, st') ->
  r = Success /\ blockMapper st' = blockMapper st.
Proof.
  unfold labelLine. destruct (ScopedHashTable_begin _ _); [|done].
  intros [= <- <-]. by destruct (hasNoPredecessors block).
Qed.

Lemma operations_labelled body (semicolon : Operation -> bool) ops st :
  allLabelled body st = true ->
  forEachWithError (fun op => emitOperation op (semicolon op)) ops st
  = forEachWithError (fun op => emitOperationLabelled body op (semicolon op))
      ops st.
Proof.
  revert st. induction ops as [|op ops IH]; intros st Hall; [done|].
  cbn [forEachWithError]. rewrite !run_andThen.
  unfold emitOperationLabelled at 1. rewrite Hall.
  destruct (emitOperation op (semicolon op) st) as [[[] st1]|] eqn:E;
    [|done..].
  apply IH. eapply allLabelled_nested; [|done].
  by eapply nested_emitOperation.
Qed.

Lemma emitBlocks_labelled body blocks st :
  allLabelled body st = true ->
  (forall block, block ∈ blocks -> block ∈ body) ->
  emitBlocks emitOperation blocks st = emitLabelledBlocks body blocks st.
Proof.
  revert st. induction blocks as [|block blocks IH]; intros st Hall Hsub;
    [done|].
  unfold emitBlocks, emitLabelledBlocks in *. cbn [forEachWithError].
  rewrite !run_andThen.
  rewrite emitBlockLabel_labelLine
    by (eapply allLabelled_elem; [done|apply Hsub, list_elem_of_here]).
  destruct (labelLine block st) as [[r st1]|] eqn:Eline; [|done].
  destruct (labelLine_kept _ _ _ _ Eline) as [-> Hkept].
  assert (allLabelled body st1 = true) as Hall1
    by (unfold allLabelled in *; by rewrite Hkept).
  rewrite <- (operations_labelled body
                (fun op => negb (isBracedOrLiteral op))) by done.
  destruct (forEachWithError _ (getOperations block) st1)
    as [[[] st2]|] eqn:Eops; [|done..].
  apply IH.
  - eapply allLabelled_nested; [|exact Hall1].
    eapply (guarantees_forEachWithError nested); [|exact Eops].
    intros op. apply nested_emitOperation.
  - intros b Hb. by apply Hsub, list_elem_of_further.
Qed.

Lemma keepsScopes_functionPrologue name resultTypes blocks :
  keepsScopes _ (functionPrologue name resultTypes blocks).
Proof.
  unfold functionPrologue, emitFunctionSignature, emitTypes, emitTupleType,
    emitTupleTypeWith, declareVariablesOfFunction, declareResultsOf.
  scopes.
Qed.

(** The function printer, taken apart at the label pass. *)
Lemma printFunctionDefinition_inv name resultTypes blocks st r st' :
  printFunctionDefinition emitOperation name resultTypes blocks st
  = Some (r, st') ->
  exists st1 r2 st2,
    enterScope st = Some (tt, st1)
    /\ functionPrologue name resultTypes blocks st1 = Some (r2, st2)
    /\ match r2 with
       | Failure => r = Failure
       | Success =>
           exists st3 r4 st4,
             createLabels blocks st2 = Some (tt, st3)
             /\ os st3 = os st2
             /\ allLabelled blocks st3 = true
             /\ declareBlockArguments blocks st3 = Some (r4, st4)
             /\ (forall (block : Block) label,
                   ScopedHashTable_begin (blockId block) (blockMapper st3)
                   = Some label ->
                   ScopedHashTable_begin (blockId block) (blockMapper st4)
                   = Some label)
             /\ allLabelled blocks st4 = true
             /\ match r4 with
                | Failure => r = Failure
                | Success =>
                    exists st5,
                      emitBlocks emitOperation blocks st4 = Some (r, st5)
                end
       end.
Proof.
  unfold printFunctionDefinition.
  intros (st1 & stE & E1 & E2 & _)%withScope_inv.
  exists st1. unfold functionPrologue. revert E2. rewrite !run_andThen.
  destruct (emitFunctionSignature name resultTypes blocks st1)
    as [[[] sA]|] eqn:Esig; [| |done].
  2:{ intros [= <- <-]. by exists Failure, sA. }
  rewrite !run_bind. unfold indent at 1 2. cbn [streamOp].
  rewrite run_andThen.
  destruct (declareVariablesOfFunction name resultTypes blocks _)
    as [[[] st2]|] eqn:Edecl; [| |done].
  2:{ intros [= <- <-]. by exists Failure, st2. }
  intros E2. exists Success, st2. split; [done|]. split; [done|].
  assert (nested st1 st2) as Hnested.
  { apply (keepsScopes_functionPrologue name resultTypes blocks st1 Success).
    unfold functionPrologue. rewrite run_andThen, Esig, run_bind.
    unfold indent. cbn [streamOp]. exact Edecl. }
  apply enterScope_inv in E1 as (v & vs & l & ls & Ev & El & ->).
  destruct Hnested as (_ & Kb & _ & Kc). cbn in Kb, Kc.
  destruct (blockMapper st2) as [|scope outer] eqn:Eb; [done|].
  destruct (labelInScopeCount st2) as [|top below] eqn:Ec; [done|].
  destruct (createLabels_spec blocks st2 scope outer top below Eb Ec)
    as (st3 & E3 & Hos & Hall).
  rewrite run_bind, E3, run_andThen in E2.
  destruct (declareBlockArguments blocks st3) as [[r4 st4]|] eqn:E4; [|done].
  assert (nested st3 st4) as Hnested4
    by (by eapply (Phi_declareBlockArguments _ nested_closed)).
  exists st3, r4, st4. split; [done|]. split; [done|].
  split; [by apply allLabelled_intro|]. split; [done|]. split.
  { intros block label. destruct Hnested4 as (_ & Hkept & _).
    by apply scopesKept_begin. }
  split.
  { eapply allLabelled_nested; [done|]. by apply allLabelled_intro. }
  destruct r4; [|by injection E2 as <- _].
  rewrite run_andThen in E2.
  destruct (emitBlocks emitOperation blocks st4) as [[[] st5]|] eqn:E5;
    [| |done].
  - exists st5. f_equal. f_equal. revert E2. run. by intros [= <- _].
  - exists st5. injection E2 as <- _. done.
Qed.


